(** * MovieGraphPy: the query/result-shaping layer of [proglab3proje/app.py]

    A shallow embedding of [MovieGraphApp.search_movies],
    [MovieGraphApp.get_movie_details] and
    [MovieGraphApp.generate_graph_json], together with the pieces of their
    environment the methods talk to: the Neo4j session (a property graph
    and the three Cypher queries of the source), the file system below
    [exports/], the console, and [json.dump] / [json.load]. *)

From Stdlib Require Import ZArith NArith Ascii String Lia.
From Stdlib Require Import DecimalFacts DecimalPos DecimalN DecimalZ.
From stdpp Require Import base option list gmap strings sorting.

#[local] Set Warnings "-clear-no-such-hyp".

Open Scope N_scope.

(** ** Python text

    A Python [str] is a sequence of Unicode code points; a code point is
    modelled as an [N]. *)

Abbreviation char := N (only parsing).
Abbreviation str := (list N) (only parsing).

(** An ASCII literal of the source as a [str]. *)
Definition lit (s : string) : str :=
  (fun a => N_of_ascii a) <$> list_ascii_of_string s.
Arguments lit : simpl never.

(** Truth value of a [str]: the empty string is falsy. *)
Definition str_truthy (s : str) : bool :=
  match s with [] => false | _ :: _ => true end.

(** [str.isspace] on one character (CPython's [Py_UNICODE_ISSPACE]): the
    ASCII table entries 0x09-0x0D, 0x1C-0x1F and 0x20, and the Unicode
    white space U+0085, U+00A0, U+1680, U+2000-U+200A, U+2028, U+2029,
    U+202F, U+205F, U+3000. *)
Definition isspace (c : char) : bool :=
  ((9 <=? c) && (c <=? 13)) || ((28 <=? c) && (c <=? 32))
  || (c =? 133) || (c =? 160) || (c =? 5760)
  || ((8192 <=? c) && (c <=? 8202))
  || (c =? 8232) || (c =? 8233) || (c =? 8239) || (c =? 8287)
  || (c =? 12288).

Fixpoint lstrip (s : str) : str :=
  match s with
  | [] => []
  | c :: s' => if isspace c then lstrip s' else s
  end.

Definition rstrip (s : str) : str := reverse (lstrip (reverse s)).

(** [s.strip()] with no argument. *)
Definition strip (s : str) : str := rstrip (lstrip s).

(** [s.replace(old, new)] for one-character [old] and [new], the only
    form the source uses ([.replace(' ', '_')]). *)
Definition replace (old new : char) (s : str) : str :=
  (fun c => if c =? old then new else c) <$> s.

Definition space : char := 32.
Definition underscore : char := 95.

(** Cypher's [CONTAINS] on two strings: [t] occurs in [s]. *)
Fixpoint starts_with (t s : str) : bool :=
  match t, s with
  | [], _ => true
  | _ :: _, [] => false
  | a :: t', b :: s' => (a =? b) && starts_with t' s'
  end.

Fixpoint contains (s t : str) : bool :=
  starts_with t s ||
  match s with
  | [] => false
  | _ :: s' => contains s' t
  end.

(** ** Property values

    The scalar property kinds of the Movies data set.  A property that is
    absent reads as [None] (Cypher [null], Python [None]). *)

Inductive value :=
  | VBool (b : bool)
  | VInt (z : Z)
  | VStr (s : str).

#[global] Instance value_eq_dec : EqDecision value.
Proof. solve_decision. Defined.

(** ** The property graph *)

Record Node := {
  node_id : N;
  node_labels : list string;
  node_props : gmap string value
}.

#[global] Instance Node_eq_dec : EqDecision Node.
Proof. solve_decision. Defined.

(** A relationship [(start)-[:type]->(end)]; the store is a multigraph, the
    same triple may occur more than once. *)
Record Rel := {
  rel_start : N;
  rel_type : string;
  rel_end : N
}.

Record Store := {
  store_nodes : gmap N (list string * gmap string value);
  store_rels : list Rel
}.

Definition mk_node (i : N) (d : list string * gmap string value) : Node :=
  {| node_id := i; node_labels := d.1; node_props := d.2 |}.

Definition all_nodes (st : Store) : list Node :=
  (fun p => mk_node p.1 p.2) <$> map_to_list (store_nodes st).

Definition get_node (st : Store) (i : N) : option Node :=
  mk_node i <$> store_nodes st !! i.

Definition has_label (l : string) (n : Node) : bool :=
  bool_decide (l ∈ node_labels n).

(** [n.key] in Cypher, [n.get(key)] and [n[key]] in the driver. *)
Definition prop (n : Node) (k : string) : option value := node_props n !! k.

(** Truth value of a driver [Node]: [Entity.__len__] is the number of
    properties, so a node without properties is falsy. *)
Definition node_truthy (n : Node) : bool :=
  bool_decide (node_props n ≠ ∅).

(** ** The three Cypher queries

    Each query of the source is read clause by clause over a [Store].
    Scan order is the store's: nodes in [map_to_list] order, relationships
    in list order; [DISTINCT] keeps first occurrences. *)

(** [DISTINCT]: later occurrences of a value are dropped. *)
Fixpoint distinct `{EqDecision A} (l : list A) : list A :=
  match l with
  | [] => []
  | x :: l' => x :: filter (fun y => y ≠ x) (distinct l')
  end.

(** [MATCH (m:Movie {title: $title})] *)
Definition match_movie (st : Store) (title : str) : list Node :=
  filter (fun n => has_label "Movie" n = true /\ prop n "title" = Some (VStr title))
         (all_nodes st).

(** [(p:Person)-[:ty]->(m)]: one binding of [p] per relationship of type
    [ty] that ends in [m] and starts in a node labelled [Person]. *)
Definition incoming (st : Store) (ty : string) (m : Node) : list Node :=
  omap (fun r =>
          if bool_decide (rel_type r = ty /\ rel_end r = node_id m)
          then p ← get_node st (rel_start r);
               if has_label "Person" p then Some p else None
          else None)
       (store_rels st).

(** [OPTIONAL MATCH]: a pattern without a match binds [null] once. *)
Definition optional {A} (l : list A) : list (option A) :=
  match l with
  | [] => [None]
  | _ :: _ => Some <$> l
  end.

(** The rows for one movie after
    [OPTIONAL MATCH (d:Person)-[r1:DIRECTED]->(m)] and
    [OPTIONAL MATCH (a:Person)-[r2:ACTED_IN]->(m)]. *)
Definition person_rows (st : Store) (m : Node) : list (option Node * option Node) :=
  d ← optional (incoming st "DIRECTED" m);
  a ← optional (incoming st "ACTED_IN" m);
  [(d, a)].

(** *** Search *)

Record SearchRecord := {
  sr_title : option value;
  sr_released : option value;
  sr_tagline : option value
}.

(** Cypher's order of values of different kinds, ascending: strings, then
    booleans, then numbers, [null] last. *)
Fixpoint str_leb (s t : str) : bool :=
  match s, t with
  | [], _ => true
  | _ :: _, [] => false
  | a :: s', b :: t' => (a <? b) || ((a =? b) && str_leb s' t')
  end.

Definition cypher_leb (x y : option value) : bool :=
  match x, y with
  | _, None => true
  | None, Some _ => false
  | Some (VStr s), Some (VStr t) => str_leb s t
  | Some (VStr _), Some _ => true
  | Some (VBool _), Some (VStr _) => false
  | Some (VBool a), Some (VBool b) => implb a b
  | Some (VBool _), Some (VInt _) => true
  | Some (VInt a), Some (VInt b) => (a <=? b)%Z
  | Some (VInt _), Some _ => false
  end.

(** [ORDER BY m.released DESC], as a stable insertion sort. *)
Fixpoint insert_desc (x : SearchRecord) (l : list SearchRecord) : list SearchRecord :=
  match l with
  | [] => [x]
  | y :: l' =>
      if cypher_leb (sr_released y) (sr_released x) then x :: l
      else y :: insert_desc x l'
  end.

Definition order_by_released_desc (l : list SearchRecord) : list SearchRecord :=
  foldr insert_desc [] l.

(** [m.title CONTAINS $search_term]: [null] (no row) unless the title is a
    string. *)
Definition title_contains (m : Node) (search_term : str) : bool :=
  match prop m "title" with
  | Some (VStr t) => contains t search_term
  | _ => false
  end.

(** [MATCH (m:Movie) WHERE m.title CONTAINS $search_term
    RETURN m.title AS title, m.released AS released, m.tagline AS tagline
    ORDER BY m.released DESC] *)
Definition cypher_search (st : Store) (search_term : str) : list SearchRecord :=
  order_by_released_desc
    ((fun m => {| sr_title := prop m "title";
                  sr_released := prop m "released";
                  sr_tagline := prop m "tagline" |})
     <$> filter (fun m => has_label "Movie" m && title_contains m search_term = true)
                (all_nodes st)).

(** *** Detail *)

Record DetailRecord := {
  dr_title : option value;
  dr_released : option value;
  dr_tagline : option value;
  dr_directors : list (option value);
  dr_actors : list (option value)
}.

(** The rows of the detail query before aggregation: the movie, then the
    bindings of [d] and [a]. *)
Definition detail_rows (st : Store) (title : str)
  : list (Node * (option Node * option Node)) :=
  m ← match_movie st title;
  r ← person_rows st m;
  [(m, r)].

(** The grouping key of the detail query's [RETURN]: its three
    non-aggregated expressions. *)
Definition detail_key (m : Node) : option value * option value * option value :=
  (prop m "title", prop m "released", prop m "tagline").

(** [collect(DISTINCT p.name)]: [collect] leaves [null] out. *)
Definition collect_distinct_names (ps : list (option Node)) : list (option value) :=
  Some <$> distinct (omap (fun p => n ← p; prop n "name") ps).

(** [MATCH (m:Movie {title: $title})
    OPTIONAL MATCH (d:Person)-[:DIRECTED]->(m)
    OPTIONAL MATCH (a:Person)-[:ACTED_IN]->(m)
    RETURN m.title AS title, m.released AS released, m.tagline AS tagline,
           collect(DISTINCT d.name) AS directors,
           collect(DISTINCT a.name) AS actors] *)
Definition detail_group (rows : list (Node * (option Node * option Node)))
    (k : option value * option value * option value) : DetailRecord :=
  let grp := filter (fun r => detail_key r.1 = k) rows in
  {| dr_title := k.1.1;
     dr_released := k.1.2;
     dr_tagline := k.2;
     dr_directors := collect_distinct_names ((fun r => r.2.1) <$> grp);
     dr_actors := collect_distinct_names ((fun r => r.2.2) <$> grp) |}.

Definition cypher_detail (st : Store) (title : str) : list DetailRecord :=
  let rows := detail_rows st title in
  detail_group rows <$> distinct ((fun r => detail_key r.1) <$> rows).

(** *** Export source *)

Inductive LinkType := DIRECTED | ACTED_IN.

#[global] Instance LinkType_eq_dec : EqDecision LinkType.
Proof. solve_decision. Defined.

(** The Cypher map [{person: p, rel: '...'}]. *)
Record RelEntry := {
  person : option Node;
  rel : LinkType
}.

#[global] Instance RelEntry_eq_dec : EqDecision RelEntry.
Proof. solve_decision. Defined.

Record ExportRecord := {
  er_m : Node;
  er_director_rels : list RelEntry;
  er_actor_rels : list RelEntry
}.

(** [MATCH (m:Movie {title: $title})
    OPTIONAL MATCH (d:Person)-[r1:DIRECTED]->(m)
    OPTIONAL MATCH (a:Person)-[r2:ACTED_IN]->(m)
    WITH m,
         collect(DISTINCT {person: d, rel: 'DIRECTED'}) AS director_rels,
         collect(DISTINCT {person: a, rel: 'ACTED_IN'}) AS actor_rels
    RETURN m, director_rels, actor_rels]
    The maps are never [null], so [collect] keeps the one with a [null]
    person; the rows are grouped by the node [m]. *)
Definition cypher_export (st : Store) (title : str) : list ExportRecord :=
  (fun m =>
     let rows := person_rows st m in
     {| er_m := m;
        er_director_rels :=
          distinct ((fun r => {| person := r.1; rel := DIRECTED |}) <$> rows);
        er_actor_rels :=
          distinct ((fun r => {| person := r.2; rel := ACTED_IN |}) <$> rows) |})
  <$> match_movie st title.

(** ** JSON values and [json.dump]

    The Python objects the export hands to [json.dump]: [None], [bool],
    [int], [str], [list] and [dict] with [str] keys (in insertion
    order). *)

#[warnings="-register-all"]
Inductive json :=
  | JNull
  | JBool (b : bool)
  | JInt (z : Z)
  | JStr (s : str)
  | JList (l : list json)
  | JDict (d : list (str * json)).

Definition hex_digit (n : N) : char :=
  if n <? 10 then 48 + n else 87 + n.

(** [ESCAPE_DCT] of [json.encoder]: the named escapes, and
    ['\\u{0:04x}'.format(i)] for the other characters below 0x20. *)
Definition escape_char (c : char) : str :=
  if c =? 92 then lit "\\"
  else if c =? 34 then [92; 34]
  else if c =? 8 then lit "\b"
  else if c =? 12 then lit "\f"
  else if c =? 10 then lit "\n"
  else if c =? 13 then lit "\r"
  else if c =? 9 then lit "\t"
  else if c <? 32 then lit "\u00" ++ [hex_digit (c / 16); hex_digit (c mod 16)]
  else [c].

(** [encode_basestring], the string encoder under [ensure_ascii=False]:
    characters from 0x20 on, other than the quote and the backslash, are
    written as they are. *)
Definition encode_basestring (s : str) : str :=
  [34] ++ mbind escape_char s ++ [34].

Definition digit_char (d : N) : char := 48 + d.

Fixpoint uint_chars (u : Decimal.uint) : str :=
  match u with
  | Decimal.Nil => []
  | Decimal.D0 u' => digit_char 0 :: uint_chars u'
  | Decimal.D1 u' => digit_char 1 :: uint_chars u'
  | Decimal.D2 u' => digit_char 2 :: uint_chars u'
  | Decimal.D3 u' => digit_char 3 :: uint_chars u'
  | Decimal.D4 u' => digit_char 4 :: uint_chars u'
  | Decimal.D5 u' => digit_char 5 :: uint_chars u'
  | Decimal.D6 u' => digit_char 6 :: uint_chars u'
  | Decimal.D7 u' => digit_char 7 :: uint_chars u'
  | Decimal.D8 u' => digit_char 8 :: uint_chars u'
  | Decimal.D9 u' => digit_char 9 :: uint_chars u'
  end.

(** [int.__repr__]: decimal digits, a minus sign for negative numbers. *)
Definition intstr (z : Z) : str :=
  match Z.to_int z with
  | Decimal.Pos u => uint_chars u
  | Decimal.Neg u => 45 :: uint_chars u
  end.

(** ['\n' + _indent * level] for [indent=2]. *)
Definition newline_indent (level : nat) : str :=
  10 :: List.repeat space (2 * level).

(** The loop of [_iterencode_list] over the items, with the encoder of
    the items as a parameter: a scalar item is yielded together with the
    pending [buf], a list or dictionary after it. *)
Definition list_chunks (enc : json -> list str) (separator : str)
  : str -> list json -> list str :=
  fix items (buf : str) (l : list json) : list str :=
    match l with
    | [] => []
    | v :: l' =>
        match v with
        | JList _ | JDict _ => buf :: enc v
        | _ => [buf ++ concat (enc v)]
        end ++ items separator l'
    end.

(** The loop of [_iterencode_dict] over the items: the separator unless
    the item is the first, the key, [': '], the value. *)
Definition dict_chunks (enc : json -> list str) (item_separator : str)
  : bool -> list (str * json) -> list str :=
  fix items (first : bool) (d : list (str * json)) : list str :=
    match d with
    | [] => []
    | (k, v) :: d' =>
        (if first then [] else [item_separator])
        ++ [encode_basestring k; lit ": "]
        ++ enc v
        ++ items false d'
    end.

(** The chunks [JSONEncoder(ensure_ascii=False, indent=2).iterencode]
    yields, following [_make_iterencode]. *)
Fixpoint iterencode (level : nat) (o : json) {struct o} : list str :=
  match o with
  | JStr s => [encode_basestring s]
  | JNull => [lit "null"]
  | JBool true => [lit "true"]
  | JBool false => [lit "false"]
  | JInt z => [intstr z]
  | JList [] => [lit "[]"]
  | JList l =>
      list_chunks (iterencode (S level)) (44 :: newline_indent (S level))
        (91 :: newline_indent (S level)) l
      ++ [newline_indent level; [93]]
  | JDict [] => [lit "{}"]
  | JDict d =>
      [[123]; newline_indent (S level)]
      ++ dict_chunks (iterencode (S level)) (44 :: newline_indent (S level))
           true d
      ++ [newline_indent level; [125]]
  end.

(** [json.dumps(o, ensure_ascii=False, indent=2)]. *)
Definition dumps (o : json) : str := concat (iterencode 0 o).

(** ** UTF-8, the encoding of the artifact *)

(** One code point as UTF-8 bytes, the shifts and masks written as
    quotients and remainders; a surrogate (and anything above U+10FFFF)
    cannot be encoded. *)
Definition utf8_encode_char (c : char) : option (list N) :=
  if c <? 0x80 then Some [c]
  else if c <? 0x800 then
    Some [0xC0 + c / 64; 0x80 + c mod 64]
  else if c <? 0x10000 then
    if (0xD800 <=? c) && (c <=? 0xDFFF) then None
    else Some [0xE0 + c / 4096; 0x80 + (c / 64) mod 64; 0x80 + c mod 64]
  else if c <? 0x110000 then
    Some [0xF0 + c / 262144; 0x80 + (c / 4096) mod 64;
          0x80 + (c / 64) mod 64; 0x80 + c mod 64]
  else None.

Fixpoint utf8_encode (s : str) : option (list N) :=
  match s with
  | [] => Some []
  | c :: s' =>
      match utf8_encode_char c, utf8_encode s' with
      | Some b, Some bs => Some (b ++ bs)
      | _, _ => None
      end
  end.

(** ** The world the methods run in *)

(** A raised exception: its class and the text [str(e)] prints. *)
Record exn := {
  exn_class : string;
  exn_text : str
}.

(** [except Exception] takes every class but the ones outside
    [Exception]. *)
Definition is_exception (e : exn) : bool :=
  bool_decide (exn_class e ∉ ["KeyboardInterrupt"; "SystemExit"; "GeneratorExit"]%string).

(** The session either answers from a store or fails every [run] (refused
    connection, failed query execution, an interrupt while it waits). *)
Inductive Conn :=
  | Up (st : Store)
  | Down (e : exn).

Inductive Query := SearchQuery | DetailQuery | ExportQuery.

(** What is at the path [exports]: nothing, something that is not a
    directory, or a directory, with the bytes of [exports/graph.json] if
    that file exists. *)
Inductive exports_entry :=
  | Missing
  | NotADirectory
  | Directory (graph_json : option (list N)).

Record FS := {
  fs_exports : exports_entry;
  fs_read_only : bool;
  fs_message : string -> list N -> list N
}.

Record World := {
  w_conn : Conn;
  w_fs : FS;
  w_queries : list (Query * str);
  w_console : list str
}.

Inductive outcome (A : Type) :=
  | Returned (a : A)
  | Raised (e : exn).
Arguments Returned {A} a.
Arguments Raised {A} e.

(** Computations over the world that return or raise. *)
Definition M (A : Type) : Type := World -> outcome A * World.

#[global] Instance M_ret : MRet M := fun A a w => (Returned a, w).
#[global] Instance M_bind : MBind M := fun A B f m w =>
  match m w with
  | (Returned a, w') => f a w'
  | (Raised e, w') => (Raised e, w')
  end.

Definition raise {A} (e : exn) : M A := fun w => (Raised e, w).

(** [try: body except Exception as e: handler(e)]: an exception outside
    [Exception] leaves the [try]. *)
Definition try_except {A} (body : M A) (handler : exn -> M A) : M A := fun w =>
  match body w with
  | (Returned a, w') => (Returned a, w')
  | (Raised e, w') => if is_exception e then handler e w' else (Raised e, w')
  end.

Definition lift {A} (o : outcome A) : M A := fun w => (o, w).

(** [print(line)] *)
Definition print (line : str) : M unit := fun w =>
  (Returned tt,
   {| w_conn := w_conn w; w_fs := w_fs w; w_queries := w_queries w;
      w_console := w_console w ++ [line] |}).

(** [with self.driver.session() as session: session.run(query, ...)] with
    the result consumed: the query is sent, and the rows come back unless
    the connection fails. *)
Definition session_run {A} (q : Query) (param : str)
    (eval : Store -> str -> list A) : M (list A) := fun w =>
  let w' := {| w_conn := w_conn w; w_fs := w_fs w;
               w_queries := w_queries w ++ [(q, param)];
               w_console := w_console w |} in
  match w_conn w with
  | Up st => (Returned (eval st param), w')
  | Down e => (Raised e, w')
  end.

(** [result.single()]: [None] without a record, otherwise the first one
    (the driver only warns when there are more). *)
Definition single {A} (result : list A) : option A := head result.

Definition set_fs (f : FS) : M unit := fun w =>
  (Returned tt,
   {| w_conn := w_conn w; w_fs := f; w_queries := w_queries w;
      w_console := w_console w |}).

Definition get_fs : M FS := fun w => (Returned (w_fs w), w).

(** An exception a file operation raises.  Its text [str(e)] is worded by
    the platform and the codec ([[Errno 17] File exists: 'exports'] on
    Linux); the model takes it from the file system, for the class and
    the path or text the operation was given. *)
Definition os_error (f : FS) (cls : string) (subject : list N) : exn :=
  {| exn_class := cls; exn_text := fs_message f cls subject |}.

Definition exports_path : list N := lit "exports".
Definition graph_json_path : list N := lit "exports/graph.json".

(** [os.makedirs('exports', exist_ok=True)] *)
Definition makedirs_exports : M unit :=
  f ← get_fs;
  match fs_exports f with
  | Directory _ => mret tt
  | NotADirectory => raise (os_error f "FileExistsError" exports_path)
  | Missing =>
      if fs_read_only f then raise (os_error f "PermissionError" exports_path)
      else set_fs {| fs_exports := Directory None; fs_read_only := fs_read_only f;
                     fs_message := fs_message f |}
  end.

(** [open('exports/graph.json', 'w', encoding='utf-8')]: the file is
    created or truncated. *)
Definition open_graph_json : M unit :=
  f ← get_fs;
  match fs_exports f with
  | Directory _ =>
      if fs_read_only f then raise (os_error f "PermissionError" graph_json_path)
      else set_fs {| fs_exports := Directory (Some []); fs_read_only := fs_read_only f;
                     fs_message := fs_message f |}
  | NotADirectory => raise (os_error f "NotADirectoryError" graph_json_path)
  | Missing => raise (os_error f "FileNotFoundError" graph_json_path)
  end.

(** [f.write(chunk)] on the open text file: the chunk is encoded and
    appended, or nothing of it is written and the encoder raises
    [UnicodeEncodeError]; a file that is not open raises [ValueError]. *)
Definition write_chunk (chunk : str) : M unit :=
  f ← get_fs;
  match utf8_encode chunk, fs_exports f with
  | Some bytes, Directory (Some old) =>
      set_fs {| fs_exports := Directory (Some (old ++ bytes));
                fs_read_only := fs_read_only f;
                fs_message := fs_message f |}
  | Some _, _ => raise (os_error f "ValueError" graph_json_path)
  | None, _ => raise (os_error f "UnicodeEncodeError" chunk)
  end.

(** [json.dump(o, f, ensure_ascii=False, indent=2)]:
    [for chunk in iterable: fp.write(chunk)]. *)
Fixpoint write_chunks (chunks : list str) : M unit :=
  match chunks with
  | [] => mret tt
  | c :: cs => write_chunk c ≫= fun _ => write_chunks cs
  end.

Definition json_dump (o : json) : M unit := write_chunks (iterencode 0 o).

(** Lines 184-189: the directory, the file, the dump. *)
Definition write_artifact (o : json) : M unit :=
  _ ← makedirs_exports;
  _ ← open_graph_json;
  json_dump o.

(** ** [MovieGraphApp.search_movies] *)

(** The dictionaries [search_movies] returns. *)
Record MovieSummary := {
  ms_title : option value;
  ms_released : option value;
  ms_tagline : option value
}.

(** The cross mark U+274C that starts the error lines. *)
Definition cross_mark : char := 10060.

(** ["❌ Arama hatası: "] *)
Definition search_error : str :=
  cross_mark :: lit " Arama hatas" ++ [305] ++ lit ": ".

Definition search_movies (search_term : str) : M (list MovieSummary) :=
  if negb (str_truthy search_term) || negb (str_truthy (strip search_term))
  then mret []
  else
    try_except
      (result ← session_run SearchQuery (strip search_term) cypher_search;
       mret ((fun record => {| ms_title := sr_title record;
                               ms_released := sr_released record;
                               ms_tagline := sr_tagline record |}) <$> result))
      (fun e => print (search_error ++ exn_text e) ≫= fun _ => mret []).

(** ** [MovieGraphApp.get_movie_details] *)

Record MovieDetail := {
  md_title : option value;
  md_released : option value;
  md_tagline : option value;
  md_directors : list (option value);
  md_actors : list (option value)
}.

(** ["❌ Detay hatası: "] *)
Definition detail_error : str :=
  cross_mark :: lit " Detay hatas" ++ [305] ++ lit ": ".

(** Lines 82-91: the two filtered lists and the dictionary. *)
Definition detail_of_record (record : DetailRecord) : MovieDetail :=
  let directors := filter (fun d => d ≠ None) (dr_directors record) in
  let actors := filter (fun a => a ≠ None) (dr_actors record) in
  {| md_title := dr_title record;
     md_released := dr_released record;
     md_tagline := dr_tagline record;
     md_directors := directors;
     md_actors := actors |}.

Definition get_movie_details (movie_title : str) : M (option MovieDetail) :=
  try_except
    (result ← session_run DetailQuery movie_title cypher_detail;
     match single result with
     | None => mret None
     | Some record => mret (Some (detail_of_record record))
     end)
    (fun e => print (detail_error ++ exn_text e) ≫= fun _ => mret None).

(** ** [MovieGraphApp.generate_graph_json] *)

Inductive Role := Director | Actor.

#[global] Instance Role_eq_dec : EqDecision Role.
Proof. solve_decision. Defined.

(** The node dictionaries: a movie carries [released] and [tagline], a
    person carries [role]. *)
Inductive GraphNode :=
  | MovieNode (id label : str) (released tagline : option value)
  | PersonNode (id label : str) (role : Role).

Definition gn_id (n : GraphNode) : str :=
  match n with
  | MovieNode i _ _ _ => i
  | PersonNode i _ _ => i
  end.

Record GraphLink := {
  source : str;
  target : str;
  type : LinkType
}.

#[global] Instance GraphLink_eq_dec : EqDecision GraphLink.
Proof. solve_decision. Defined.

(** The loop state: [nodes], [node_ids] and [links]. *)
Record GraphState := {
  nodes : list GraphNode;
  node_ids : gset (list N);
  links : list GraphLink
}.

(** [type(v).__name__] *)
Definition type_name (v : option value) : list N :=
  match v with
  | None => lit "NoneType"
  | Some (VBool _) => lit "bool"
  | Some (VInt _) => lit "int"
  | Some (VStr _) => lit "str"
  end.

(** [x.replace(' ', '_')] on a property value: only a [str] has the
    method, [None] and numbers raise [AttributeError], whose text names
    the type of the value. *)
Definition attribute_error (v : option value) : exn :=
  {| exn_class := "AttributeError";
     exn_text := lit "'" ++ type_name v ++ lit "' object has no attribute 'replace'" |}.

Definition value_replace (v : option value) : outcome (list N) :=
  match v with
  | Some (VStr s) => Returned (replace space underscore s)
  | _ => Raised (attribute_error v)
  end.

Definition role_link (r : Role) : LinkType :=
  match r with
  | Director => DIRECTED
  | Actor => ACTED_IN
  end.

(** The label of a person node, [person['name']]; it is read after
    [.replace] succeeded on it, so it is a [str]. *)
Definition value_str (v : option value) : list N :=
  match v with
  | Some (VStr s) => s
  | _ => []
  end.

(** The two [for] loops over [record['director_rels']] (role [Director],
    links [DIRECTED]) and [record['actor_rels']] (role [Actor], links
    [ACTED_IN]); their bodies differ in these two constants only. *)
Fixpoint person_loop (role : Role) (movie_id : list N) (rels : list RelEntry)
    (g : GraphState) : outcome GraphState :=
  match rels with
  | [] => Returned g
  | r :: rels' =>
      match person r with
      | Some p =>
          if node_truthy p then
            match value_replace (prop p "name") with
            | Raised e => Raised e
            | Returned replaced =>
                let person_id := lit "person_" ++ replaced in
                let g1 :=
                  if bool_decide (person_id ∉ node_ids g) then
                    {| nodes := nodes g ++
                                [PersonNode person_id (value_str (prop p "name")) role];
                       node_ids := node_ids g ∪ {[person_id]};
                       links := links g |}
                  else g in
                person_loop role movie_id rels'
                  {| nodes := nodes g1;
                     node_ids := node_ids g1;
                     links := links g1 ++
                              [{| source := person_id; target := movie_id;
                                  type := role_link role |}] |}
            end
          else person_loop role movie_id rels' g
      | None => person_loop role movie_id rels' g
      end
  end.

(** Lines 119-176: the movie node, then the directors, then the actors. *)
Definition build_graph (record : ExportRecord) : outcome GraphState :=
  match value_replace (prop (er_m record) "title") with
  | Raised e => Raised e
  | Returned replaced =>
      let movie_id := lit "movie_" ++ replaced in
      let g0 := {| nodes := [MovieNode movie_id
                               (value_str (prop (er_m record) "title"))
                               (prop (er_m record) "released")
                               (prop (er_m record) "tagline")];
                   node_ids := {[movie_id]};
                   links := [] |} in
      match person_loop Director movie_id (er_director_rels record) g0 with
      | Raised e => Raised e
      | Returned g1 => person_loop Actor movie_id (er_actor_rels record) g1
      end
  end.

(** The objects handed to [json.dump], keys in insertion order. *)
Definition value_json (v : option value) : json :=
  match v with
  | None => JNull
  | Some (VBool b) => JBool b
  | Some (VInt z) => JInt z
  | Some (VStr s) => JStr s
  end.

Definition role_str (r : Role) : str :=
  match r with
  | Director => lit "Director"
  | Actor => lit "Actor"
  end.

Definition link_type_str (t : LinkType) : str :=
  match t with
  | DIRECTED => lit "DIRECTED"
  | ACTED_IN => lit "ACTED_IN"
  end.

Definition node_json (n : GraphNode) : json :=
  match n with
  | MovieNode i l r t =>
      JDict [(lit "id", JStr i); (lit "label", JStr l);
             (lit "type", JStr (lit "Movie"));
             (lit "released", value_json r); (lit "tagline", value_json t)]
  | PersonNode i l r =>
      JDict [(lit "id", JStr i); (lit "label", JStr l);
             (lit "type", JStr (lit "Person"));
             (lit "role", JStr (role_str r))]
  end.

Definition link_json (l : GraphLink) : json :=
  JDict [(lit "source", JStr (source l)); (lit "target", JStr (target l));
         (lit "type", JStr (link_type_str (type l)))].

(** [graph_data = {'nodes': nodes, 'links': links}] *)
Definition graph_data (nodes : list GraphNode) (links : list GraphLink) : json :=
  JDict [(lit "nodes", JList (node_json <$> nodes));
         (lit "links", JList (link_json <$> links))].

(** ["❌ Graph oluşturma hatası: "] *)
Definition graph_error : str :=
  cross_mark :: lit " Graph olu" ++ [351] ++ lit "turma hatas" ++ [305] ++ lit ": ".

Definition generate_graph_json (movie_title : str) : M bool :=
  try_except
    (result ← session_run ExportQuery movie_title cypher_export;
     match single result with
     | None => mret false
     | Some record =>
         g ← lift (build_graph record);
         _ ← write_artifact (graph_data (nodes g) (links g));
         mret true
     end)
    (fun e => print (graph_error ++ exn_text e) ≫= fun _ => mret false).

(** The graph an export call builds from the store, when it gets that far. *)
Definition export_graph (st : Store) (movie_title : str) : option (outcome GraphState) :=
  build_graph <$> single (cypher_export st movie_title).

(** ** A sample store *)

Definition movie_node (title : string) (released : Z) : list string * gmap string value :=
  (["Movie"%string],
   {[ "title"%string := VStr (lit title); "released"%string := VInt released ]}).

Definition person_node (name : string) : list string * gmap string value :=
  (["Person"%string], {[ "name"%string := VStr (lit name) ]}).

Definition sample_store : Store :=
  {| store_nodes :=
       {[ 0 := movie_node "The Matrix" 1999;
          1 := person_node "Lana Wachowski";
          2 := person_node "Keanu Reeves";
          3 := person_node "Carrie-Anne Moss";
          4 := movie_node "Lonely" 2001 ]};
     store_rels :=
       [ {| rel_start := 1; rel_type := "DIRECTED"; rel_end := 0 |};
         {| rel_start := 2; rel_type := "ACTED_IN"; rel_end := 0 |};
         {| rel_start := 3; rel_type := "ACTED_IN"; rel_end := 0 |} ] |}.

(** The texts of a Linux file system for the failures of the directory
    and of the file; the examples meet no other. *)
Definition linux_message (cls : string) (path : list N) : list N :=
  let at_path (text : list N) := text ++ lit ": '" ++ path ++ lit "'" in
  if bool_decide (cls = "FileExistsError"%string) then
    at_path (lit "[Errno 17] File exists")
  else if bool_decide (cls = "PermissionError"%string) then
    at_path (lit "[Errno 13] Permission denied")
  else if bool_decide (cls = "NotADirectoryError"%string) then
    at_path (lit "[Errno 20] Not a directory")
  else if bool_decide (cls = "FileNotFoundError"%string) then
    at_path (lit "[Errno 2] No such file or directory")
  else [].

Definition empty_fs : FS :=
  {| fs_exports := Missing; fs_read_only := false; fs_message := linux_message |}.

Definition world_of (c : Conn) : World :=
  {| w_conn := c; w_fs := empty_fs; w_queries := []; w_console := [] |}.

Definition connection_refused : exn :=
  {| exn_class := "ServiceUnavailable"; exn_text := lit "Connection refused" |}.


(** ** Reading the artifact back: UTF-8 decoding and [json.load] *)

Definition in_range (lo hi b : N) : bool := (lo <=? b) && (b <=? hi).

(** The strict UTF-8 decoder: shortest forms only, no surrogates, nothing
    above U+10FFFF. *)
Fixpoint utf8_decode (bs : list N) : option str :=
  match bs with
  | [] => Some []
  | b0 :: r0 =>
      if b0 <? 0x80 then cons b0 <$> utf8_decode r0
      else if in_range 0xC2 0xDF b0 then
        match r0 with
        | b1 :: r1 =>
            if in_range 0x80 0xBF b1 then
              cons (b0 mod 32 * 64 + b1 mod 64) <$> utf8_decode r1
            else None
        | _ => None
        end
      else if in_range 0xE0 0xEF b0 then
        match r0 with
        | b1 :: b2 :: r2 =>
            if in_range (if b0 =? 0xE0 then 0xA0 else 0x80)
                        (if b0 =? 0xED then 0x9F else 0xBF) b1
               && in_range 0x80 0xBF b2 then
              cons (b0 mod 16 * 4096 + b1 mod 64 * 64 + b2 mod 64)
                <$> utf8_decode r2
            else None
        | _ => None
        end
      else if in_range 0xF0 0xF4 b0 then
        match r0 with
        | b1 :: b2 :: b3 :: r3 =>
            if in_range (if b0 =? 0xF0 then 0x90 else 0x80)
                        (if b0 =? 0xF4 then 0x8F else 0xBF) b1
               && in_range 0x80 0xBF b2 && in_range 0x80 0xBF b3 then
              cons (b0 mod 8 * 262144 + b1 mod 64 * 4096
                    + b2 mod 64 * 64 + b3 mod 64)
                <$> utf8_decode r3
            else None
        | _ => None
        end
      else None
  end.

(** [WHITESPACE] of [json.decoder]: space, tab, line feed, carriage
    return. *)
Definition is_ws (c : char) : bool :=
  (c =? 32) || (c =? 9) || (c =? 10) || (c =? 13).

Fixpoint skip_ws (s : str) : str :=
  match s with
  | [] => []
  | c :: s' => if is_ws c then skip_ws s' else s
  end.

Definition hex_value (c : char) : option N :=
  if in_range 48 57 c then Some (c - 48)
  else if in_range 97 102 c then Some (c - 87)
  else if in_range 65 70 c then Some (c - 55)
  else None.

(** [_decode_uXXXX]: four hexadecimal digits. *)
Definition decode_uXXXX (a b c d : char) : option N :=
  match hex_value a, hex_value b, hex_value c, hex_value d with
  | Some x, Some y, Some z, Some w => Some (((x * 16 + y) * 16 + z) * 16 + w)
  | _, _, _, _ => None
  end.

(** [BACKSLASH] of [json.decoder]. *)
Definition backslash (esc : char) : option char :=
  if esc =? 34 then Some 34
  else if esc =? 92 then Some 92
  else if esc =? 47 then Some 47
  else if esc =? 98 then Some 8
  else if esc =? 102 then Some 12
  else if esc =? 110 then Some 10
  else if esc =? 114 then Some 13
  else if esc =? 116 then Some 9
  else None.

(** [py_scanstring] with [strict=True], from the character after the
    opening quote: the decoded string and the text after the closing
    quote. *)
Fixpoint scanstring (s : str) : option (str * str) :=
  match s with
  | [] => None
  | c :: s1 =>
      if c =? 34 then Some ([], s1)
      else if c =? 92 then
        match s1 with
        | [] => None
        | esc :: s2 =>
            if esc =? 117 then
              match s2 with
              | h1 :: h2 :: h3 :: h4 :: s3 =>
                  match decode_uXXXX h1 h2 h3 h4 with
                  | None => None
                  | Some uni =>
                      let plain :=
                        match scanstring s3 with
                        | Some (chars, rest) => Some (uni :: chars, rest)
                        | None => None
                        end in
                      if in_range 0xD800 0xDBFF uni then
                        match s3 with
                        | 92 :: 117 :: s4 =>
                            match s4 with
                            | g1 :: g2 :: g3 :: g4 :: s5 =>
                                match decode_uXXXX g1 g2 g3 g4 with
                                | None => None
                                | Some uni2 =>
                                    if in_range 0xDC00 0xDFFF uni2 then
                                      match scanstring s5 with
                                      | Some (chars, rest) =>
                                          Some (0x10000 +
                                                N.lor (N.shiftl (uni - 0xD800) 10)
                                                      (uni2 - 0xDC00) :: chars,
                                                rest)
                                      | None => None
                                      end
                                    else plain
                                end
                            | _ => None
                            end
                        | _ => plain
                        end
                      else plain
                  end
              | _ => None
              end
            else
              match backslash esc, scanstring s2 with
              | Some ch, Some (chars, rest) => Some (ch :: chars, rest)
              | _, _ => None
              end
        end
      else if c <? 32 then None
      else
        match scanstring s1 with
        | Some (chars, rest) => Some (c :: chars, rest)
        | None => None
        end
  end.

Definition is_digit (c : char) : bool := in_range 48 57 c.

Definition digit_cons (d : N) (u : Decimal.uint) : Decimal.uint :=
  if d =? 0 then Decimal.D0 u else if d =? 1 then Decimal.D1 u
  else if d =? 2 then Decimal.D2 u else if d =? 3 then Decimal.D3 u
  else if d =? 4 then Decimal.D4 u else if d =? 5 then Decimal.D5 u
  else if d =? 6 then Decimal.D6 u else if d =? 7 then Decimal.D7 u
  else if d =? 8 then Decimal.D8 u else Decimal.D9 u.

(** The longest run of [[0-9]] at the head of [s]. *)
Fixpoint scan_digits (s : str) : Decimal.uint * str :=
  match s with
  | [] => (Decimal.Nil, [])
  | c :: s' =>
      if is_digit c then
        let (u, r) := scan_digits s' in (digit_cons (c - 48) u, r)
      else (Decimal.Nil, s)
  end.

(** Whether a fraction [\.[0-9]+] or an exponent [[eE][-+]?[0-9]+] starts
    here; such a number is a [float], which the model leaves out. *)
Definition float_tail (s : str) : bool :=
  match s with
  | 46 :: d :: _ => is_digit d
  | e :: r =>
      if (e =? 101) || (e =? 69) then
        match r with
        | d :: r' =>
            if (d =? 43) || (d =? 45) then
              match r' with
              | d' :: _ => is_digit d'
              | [] => false
              end
            else is_digit d
        | [] => false
        end
      else false
  | [] => false
  end.

(** [NUMBER_RE]: an optional minus sign, then a single zero or a run of
    digits that starts with a digit from 1 to 9; then [int(integer)]. *)
Definition match_integer (s : str) : option (Decimal.uint * str) :=
  match s with
  | c :: s' =>
      if c =? 48 then Some (Decimal.D0 Decimal.Nil, s')
      else if in_range 49 57 c then Some (scan_digits s)
      else None
  | [] => None
  end.

Definition match_number (s : str) : option (Z * str) :=
  match s with
  | 45 :: s' =>
      match match_integer s' with
      | Some (u, r) => if float_tail r then None else Some (Z.of_int (Decimal.Neg u), r)
      | None => None
      end
  | _ =>
      match match_integer s with
      | Some (u, r) => if float_tail r then None else Some (Z.of_int (Decimal.Pos u), r)
      | None => None
      end
  end.

(** [dict(pairs)]: a repeated key keeps its first position and takes the
    last value. *)
Fixpoint dict_set (d : list (list N * json)) (k : list N) (v : json)
  : list (list N * json) :=
  match d with
  | [] => [(k, v)]
  | (k', v') :: d' =>
      if bool_decide (k' = k) then (k, v) :: d' else (k', v') :: dict_set d' k v
  end.

Definition dict_of_pairs (pairs : list (list N * json)) : list (list N * json) :=
  foldl (fun d p => dict_set d p.1 p.2) [] pairs.

(** [scan_once] of [json.scanner], with [JSONArray] and [JSONObject] of
    [json.decoder]; [array_items] runs from the first item of a non-empty
    array, [object_items] from the character after a key's opening
    quote.  The fuel bounds the nesting of calls. *)
Fixpoint scan_once (fuel : nat) (s : str) : option (json * str) :=
  match fuel with
  | O => None
  | S fuel' =>
      match s with
      | [] => None
      | c :: s' =>
          if c =? 34 then
            match scanstring s' with
            | Some (x, r) => Some (JStr x, r)
            | None => None
            end
          else if c =? 123 then
            match skip_ws s' with
            | 34 :: s2 =>
                match object_items fuel' s2 with
                | Some (pairs, r) => Some (JDict (dict_of_pairs pairs), r)
                | None => None
                end
            | 125 :: r => Some (JDict [], r)
            | _ => None
            end
          else if c =? 91 then
            match skip_ws s' with
            | 93 :: r => Some (JList [], r)
            | s2 =>
                match array_items fuel' s2 with
                | Some (values, r) => Some (JList values, r)
                | None => None
                end
            end
          else if starts_with (lit "null") s then Some (JNull, drop 4 s)
          else if starts_with (lit "true") s then Some (JBool true, drop 4 s)
          else if starts_with (lit "false") s then Some (JBool false, drop 5 s)
          else
            match match_number s with
            | Some (z, r) => Some (JInt z, r)
            | None => None
            end
      end
  end
with array_items (fuel : nat) (s : str) : option (list json * str) :=
  match fuel with
  | O => None
  | S fuel' =>
      match scan_once fuel' s with
      | None => None
      | Some (v, r) =>
          match skip_ws r with
          | 93 :: r' => Some ([v], r')
          | 44 :: r' =>
              match array_items fuel' (skip_ws r') with
              | Some (vs, r'') => Some (v :: vs, r'')
              | None => None
              end
          | _ => None
          end
      end
  end
with object_items (fuel : nat) (s : str) : option (list (list N * json) * str) :=
  match fuel with
  | O => None
  | S fuel' =>
      match scanstring s with
      | None => None
      | Some (key, r) =>
          match skip_ws r with
          | 58 :: r1 =>
              match scan_once fuel' (skip_ws r1) with
              | None => None
              | Some (v, r2) =>
                  match skip_ws r2 with
                  | 125 :: r3 => Some ([(key, v)], r3)
                  | 44 :: r3 =>
                      match skip_ws r3 with
                      | 34 :: r4 =>
                          match object_items fuel' r4 with
                          | Some (ps, r5) => Some ((key, v) :: ps, r5)
                          | None => None
                          end
                      | _ => None
                      end
                  | _ => None
                  end
              end
          | _ => None
          end
      end
  end.

(** [json.loads]: one value between optional white space, nothing after
    it; a leading byte order mark is refused. *)
Definition loads (s : str) : option json :=
  if starts_with [0xFEFF] s then None
  else
    match scan_once (S (length s)) (skip_ws s) with
    | Some (obj, r) =>
        match skip_ws r with
        | [] => Some obj
        | _ :: _ => None
        end
    | None => None
    end.

(** [json.load(open('exports/graph.json', encoding='utf-8'))] *)
Definition load_graph_json (f : FS) : option json :=
  match fs_exports f with
  | Directory (Some bytes) =>
      match utf8_decode bytes with
      | Some s => loads s
      | None => None
      end
  | _ => None
  end.

(** ** Vocabulary of the statements *)




(** A person whose [name] property is a string. *)
Definition has_name (p : Node) : Prop :=
  exists s, prop p "name" = Some (VStr s).

Definition person_name (p : Node) : list N := value_str (prop p "name").

(** The id the export derives for a person and for a movie. *)
Definition person_id (p : Node) : list N :=
  lit "person_" ++ replace space underscore (person_name p).

Definition movie_id (m : Node) : list N :=
  lit "movie_" ++ replace space underscore (value_str (prop m "title")).

Definition person_node_of (role : Role) (p : Node) : GraphNode :=
  PersonNode (person_id p) (person_name p) role.

Definition person_link (role : Role) (m p : Node) : GraphLink :=
  {| source := person_id p; target := movie_id m; type := role_link role |}.

(** A graph is well formed when its node ids are pairwise different and
    every link joins two of them. *)
Definition well_formed (g : GraphState) : Prop :=
  NoDup (gn_id <$> nodes g) /\
  forall l, l ∈ links g ->
    source l ∈ gn_id <$> nodes g /\ target l ∈ gn_id <$> nodes g.

(** The world after a query was sent and after a line was printed. *)
Definition sent (q : Query) (param : list N) (w : World) : World :=
  {| w_conn := w_conn w; w_fs := w_fs w;
     w_queries := w_queries w ++ [(q, param)]; w_console := w_console w |}.

Definition printed (line : list N) (w : World) : World :=
  {| w_conn := w_conn w; w_fs := w_fs w;
     w_queries := w_queries w; w_console := w_console w ++ [line] |}.

(** No white space at the head of a string. *)
Definition no_lead (s : list N) : Prop :=
  match s with
  | [] => True
  | c :: _ => isspace c = false
  end.

(** A store without nodes, and a world whose [exports] path is taken by
    a regular file. *)
Definition empty_store : Store := {| store_nodes := ∅; store_rels := [] |}.

Definition blocked_world (c : Conn) : World :=
  {| w_conn := c;
     w_fs := {| fs_exports := NotADirectory; fs_read_only := false;
                fs_message := linux_message |};
     w_queries := []; w_console := [] |}.

(** The person nodes a loop appends for the persons [ps], in order, when
    the ids in [seen] are taken: one for each id met for the first time. *)
Fixpoint new_nodes (role : Role) (seen : gset (list N)) (ps : list Node)
  : list GraphNode :=
  match ps with
  | [] => []
  | p :: ps' =>
      if bool_decide (person_id p ∉ seen)
      then person_node_of role p :: new_nodes role (seen ∪ {[person_id p]}) ps'
      else new_nodes role seen ps'
  end.

(** The state a loop over the persons [ps] leaves. *)
Definition loop_result (role : Role) (mid : list N) (ps : list Node)
    (g : GraphState) : GraphState :=
  {| nodes := nodes g ++ new_nodes role (node_ids g) ps;
     node_ids := node_ids g ∪ list_to_set (person_id <$> ps);
     links := links g ++
              ((fun p => {| source := person_id p; target := mid;
                            type := role_link role |}) <$> ps) |}.

Definition entry (t : LinkType) (p : option Node) : RelEntry :=
  {| person := p; rel := t |}.

(** The state before the loops: the movie node alone. *)
Definition initial_graph (m : Node) : GraphState :=
  {| nodes := [MovieNode (movie_id m) (value_str (prop m "title"))
                 (prop m "released") (prop m "tagline")];
     node_ids := {[movie_id m]};
     links := [] |}.

(** The loop invariant behind the well-formedness of the graph. *)
Definition loop_inv (mid : list N) (g : GraphState) : Prop :=
  NoDup (gn_id <$> nodes g) /\
  (forall i, i ∈ node_ids g <-> i ∈ gn_id <$> nodes g) /\
  mid ∈ node_ids g /\
  (forall l, l ∈ links g -> source l ∈ node_ids g /\ target l ∈ node_ids g).





(** ** Vocabulary of the round trip *)

(** The text [iterencode] yields at a nesting level, in one piece. *)
Definition encode (level : nat) (o : json) : list N :=
  concat (iterencode level o).

(** A Unicode scalar value: a code point that is not a surrogate. *)
Definition is_scalar (c : N) : bool :=
  (c <? 0xD800) || ((0xDFFF <? c) && (c <? 0x110000)).

(** What may follow a value in the encoder's output: the end of the
    text, a comma, or a line feed. *)
Definition follows (rest : list N) : Prop :=
  match rest with
  | [] => True
  | c :: _ => c = 44 \/ c = 10
  end.

(** The text of the items of a list, and of a dictionary, between the
    opening and the closing line. *)
Fixpoint items_text (level : nat) (l : list json) : list N :=
  match l with
  | [] => []
  | v :: l' =>
      encode level v ++
      match l' with
      | [] => []
      | _ :: _ => 44 :: newline_indent level ++ items_text level l'
      end
  end.

Fixpoint members_text (level : nat) (d : list (list N * json)) : list N :=
  match d with
  | [] => []
  | (k, v) :: d' =>
      encode_basestring k ++ lit ": " ++ encode level v ++
      match d' with
      | [] => []
      | _ :: _ => 44 :: newline_indent level ++ members_text level d'
      end
  end.

(** A bound on the calls the decoder nests on the text of a value. *)
Fixpoint size (v : json) : nat :=
  match v with
  | JList l => S (foldr (fun x n => S (size x + n)) O l)
  | JDict d => S (foldr (fun kv n => S (size kv.2 + n)) O d)
  | _ => 1%nat
  end.

(** A Python [dict] has no key twice. *)
Fixpoint keys_ok (v : json) : Prop :=
  match v with
  | JList l => foldr (fun x P => keys_ok x /\ P) True l
  | JDict d => NoDup d.*1 /\ foldr (fun kv P => keys_ok kv.2 /\ P) True d
  | _ => True
  end.

(** Text without surrogates, in a value and in a graph. *)
Definition text_ok (s : list N) : Prop := forallb is_scalar s = true.

Fixpoint json_text_ok (v : json) : Prop :=
  match v with
  | JStr s => text_ok s
  | JList l => foldr (fun x P => json_text_ok x /\ P) True l
  | JDict d => foldr (fun kv P => (text_ok kv.1 /\ json_text_ok kv.2) /\ P) True d
  | _ => True
  end.

Definition value_text_ok (v : option value) : Prop :=
  match v with
  | Some (VStr s) => text_ok s
  | _ => True
  end.

Definition node_text_ok (n : GraphNode) : Prop :=
  match n with
  | MovieNode i l r t => text_ok i /\ text_ok l /\ value_text_ok r /\ value_text_ok t
  | PersonNode i l _ => text_ok i /\ text_ok l
  end.

Definition link_text_ok (l : GraphLink) : Prop :=
  text_ok (source l) /\ text_ok (target l).

Definition graph_text_ok (ns : list GraphNode) (ls : list GraphLink) : Prop :=
  Forall node_text_ok ns /\ Forall link_text_ok ls.

(** ** Vocabulary of the decoder's proof *)

Definition items_size (l : list json) : nat :=
  foldr (fun x n => S (size x + n)) O l.

Definition members_size (d : list (list N * json)) : nat :=
  foldr (fun kv n => S (size kv.2 + n)) O d.

Definition all_keys_ok (l : list json) : Prop :=
  foldr (fun x P => keys_ok x /\ P) True l.

Definition members_keys_ok (d : list (list N * json)) : Prop :=
  foldr (fun kv P => keys_ok kv.2 /\ P) True d.

(** At a given fuel: a value, the items of a list, the members of a
    dictionary are read back from their text. *)
Definition decodes (fuel : nat) : Prop :=
  (forall v level rest,
     (size v <= fuel)%nat -> keys_ok v -> follows rest ->
     scan_once fuel (encode level v ++ rest) = Some (v, rest)) /\
  (forall l level k rest,
     l <> [] -> (items_size l <= fuel)%nat -> all_keys_ok l ->
     array_items fuel (items_text level l ++ newline_indent k ++ 93 :: rest)
     = Some (l, rest)) /\
  (forall d level k rest,
     d <> [] -> (members_size d <= fuel)%nat -> members_keys_ok d ->
     exists body,
       members_text level d ++ newline_indent k ++ 125 :: rest = 34 :: body /\
       object_items fuel body = Some (d, rest)).

(** Induction on a value with the items of its lists and dictionaries. *)
Section JsonInduction.

Variable P : json -> Prop.
Hypothesis Hnull : P JNull.
Hypothesis Hbool : forall b, P (JBool b).
Hypothesis Hint : forall z, P (JInt z).
Hypothesis Hstr : forall s, P (JStr s).
Hypothesis Hlist : forall l, Forall P l -> P (JList l).
Hypothesis Hdict : forall d, Forall (fun kv => P kv.2) d -> P (JDict d).

Fixpoint json_nested_ind (v : json) : P v :=
  match v with
  | JNull => Hnull
  | JBool b => Hbool b
  | JInt z => Hint z
  | JStr s => Hstr s
  | JList l =>
      Hlist l ((fix go (l : list json) : Forall P l :=
                  match l with
                  | [] => @List.Forall_nil _ P
                  | x :: l' =>
                      @List.Forall_cons _ P x l' (json_nested_ind x) (go l')
                  end) l)
  | JDict d =>
      Hdict d ((fix go (d : list (list N * json)) : Forall (fun kv => P kv.2) d :=
                  match d with
                  | [] => @List.Forall_nil _ (fun kv => P kv.2)
                  | kv :: d' =>
                      @List.Forall_cons _ (fun kv => P kv.2) kv d'
                        (json_nested_ind kv.2) (go d')
                  end) d)
  end.

End JsonInduction.

(** The world with these bytes in [exports/graph.json]. *)
Definition with_artifact (w : World) (bytes : list N) : World :=
  {| w_conn := w_conn w;
     w_fs := {| fs_exports := Directory (Some bytes);
                fs_read_only := fs_read_only (w_fs w);
                fs_message := fs_message (w_fs w) |};
     w_queries := w_queries w;
     w_console := w_console w |}.

(** Texts with characters of two, three and four UTF-8 bytes. *)
Definition amelie : list N := [65; 109; 233; 108; 105; 101].
Definition spirited_away : list N := [21315; 12392; 21315; 23563; 128512].

(** ** Vocabulary of the further properties *)

(** The dictionary [search_movies] builds for a movie node. *)
Definition summary_of_node (m : Node) : MovieSummary :=
  {| ms_title := prop m "title";
     ms_released := prop m "released";
     ms_tagline := prop m "tagline" |}.

(** A node the search query keeps for a term. *)
Definition matches_term (term : list N) (m : Node) : Prop :=
  has_label "Movie" m && title_contains m term = true.

#[global] Instance matches_term_dec term m : Decision (matches_term term m).
Proof. unfold matches_term. apply _. Defined.

(** [a] may stand before [b] in a list ordered by [released], descending. *)
Definition released_desc (a b : MovieSummary) : Prop :=
  cypher_leb (ms_released b) (ms_released a) = true.

(** The same for the rows of the search query. *)
Definition record_desc (a b : SearchRecord) : Prop :=
  cypher_leb (sr_released b) (sr_released a) = true.

(** The second string occurs in the first. *)
Definition has_substring (t term : list N) : Prop := contains t term = true.

(** [p.name] *)
Definition name_of (p : Node) : option value := prop p "name".

(** The names [collect(DISTINCT p.name)] gathers from the persons bound by
    a pattern: one entry for each name, in the order of first
    occurrence. *)
Definition distinct_names (ps : list Node) : list (option value) :=
  Some <$> distinct (omap name_of ps).

(** The person of an entry the loops act on: present and, as a driver
    [Node], truthy. *)
Definition present (r : RelEntry) : option Node :=
  p ← person r; if node_truthy p then Some p else None.

(** No space in a string. *)
Definition space_free (s : list N) : Prop := space ∉ s.

(** A store with three movies whose title holds [Matrix], stored out of
    order, one of them without a year, and a fourth movie. *)
Definition trilogy_store : Store :=
  {| store_nodes :=
       {[ 0 := movie_node "The Matrix" 1999;
          1 := (["Movie"%string],
                {[ "title"%string := VStr (lit "The Matrix Revisited") ]});
          2 := movie_node "Lonely" 2001;
          3 := movie_node "The Matrix Reloaded" 2003 ]};
     store_rels := [] |}.


Definition gn_label (n : GraphNode) : list N :=
  match n with
  | MovieNode _ l _ _ => l
  | PersonNode _ l _ => l
  end.

(** The id the label of a node gives: the prefix of the node's kind and
    the label with its spaces turned into underscores. *)
Definition derived_id (n : GraphNode) : list N :=
  match n with
  | MovieNode _ l _ _ => lit "movie_" ++ replace space underscore l
  | PersonNode _ l _ => lit "person_" ++ replace space underscore l
  end.

(** A person node of the given role whose id is derived from its label. *)
Definition person_of_role (role : Role) (n : GraphNode) : Prop :=
  exists l, n = PersonNode (lit "person_" ++ replace space underscore l) l role.

(** A record that lists the same director twice, between two entries
    without a person. *)
Definition repeated_record : ExportRecord :=
  let p := mk_node 1 (person_node "Lana Wachowski") in
  {| er_m := mk_node 0 (movie_node "The Matrix" 1999);
     er_director_rels := [entry DIRECTED None; entry DIRECTED (Some p);
                          entry DIRECTED (Some (mk_node 7 ([], ∅)));
                          entry DIRECTED (Some p)];
     er_actor_rels := [entry ACTED_IN None] |}.

(** ** The console functions

    [print_menu], [print_movie_list] and [print_movie_details] only
    print.  The texts are given by their code points; the comments name
    the lines of the source that hold them. *)

(** Truth value of a property value, as in [if movie['released']]. *)
Definition value_truthy (v : option value) : bool :=
  match v with
  | None => false
  | Some (VBool b) => b
  | Some (VInt z) => negb (z =? 0)%Z
  | Some (VStr s) => str_truthy s
  end.

(** A value inside an f-string: its [str()]. *)
Definition fmt_value (v : option value) : list N :=
  match v with
  | None => lit "None"
  | Some (VBool true) => lit "True"
  | Some (VBool false) => lit "False"
  | Some (VInt z) => intstr z
  | Some (VStr s) => s
  end.

(** A length or a counter inside an f-string. *)
Definition fmt_nat (n : nat) : list N := intstr (Z.of_nat n).

(** ["="*50] *)
Definition rule : list N := replicate 50 61.

(** Line 201. *)
Definition menu_title : list N :=
  [127916] ++ lit " MovieGraphPy - Film Veritaban" ++ [305] ++ lit " Uygulamas" ++ [305].

(** Line 203. *)
Definition menu_1 : list N :=
  lit "1. Film Ara".

(** Line 204. *)
Definition menu_2 : list N :=
  lit "2. Film Detay" ++ [305] ++ lit " G" ++ [246] ++ lit "ster".

(** Line 205. *)
Definition menu_3 : list N :=
  lit "3. Se" ++ [231] ++ lit "ili Film i" ++ [231] ++ lit "in graph.json Olu" ++ [351] ++ lit "tur".

(** Line 206. *)
Definition menu_4 : list N :=
  lit "4. " ++ [199; 305] ++ lit "k" ++ [305; 351].

Definition print_menu : M unit :=
  _ ← print ([10] ++ rule);
  _ ← print menu_title;
  _ ← print rule;
  _ ← print menu_1;
  _ ← print menu_2;
  _ ← print menu_3;
  _ ← print menu_4;
  print rule.

(** Line 213. *)
Definition no_result : list N :=
  [10; 10060] ++ lit " Sonu" ++ [231] ++ lit " bulunamad" ++ [305] ++ lit ".".

(** Line 216, before the number of movies. *)
Definition found_pre : list N :=
  [10; 128253; 65039] ++ lit "  ".

(** Line 216, after the number of movies. *)
Definition found_post : list N :=
  lit " film bulundu:" ++ [10].

(** Lines 218 and 228: the year that is not known. *)
Definition unknown_year : list N :=
  lit "Bilinmiyor".

(** [movie['released'] if movie['released'] else 'Bilinmiyor'] inside
    an f-string. *)
Definition year_text (released : option value) : list N :=
  if value_truthy released then fmt_value released else unknown_year.

(** Line 219: [f"{idx}) {movie['title']} ({year})"]. *)
Definition movie_line (idx : nat) (movie : MovieSummary) : list N :=
  fmt_nat idx ++ lit ") " ++ fmt_value (ms_title movie) ++ lit " ("
  ++ year_text (ms_released movie) ++ lit ")".

(** [for idx, movie in enumerate(movies, idx): print(...)] *)
Fixpoint print_movies_from (idx : nat) (movies : list MovieSummary) : M unit :=
  match movies with
  | [] => mret tt
  | movie :: rest =>
      _ ← print (movie_line idx movie);
      print_movies_from (S idx) rest
  end.

Definition print_movie_list (movies : list MovieSummary) : M unit :=
  match movies with
  | [] => print no_result
  | _ :: _ =>
      _ ← print (found_pre ++ fmt_nat (length movies) ++ found_post);
      print_movies_from 1 movies
  end.

(** Line 225. *)
Definition details_title : list N :=
  [127916] ++ lit " Film Detaylar" ++ [305].

(** Line 227. *)
Definition film_pre : list N :=
  [128253; 65039] ++ lit "  Film: ".

(** Line 228. *)
Definition year_pre : list N :=
  [128197] ++ lit " Y" ++ [305] ++ lit "l: ".

(** Line 231. *)
Definition tagline_pre : list N :=
  [128172] ++ lit " Tagline: ".

(** Line 233. *)
Definition directors_head : list N :=
  [10; 127917] ++ lit " Y" ++ [246] ++ lit "netmen(ler):".

(** Lines 236 and 244. *)
Definition bullet : list N :=
  lit "   " ++ [8226] ++ lit " ".

(** Line 238. *)
Definition no_directors : list N :=
  lit "   (Y" ++ [246] ++ lit "netmen bilgisi bulunamad" ++ [305] ++ lit ")".

(** Line 240. *)
Definition actors_head : list N :=
  [10; 127916] ++ lit " Oyuncular:".

(** Line 246. *)
Definition no_actors : list N :=
  lit "   (Oyuncu bilgisi bulunamad" ++ [305] ++ lit ")".

(** Line 249, before the number. *)
Definition more_pre : list N :=
  lit "   ... ve ".

(** Line 249, after the number. *)
Definition more_post : list N :=
  lit " ki" ++ [351] ++ lit "i daha".

(** [for x in xs: print(f"   • {x}")] *)
Fixpoint print_bullets (xs : list (option value)) : M unit :=
  match xs with
  | [] => mret tt
  | x :: rest =>
      _ ← print (bullet ++ fmt_value x);
      print_bullets rest
  end.

Definition print_movie_details (details : MovieDetail) : M unit :=
  _ ← print ([10] ++ rule);
  _ ← print details_title;
  _ ← print rule;
  _ ← print (film_pre ++ fmt_value (md_title details));
  _ ← print (year_pre ++ year_text (md_released details));
  _ ← (if value_truthy (md_tagline details)
       then print (tagline_pre ++ fmt_value (md_tagline details))
       else mret tt);
  _ ← print directors_head;
  _ ← (match md_directors details with
       | [] => print no_directors
       | _ :: _ => print_bullets (md_directors details)
       end);
  _ ← print actors_head;
  let actors := if (5 <=? length (md_actors details))%nat
                then take 5 (md_actors details)
                else md_actors details in
  _ ← (match actors with
       | [] => print no_actors
       | _ :: _ => print_bullets actors
       end);
  _ ← (if (5 <? length (md_actors details))%nat
       then print (more_pre ++ fmt_nat (length (md_actors details) - 5) ++ more_post)
       else mret tt);
  print rule.

(** ** The process [main] runs in

    Around the world of the methods: the lines waiting on the standard
    input, the prompts [input] has shown (each with the number of lines
    printed before it), the driver, [app.selected_movie] and the number
    of connection tests. *)

(** What the terminal hands to [input]: a line, or an interrupt. *)
Inductive key :=
  | Line (s : list N)
  | CtrlC.

Inductive driver_state := NoDriver | DriverOpen | DriverClosed.

Record Process := {
  p_world : World;
  p_stdin : list key;
  p_prompts : list (nat * list N);
  p_driver : driver_state;
  p_selected : option MovieSummary;
  p_probes : nat
}.

Definition set_world (w : World) (p : Process) : Process :=
  {| p_world := w; p_stdin := p_stdin p; p_prompts := p_prompts p;
     p_driver := p_driver p; p_selected := p_selected p; p_probes := p_probes p |}.

Definition set_stdin (keys : list key) (p : Process) : Process :=
  {| p_world := p_world p; p_stdin := keys; p_prompts := p_prompts p;
     p_driver := p_driver p; p_selected := p_selected p; p_probes := p_probes p |}.

Definition prompted (prompt : list N) (p : Process) : Process :=
  {| p_world := p_world p; p_stdin := p_stdin p;
     p_prompts := p_prompts p ++ [(length (w_console (p_world p)), prompt)];
     p_driver := p_driver p; p_selected := p_selected p; p_probes := p_probes p |}.

Definition set_driver (d : driver_state) (p : Process) : Process :=
  {| p_world := p_world p; p_stdin := p_stdin p; p_prompts := p_prompts p;
     p_driver := d; p_selected := p_selected p; p_probes := p_probes p |}.

Definition set_selected (m : option MovieSummary) (p : Process) : Process :=
  {| p_world := p_world p; p_stdin := p_stdin p; p_prompts := p_prompts p;
     p_driver := p_driver p; p_selected := m; p_probes := p_probes p |}.

Definition probed (p : Process) : Process :=
  {| p_world := p_world p; p_stdin := p_stdin p; p_prompts := p_prompts p;
     p_driver := p_driver p; p_selected := p_selected p; p_probes := S (p_probes p) |}.

Definition set_conn (c : Conn) (w : World) : World :=
  {| w_conn := c; w_fs := w_fs w; w_queries := w_queries w;
     w_console := w_console w |}.

(** Computations over the process that return or raise. *)
Definition P (A : Type) : Type := Process -> outcome A * Process.

#[global] Instance P_ret : MRet P := fun A a p => (Returned a, p).
#[global] Instance P_bind : MBind P := fun A B f m p =>
  match m p with
  | (Returned a, p') => f a p'
  | (Raised e, p') => (Raised e, p')
  end.

Definition throw {A} (e : exn) : P A := fun p => (Raised e, p).

(** A method or a console function called from [main]. *)
Definition run {A} (m : M A) : P A := fun p =>
  match m (p_world p) with
  | (o, w) => (o, set_world w p)
  end.

Definition say (line : list N) : P unit := run (print line).

(** [try: body except <classes>: handler] *)
Definition catching {A} (caught : exn -> bool) (body : P A) (handler : exn -> P A)
    : P A := fun p =>
  match body p with
  | (Returned a, p') => (Returned a, p')
  | (Raised e, p') => if caught e then handler e p' else (Raised e, p')
  end.

(** [try: ... finally: cleanup], applied to what the [try] part gave. *)
Definition finally {A} (r : outcome A * Process) (cleanup : P unit)
    : outcome A * Process :=
  match cleanup r.2 with
  | (Returned _, p') => (r.1, p')
  | (Raised e, p') => (Raised e, p')
  end.

Definition eof_error : exn :=
  {| exn_class := "EOFError"; exn_text := lit "EOF when reading a line" |}.

Definition keyboard_interrupt : exn :=
  {| exn_class := "KeyboardInterrupt"; exn_text := [] |}.

(** The text of this one is never printed; it is cut before the quoted
    literal. *)
Definition value_error : exn :=
  {| exn_class := "ValueError";
     exn_text := lit "invalid literal for int() with base 10" |}.

Definition index_error : exn :=
  {| exn_class := "IndexError"; exn_text := lit "list index out of range" |}.

Definition type_error : exn :=
  {| exn_class := "TypeError";
     exn_text := lit "'NoneType' object is not subscriptable" |}.

Definition is_value_error (e : exn) : bool :=
  bool_decide (exn_class e = "ValueError"%string).

Definition is_keyboard_interrupt (e : exn) : bool :=
  bool_decide (exn_class e = "KeyboardInterrupt"%string).

(** [input(prompt)]: the prompt is shown; the next line is returned, an
    interrupt raises [KeyboardInterrupt], the end of the input raises
    [EOFError]. *)
Definition input (prompt : list N) : P (list N) := fun p =>
  let p' := prompted prompt p in
  match p_stdin p with
  | [] => (Raised eof_error, p')
  | CtrlC :: rest => (Raised keyboard_interrupt, set_stdin rest p')
  | Line s :: rest => (Returned s, set_stdin rest p')
  end.

(** [l[i]] *)
Definition index {A} (l : list A) (i : Z) : outcome A :=
  let j := if (i <? 0)%Z then (i + Z.of_nat (length l))%Z else i in
  if (j <? 0)%Z then Raised index_error
  else
    match l !! Z.to_nat j with
    | Some x => Returned x
    | None => Raised index_error
    end.

(** What [main] takes from the libraries: [int(s)] on a [str], the
    number or [None] where [int] raises [ValueError]; and
    [GraphDatabase.driver(uri, auth=(user, password))], an exception where
    the driver refuses its arguments, otherwise how the sessions of this
    driver answer. *)
Class Library := {
  py_int : list N -> option Z;
  driver : list N -> list N -> list N -> outcome Conn
}.

(** Line 27. *)
Definition conn_error : list N :=
  [10060] ++ lit " Ba" ++ [287] ++ lit "lant" ++ [305] ++ lit " hatas" ++ [305] ++ lit ": ".

(** Line 257. *)
Definition ask_credentials : list N :=
  [128268] ++ lit " Neo4j ba" ++ [287] ++ lit "lant" ++ [305] ++ lit " bilgilerini girin:".

(** Line 258. *)
Definition uri_prompt : list N :=
  lit "URI (" ++ [246] ++ lit "rn: bolt://localhost:7687): ".

(** Line 258. *)
Definition default_uri : list N :=
  lit "bolt://localhost:7687".

(** Line 259. *)
Definition user_prompt : list N :=
  lit "Kullan" ++ [305] ++ lit "c" ++ [305] ++ lit " ad" ++ [305] ++ lit " (varsay" ++ [305] ++ lit "lan: neo4j): ".

(** Line 259. *)
Definition default_user : list N :=
  lit "neo4j".

(** Line 260. *)
Definition password_prompt : list N :=
  [350] ++ lit "ifre: ".

(** Line 263. *)
Definition empty_password : list N :=
  [10060] ++ lit " " ++ [350] ++ lit "ifre bo" ++ [351] ++ lit " olamaz!".

(** Line 270. *)
Definition testing : list N :=
  [10; 128269] ++ lit " Ba" ++ [287] ++ lit "lant" ++ [305] ++ lit " test ediliyor...".

(** Line 272. *)
Definition cannot_connect : list N :=
  [10060] ++ lit " Neo4j sunucusuna ba" ++ [287] ++ lit "lan" ++ [305] ++ lit "lamad" ++ [305] ++ lit ". L" ++ [252] ++ lit "tfen ba" ++ [287] ++ lit "lant" ++ [305] ++ lit " bilgilerini kontrol edin.".

(** Line 276. *)
Definition connected : list N :=
  [9989] ++ lit " Ba" ++ [287] ++ lit "lant" ++ [305] ++ lit " ba" ++ [351] ++ lit "ar" ++ [305] ++ lit "l" ++ [305] ++ lit "!".

(** Line 284. *)
Definition choice_prompt : list N :=
  [10] ++ lit "Se" ++ [231] ++ lit "iminiz (1-4): ".

(** Line 288. *)
Definition term_prompt : list N :=
  [10; 128269] ++ lit " Aranacak film ad" ++ [305] ++ lit ": ".

(** Line 291. *)
Definition empty_term : list N :=
  [10060] ++ lit " Arama terimi bo" ++ [351] ++ lit " olamaz!".

(** Line 301. *)
Definition search_first : list N :=
  [10; 10060] ++ lit " " ++ [214] ++ lit "nce film aramas" ++ [305] ++ lit " yapmal" ++ [305] ++ lit "s" ++ [305] ++ lit "n" ++ [305] ++ lit "z!".

(** Line 305, before the number of movies. *)
Definition number_prompt_pre : list N :=
  [10; 128253; 65039] ++ lit "  Film numaras" ++ [305] ++ lit " se" ++ [231] ++ lit "in (1-".

(** Lines 305 and 334, after the number of movies. *)
Definition number_prompt_post : list N :=
  lit "): ".

(** Line 308. *)
Definition bad_number_list : list N :=
  [10060] ++ lit " Ge" ++ [231] ++ lit "ersiz numara! L" ++ [252] ++ lit "tfen listeden bir numara se" ++ [231] ++ lit "in.".

(** Line 319, before the title. *)
Definition no_details_pre : list N :=
  [10; 10060] ++ lit " '".

(** Line 319, after the title. *)
Definition no_details_post : list N :=
  lit "' filmi i" ++ [231] ++ lit "in detay bulunamad" ++ [305] ++ lit ".".

(** Line 322. *)
Definition not_a_number : list N :=
  [10060] ++ lit " L" ++ [252] ++ lit "tfen ge" ++ [231] ++ lit "erli bir numara girin!".

(** Line 329. *)
Definition select_first : list N :=
  [10; 10060] ++ lit " " ++ [214] ++ lit "nce bir film se" ++ [231] ++ lit "melisiniz! (Film Detay" ++ [305] ++ lit " G" ++ [246] ++ lit "ster men" ++ [252] ++ lit "s" ++ [252] ++ lit "n" ++ [252] ++ lit " kullan" ++ [305] ++ lit "n)".

(** Line 332. *)
Definition use_last : list N :=
  [10; 9888; 65039] ++ lit "  Son aranan filmlerden birini kullanacaks" ++ [305] ++ lit "n" ++ [305] ++ lit "z.".

(** Line 334, before the number of movies. *)
Definition number_prompt_export : list N :=
  lit "Film numaras" ++ [305] ++ lit " se" ++ [231] ++ lit "in (1-".

(** Lines 336 and 340. *)
Definition bad_number : list N :=
  [10060] ++ lit " Ge" ++ [231] ++ lit "ersiz numara!".

(** Line 343, before the title. *)
Definition creating_pre : list N :=
  [10; 128260] ++ lit " '".

(** Line 343, after the title. *)
Definition creating_post : list N :=
  lit "' i" ++ [231] ++ lit "in graph.json olu" ++ [351] ++ lit "turuluyor...".

(** Line 346. *)
Definition created : list N :=
  [9989] ++ lit " graph.json olu" ++ [351] ++ lit "turuldu: exports/graph.json".

(** Line 348. *)
Definition not_created : list N :=
  [10060] ++ lit " Graph.json olu" ++ [351] ++ lit "turulamad" ++ [305] ++ lit ". Film bulunamad" ++ [305] ++ lit " veya bir hata olu" ++ [351] ++ lit "tu.".

(** Line 352. *)
Definition leaving : list N :=
  [10; 128075] ++ lit " " ++ [199; 305] ++ lit "k" ++ [305] ++ lit "l" ++ [305] ++ lit "yor...".

(** Line 355. *)
Definition bad_choice : list N :=
  [10; 10060] ++ lit " Ge" ++ [231] ++ lit "ersiz se" ++ [231] ++ lit "im! L" ++ [252] ++ lit "tfen 1-4 aras" ++ [305] ++ lit " bir numara girin.".

(** Line 358. *)
Definition interrupted : list N :=
  [10; 10; 128075] ++ lit " Program sonland" ++ [305] ++ lit "r" ++ [305] ++ lit "ld" ++ [305] ++ lit ".".

(** Line 360. *)
Definition unexpected : list N :=
  [10; 10060] ++ lit " Beklenmeyen bir hata olu" ++ [351] ++ lit "tu: ".

(** The title of a search result as the parameter of the next query.
    The titles [search_movies] returns are strings, so this reads the
    title itself. *)
Definition title_param (movie : MovieSummary) : list N := value_str (ms_title movie).

(** [x or default] on strings. *)
Definition or_default (s default : list N) : list N :=
  if str_truthy s then s else default.

(** [last_searched_movies[i]] *)
Definition pick (movies : list MovieSummary) (i : Z) : P MovieSummary :=
  fun p => (index movies i, p).

(** [app.selected_movie = movie] *)
Definition select (movie : MovieSummary) : P unit :=
  fun p => (Returned tt, set_selected (Some movie) p).

(** [app.selected_movie] *)
Definition selected_movie : P (option MovieSummary) :=
  fun p => (Returned (p_selected p), p).

Section Driver.

Context `{Library}.

(** [MovieGraphApp.__init__] *)
Definition app_init (uri user password : list N) : P unit := fun p =>
  match driver uri user password with
  | Raised e => (Raised e, p)
  | Returned c =>
      (Returned tt,
       set_selected None (set_driver DriverOpen (set_world (set_conn c (p_world p)) p)))
  end.

(** [MovieGraphApp.close] *)
Definition close : P unit := fun p =>
  match p_driver p with
  | NoDriver => (Returned tt, p)
  | _ => (Returned tt, set_driver DriverClosed p)
  end.

(** [with self.driver.session() as session: session.run("RETURN 1")] *)
Definition probe : P unit := fun p =>
  match w_conn (p_world p) with
  | Up _ => (Returned tt, probed p)
  | Down e => (Raised e, probed p)
  end.

(** [MovieGraphApp.test_connection] *)
Definition test_connection : P bool :=
  catching is_exception
    (_ ← probe; mret true)
    (fun e => _ ← say (conn_error ++ exn_text e); mret false).

(** [int(input(prompt).strip())] *)
Definition ask_number (prompt : list N) : P Z :=
  s ← input prompt;
  match py_int (strip s) with
  | Some n => mret n
  | None => throw value_error
  end.

(** [movie_num < 1 or movie_num > len(last_searched_movies)] *)
Definition out_of_list (movie_num : Z) (movies : list MovieSummary) : bool :=
  (movie_num <? 1)%Z || (Z.of_nat (length movies) <? movie_num)%Z.

(** The branches of the menu give [None] for [break] and otherwise the
    list that is [last_searched_movies] when the next turn starts. *)

(** Lines 287-296. *)
Definition choice_search (last_searched_movies : list MovieSummary)
    : P (option (list MovieSummary)) :=
  line ← input term_prompt;
  let search_term := strip line in
  if negb (str_truthy search_term) then
    _ ← say empty_term;
    mret (Some last_searched_movies)
  else
    movies ← run (search_movies search_term);
    _ ← run (print_movie_list movies);
    mret (Some movies).

(** Lines 299-323. *)
Definition choice_details (last_searched_movies : list MovieSummary)
    : P (option (list MovieSummary)) :=
  match last_searched_movies with
  | [] =>
      _ ← say search_first;
      mret (Some last_searched_movies)
  | _ :: _ =>
      catching is_value_error
        (movie_num ← ask_number (number_prompt_pre
                                  ++ fmt_nat (length last_searched_movies)
                                  ++ number_prompt_post);
         if out_of_list movie_num last_searched_movies then
           _ ← say bad_number_list;
           mret (Some last_searched_movies)
         else
           movie ← pick last_searched_movies (movie_num - 1);
           _ ← select movie;
           details ← run (get_movie_details (title_param movie));
           _ ← match details with
               | Some details => run (print_movie_details details)
               | None => say (no_details_pre ++ fmt_value (ms_title movie)
                              ++ no_details_post)
               end;
           mret (Some last_searched_movies))
        (fun _ =>
           _ ← say not_a_number;
           mret (Some last_searched_movies))
  end.

(** Lines 327-341: whether a movie is selected when they are left for
    line 343. *)
Definition ensure_selected (last_searched_movies : list MovieSummary) : P bool :=
  selected ← selected_movie;
  match selected with
  | Some _ => mret true
  | None =>
      match last_searched_movies with
      | [] =>
          _ ← say select_first;
          mret false
      | _ :: _ =>
          _ ← say use_last;
          catching is_value_error
            (movie_num ← ask_number (number_prompt_export
                                      ++ fmt_nat (length last_searched_movies)
                                      ++ number_prompt_post);
             if out_of_list movie_num last_searched_movies then
               _ ← say bad_number;
               mret false
             else
               movie ← pick last_searched_movies (movie_num - 1);
               _ ← select movie;
               mret true)
            (fun _ =>
               _ ← say bad_number;
               mret false)
      end
  end.

(** Lines 343-348. *)
Definition export_selected : P unit :=
  selected ← selected_movie;
  match selected with
  | None => throw type_error
  | Some movie =>
      _ ← say (creating_pre ++ fmt_value (ms_title movie) ++ creating_post);
      ok ← run (generate_graph_json (title_param movie));
      if (ok : bool) then say created else say not_created
  end.

(** Lines 326-348. *)
Definition choice_export (last_searched_movies : list MovieSummary)
    : P (option (list MovieSummary)) :=
  selected ← ensure_selected last_searched_movies;
  if (selected : bool) then
    _ ← export_selected;
    mret (Some last_searched_movies)
  else mret (Some last_searched_movies).

(** One turn of [while True] (lines 283-355). *)
Definition turn (last_searched_movies : list MovieSummary)
    : P (option (list MovieSummary)) :=
  _ ← run print_menu;
  line ← input choice_prompt;
  let choice := strip line in
  if bool_decide (choice = lit "1") then choice_search last_searched_movies
  else if bool_decide (choice = lit "2") then choice_details last_searched_movies
  else if bool_decide (choice = lit "3") then choice_export last_searched_movies
  else if bool_decide (choice = lit "4") then
    _ ← say leaving;
    mret None
  else
    _ ← say bad_choice;
    mret (Some last_searched_movies).

(** [while True], for at most [fuel] turns. *)
Fixpoint while_true (fuel : nat) (last_searched_movies : list MovieSummary)
    (p : Process) : option (outcome unit * Process) :=
  match fuel with
  | O => None
  | S fuel' =>
      match turn last_searched_movies p with
      | (Returned None, p') => Some (Returned tt, p')
      | (Returned (Some movies), p') => while_true fuel' movies p'
      | (Raised e, p') => Some (Raised e, p')
      end
  end.

(** Lines 257-276: whether the menu is to be shown. *)
Definition startup : P bool :=
  _ ← say ask_credentials;
  line ← input uri_prompt;
  let uri := or_default (strip line) default_uri in
  line ← input user_prompt;
  let user := or_default (strip line) default_user in
  line ← input password_prompt;
  let password := strip line in
  if negb (str_truthy password) then
    _ ← say empty_password;
    mret false
  else
    _ ← app_init uri user password;
    _ ← say testing;
    ok ← test_connection;
    if negb ok then
      _ ← say cannot_connect;
      _ ← close;
      mret false
    else
      _ ← say connected;
      mret true.

(** Lines 357-360 on what the loop gave. *)
Definition handlers (r : outcome unit * Process) : outcome unit * Process :=
  match r with
  | (Raised e, p) =>
      if is_keyboard_interrupt e then say interrupted p
      else if is_exception e then say (unexpected ++ exn_text e) p
      else (Raised e, p)
  | (Returned _, _) => r
  end.

(** [main]: every turn reads a line, so the loop takes no more turns than
    there are lines, and one more ends it at the end of the input. *)
Definition main (p : Process) : option (outcome unit * Process) :=
  match startup p with
  | (Returned true, p1) =>
      match while_true (S (length (p_stdin p1))) [] p1 with
      | Some r => Some (finally (handlers r) close)
      | None => None
      end
  | (Returned false, p1) => Some (Returned tt, p1)
  | (Raised e, p1) => Some (Raised e, p1)
  end.

End Driver.

(** The process at its start. *)
Definition boot (w : World) (keys : list key) : Process :=
  {| p_world := w; p_stdin := keys; p_prompts := []; p_driver := NoDriver;
     p_selected := None; p_probes := 0 |}.

(** [int] on the ASCII decimal literals without a sign; the other texts
    [int] accepts do not occur in the examples. *)
Fixpoint decimal_value (acc : Z) (s : list N) : option Z :=
  match s with
  | [] => Some acc
  | c :: rest =>
      if is_digit c then decimal_value (10 * acc + Z.of_N (c - 48)) rest
      else None
  end.

Definition decimal_int (s : list N) : option Z :=
  match s with
  | [] => None
  | _ :: _ => decimal_value 0 s
  end.

(** A library whose driver reaches the given connection. *)
Definition library_of (c : Conn) : Library :=
  {| py_int := decimal_int; driver := fun _ _ _ => Returned c |}.

(** ** Vocabulary of the properties of [main] *)

(** An exception the handlers of [main] take. *)
Definition handled (e : exn) : Prop :=
  is_keyboard_interrupt e || is_exception e = true.

(** From a state with [Pre], the computation returns into [Post] or
    raises into [Exc]. *)
Definition hoare {A} (Pre : Process -> Prop) (m : P A)
    (Post : A -> Process -> Prop) (Exc : exn -> Process -> Prop) : Prop :=
  forall p, Pre p ->
    match m p with
    | (Returned a, p') => Post a p'
    | (Raised e, p') => Exc e p'
    end.

(** A method or console function that returns [a] and leaves the
    connection, the files and the list of queries as they were. *)
Definition silent {A} (m : M A) : Prop :=
  forall w, exists a w',
    m w = (Returned a, w') /\
    w_conn w' = w_conn w /\ w_fs w' = w_fs w /\ w_queries w' = w_queries w.

(** A connection whose failure, if it fails, is of the class
    [Exception]. *)
Definition conn_caught (c : Conn) : Prop :=
  match c with
  | Up _ => True
  | Down e => is_exception e = true
  end.

(** No line of the input chooses the export. *)
Definition no_export_choice (keys : list key) : Prop :=
  forall s, Line s ∈ keys -> strip s <> lit "3".

(** A title that holds a term searched for in [log]. *)
Definition justified (log : list (Query * list N)) (t : list N) : Prop :=
  exists term, (SearchQuery, term) ∈ log /\ has_substring t term.

(** A movie whose title is a string justified by [log]. *)
Definition known (log : list (Query * list N)) (movie : MovieSummary) : Prop :=
  exists t, ms_title movie = Some (VStr t) /\ justified log t.

(** The queries [new], in the order they were sent: the term of a search
    is not empty and has no white space around it; the title of a detail
    query or of an export query holds a term searched before it. *)
Definition well_logged (new : list (Query * list N)) : Prop :=
  forall pre q t post,
    new = pre ++ (q, t) :: post ->
    match q with
    | SearchQuery => t <> [] /\ strip t = t
    | DetailQuery | ExportQuery => justified pre t
    end.

Section Invariant.

Variable keys0 : list key.
Variable d0 : driver_state.
Variable c0 : Conn.
Variable f0 : FS.
Variable q0 : list (Query * list N).

(** What holds between the turns of the menu: at most [n] lines are left
    of the input [keys0]; the driver and its connection are [d0] and
    [c0]; the files are [f0] unless the export was chosen; the queries
    sent since [q0] are well logged, and the selected movie is known
    from them. *)
Definition running (n : nat) (p : Process) : Prop :=
  (length (p_stdin p) <= n)%nat /\
  suffix (p_stdin p) keys0 /\
  p_driver p = d0 /\
  w_conn (p_world p) = c0 /\
  (no_export_choice keys0 -> w_fs (p_world p) = f0) /\
  exists new,
    w_queries (p_world p) = q0 ++ new /\
    well_logged new /\
    (forall movie, p_selected p = Some movie -> known new movie).

(** A movie known from the queries sent so far. *)
Definition known_in (p : Process) (movie : MovieSummary) : Prop :=
  exists new, w_queries (p_world p) = q0 ++ new /\ known new movie.

End Invariant.

Section Turns.

Variable keys0 : list key.
Variable d0 : driver_state.
Variable c0 : Conn.
Variable f0 : FS.
Variable q0 : list (Query * list N).

(** The state when a turn starts with [last_searched_movies = last]. *)
Definition between_turns (n : nat) (last : list MovieSummary) (p : Process) : Prop :=
  running keys0 d0 c0 f0 q0 n p /\ Forall (known_in q0 p) last.

(** The state when a turn is left by an exception. *)
Definition stopped (n : nat) (last : list MovieSummary) (e : exn) (p : Process) : Prop :=
  between_turns n last p /\ handled e.

(** A step of a turn that does not change [last_searched_movies]. *)
Definition keeps {A} (n : nat) (last : list MovieSummary) (m : P A) : Prop :=
  hoare (between_turns n last) m (fun _ => between_turns n last) (stopped n last).

End Turns.

(** The world after a console function has printed [lines]. *)
Definition printed_all (lines : list (list N)) (w : World) : World :=
  {| w_conn := w_conn w; w_fs := w_fs w; w_queries := w_queries w;
     w_console := w_console w ++ lines |}.

(** An input for the examples: the default address and user, a password,
    a search for ["Matrix"], the details of the first movie found, its
    export, and the exit. *)
Definition session_keys : list key :=
  [Line []; Line (lit " "); Line (lit "secret");
   Line (lit "1"); Line (lit " Matrix "); Line (lit "2"); Line (lit "1");
   Line (lit "3"); Line (lit "4")].

(** The same without the export. *)
Definition browsing_keys : list key :=
  [Line []; Line (lit " "); Line (lit "secret");
   Line (lit "1"); Line (lit " Matrix "); Line (lit "2"); Line (lit "1");
   Line (lit "5"); CtrlC].

(** * Properties *)

(** ** [strip] *)

Section Strip.

Lemma lstrip_no_lead s : no_lead (lstrip s).
Proof.
  induction s as [|c s IH]; simpl; [exact I|].
  destruct (isspace c) eqn:E; [exact IH | exact E].
Qed.

Lemma lstrip_fixed s : no_lead s -> lstrip s = s.
Proof. destruct s as [|c s]; simpl; [reflexivity|]. intros ->. reflexivity. Qed.

Lemma lstrip_suffix s : exists p, s = p ++ lstrip s.
Proof.
  induction s as [|c s [p Hp]]; simpl.
  - exists []. reflexivity.
  - destruct (isspace c).
    + exists (c :: p). simpl. congruence.
    + exists []. reflexivity.
Qed.

Lemma rstrip_prefix s : exists q, s = rstrip s ++ q.
Proof.
  unfold rstrip. destruct (lstrip_suffix (reverse s)) as [p Hp].
  exists (reverse p).
  rewrite <- reverse_app, <- Hp, reverse_involutive. reflexivity.
Qed.

Lemma no_lead_prefix a b : no_lead (a ++ b) -> no_lead a.
Proof. destruct a; simpl; auto. Qed.

Lemma rstrip_idemp s : rstrip (rstrip s) = rstrip s.
Proof.
  unfold rstrip. rewrite reverse_involutive.
  rewrite (lstrip_fixed (lstrip _)); [reflexivity | apply lstrip_no_lead].
Qed.

Lemma strip_no_lead s : no_lead (strip s).
Proof.
  unfold strip. destruct (rstrip_prefix (lstrip s)) as [q Hq].
  apply (no_lead_prefix _ q). rewrite <- Hq. apply lstrip_no_lead.
Qed.

Lemma strip_idemp s : strip (strip s) = strip s.
Proof.
  unfold strip at 1. rewrite (lstrip_fixed _ (strip_no_lead s)).
  unfold strip. apply rstrip_idemp.
Qed.

Lemma lstrip_blank s : forallb isspace s = true -> lstrip s = [].
Proof.
  induction s as [|c s IH]; simpl; [reflexivity|].
  intros [Hc Hs]%andb_prop. rewrite Hc. auto.
Qed.

Lemma strip_blank s : forallb isspace s = true -> strip s = [].
Proof. intros H. unfold strip. rewrite (lstrip_blank _ H). reflexivity. Qed.

Lemma strip_nil : strip [] = [].
Proof. reflexivity. Qed.

End Strip.

(** ** [search_movies] *)

(** C7: a search term that is empty or made of white space only gives the
    empty list and leaves the world as it was: no query is sent, nothing
    is printed. *)
Theorem search_movies_blank_term (search_term : list N) (w : World) :
  forallb isspace search_term = true ->
  search_movies search_term w = (Returned [], w).
Proof.
  intros H. unfold search_movies.
  rewrite (strip_blank _ H). simpl.
  rewrite orb_true_r. reflexivity.
Qed.

Lemma search_movies_blank_term_witness :
  forallb isspace [32; 9; 160] = true /\
  search_movies [32; 9; 160] (world_of (Up sample_store))
  = (Returned [], world_of (Up sample_store)).
Proof.
  split; [reflexivity|].
  apply (search_movies_blank_term [32; 9; 160]). reflexivity.
Defined.

Lemma search_movies_guard search_term :
  strip search_term <> [] ->
  negb (str_truthy search_term) || negb (str_truthy (strip search_term)) = false.
Proof.
  intros H. destruct search_term as [|c s]; [elim H; reflexivity|].
  destruct (strip (c :: s)); [elim H; reflexivity | reflexivity].
Qed.

(** C10: when the trimmed term is not empty, the query goes out with the
    trimmed term as its parameter, and the call behaves exactly as the
    call on the trimmed term. *)
Theorem search_movies_trimmed (search_term : list N) (w : World) :
  strip search_term <> [] ->
  w_queries (search_movies search_term w).2
  = w_queries w ++ [(SearchQuery, strip search_term)] /\
  search_movies search_term w = search_movies (strip search_term) w.
Proof.
  intros H. unfold search_movies.
  rewrite strip_idemp, (search_movies_guard _ H).
  assert (G : negb (str_truthy (strip search_term))
              || negb (str_truthy (strip search_term)) = false).
  { destruct (strip search_term); [elim H; reflexivity | reflexivity]. }
  rewrite G. split; [|reflexivity].
  unfold try_except, mbind, M_bind, session_run.
  destruct (w_conn w) as [st|e]; [reflexivity|].
  destruct (is_exception e); reflexivity.
Qed.

Lemma search_movies_trimmed_witness :
  strip (lit "  Matrix ") <> [] /\
  w_queries (search_movies (lit "  Matrix ") (world_of (Up sample_store))).2
  = [(SearchQuery, lit "Matrix")] /\
  search_movies (lit "  Matrix ") (world_of (Up sample_store))
  = search_movies (lit "Matrix") (world_of (Up sample_store)).
Proof.
  split; [vm_compute; discriminate|].
  apply (search_movies_trimmed (lit "  Matrix ") (world_of (Up sample_store))).
  vm_compute; discriminate.
Defined.

(** ** Failures of the infrastructure *)

Section Failures.

Variables (w : World) (e : exn).
Hypothesis down : w_conn w = Down e.
Hypothesis caught : is_exception e = true.

Lemma search_movies_down s :
  strip s <> [] ->
  search_movies s w
  = (Returned [], printed (search_error ++ exn_text e) (sent SearchQuery (strip s) w)).
Proof.
  intros H. unfold search_movies. rewrite (search_movies_guard _ H).
  destruct w as [c f q o]; simpl in down; subst c.
  unfold try_except, mbind, M_bind, session_run. cbn [w_conn].
  rewrite caught. reflexivity.
Qed.

Lemma get_movie_details_down s :
  get_movie_details s w
  = (Returned None, printed (detail_error ++ exn_text e) (sent DetailQuery s w)).
Proof.
  destruct w as [c f q o]; simpl in down; subst c.
  unfold get_movie_details, try_except, mbind, M_bind, session_run. cbn [w_conn].
  rewrite caught. reflexivity.
Qed.

Lemma generate_graph_json_down s :
  generate_graph_json s w
  = (Returned false, printed (graph_error ++ exn_text e) (sent ExportQuery s w)).
Proof.
  destruct w as [c f q o]; simpl in down; subst c.
  unfold generate_graph_json, try_except, mbind, M_bind, session_run. cbn [w_conn].
  rewrite caught. reflexivity.
Qed.

End Failures.

(** An export that finds its movie but cannot create [exports/]. *)
Lemma generate_graph_json_blocked w st s record g :
  w_conn w = Up st ->
  single (cypher_export st s) = Some record ->
  build_graph record = Returned g ->
  fs_exports (w_fs w) = NotADirectory ->
  generate_graph_json s w
  = (Returned false,
     printed (graph_error ++ fs_message (w_fs w) "FileExistsError" exports_path)
       (sent ExportQuery s w)).
Proof.
  intros Hc Hr Hg Hf.
  destruct w as [c [x ro msg] q o]; simpl in Hc, Hf; subst c x.
  unfold generate_graph_json, try_except, mbind, M_bind, session_run. simpl.
  rewrite Hr. unfold lift. rewrite Hg. reflexivity.
Qed.

(** C1, as the code has it: a session that fails with an exception of
    the class [Exception] makes each of the three methods return what it
    returns when nothing is found (the empty list, [None], [False]); the
    failure is caught inside the method and shows only as a line on the
    console, the prefix of the method and the text of the exception.  The
    same holds for an export whose directory cannot be created, with the
    text the platform gives to that failure. *)
Theorem failures_return_absence (s : list N) (w : World) :
  (forall e, w_conn w = Down e -> is_exception e = true ->
     (strip s <> [] ->
      search_movies s w
      = (Returned [],
         printed (search_error ++ exn_text e) (sent SearchQuery (strip s) w))) /\
     get_movie_details s w
     = (Returned None, printed (detail_error ++ exn_text e) (sent DetailQuery s w)) /\
     generate_graph_json s w
     = (Returned false, printed (graph_error ++ exn_text e) (sent ExportQuery s w))) /\
  (forall st record g,
     w_conn w = Up st ->
     single (cypher_export st s) = Some record ->
     build_graph record = Returned g ->
     fs_exports (w_fs w) = NotADirectory ->
     generate_graph_json s w
     = (Returned false,
        printed (graph_error ++ fs_message (w_fs w) "FileExistsError" exports_path)
          (sent ExportQuery s w))).
Proof.
  split.
  - intros e H He. split; [|split].
    + apply search_movies_down; assumption.
    + apply get_movie_details_down; assumption.
    + apply generate_graph_json_down; assumption.
  - intros st record g. apply generate_graph_json_blocked.
Qed.

Lemma failures_return_absence_witness :
  (search_movies (lit "Matrix") (world_of (Down connection_refused))).1 = Returned [] /\
  (get_movie_details (lit "The Matrix") (world_of (Down connection_refused))).1
  = Returned None /\
  (generate_graph_json (lit "The Matrix") (world_of (Down connection_refused))).1
  = Returned false /\
  (generate_graph_json (lit "The Matrix") (blocked_world (Up sample_store))).1
  = Returned false /\
  w_console (generate_graph_json (lit "The Matrix") (blocked_world (Up sample_store))).2
  = [graph_error ++ lit "[Errno 17] File exists: 'exports'"].
Proof.
  destruct (failures_return_absence (lit "Matrix") (world_of (Down connection_refused)))
    as [H1 _].
  destruct (H1 connection_refused eq_refl eq_refl) as [Hs _].
  destruct (failures_return_absence (lit "The Matrix") (world_of (Down connection_refused)))
    as [H2 _].
  destruct (H2 connection_refused eq_refl eq_refl) as (_ & Hd & Hg).
  destruct (failures_return_absence (lit "The Matrix") (blocked_world (Up sample_store)))
    as [_ H3].
  destruct (export_graph sample_store (lit "The Matrix")) as [[g|]|] eqn:E;
    [|vm_compute in E; discriminate..].
  unfold export_graph in E.
  destruct (single (cypher_export sample_store (lit "The Matrix"))) as [record|] eqn:R;
    [|discriminate].
  injection E as E.
  rewrite Hs by (vm_compute; discriminate).
  rewrite Hd, Hg, (H3 sample_store record g eq_refl R E eq_refl).
  repeat split.
Defined.

(** C1 as stated fails: with the connection refused, each method returns
    exactly what it returns for a title that is not in the store. *)
Lemma failure_indistinguishable_from_absence :
  (search_movies (lit "Matrix") (world_of (Down connection_refused))).1
  = (search_movies (lit "Matrix") (world_of (Up empty_store))).1 /\
  (get_movie_details (lit "The Matrix") (world_of (Down connection_refused))).1
  = (get_movie_details (lit "The Matrix") (world_of (Up empty_store))).1 /\
  (generate_graph_json (lit "The Matrix") (world_of (Down connection_refused))).1
  = (generate_graph_json (lit "The Matrix") (world_of (Up empty_store))).1.
Proof. vm_compute. repeat split. Qed.

(** ** Export of a title that is not there *)

(** C6: when the export query finds no record, the export returns [False];
    the query was sent, and the file system is as it was: no directory and
    no artifact is created or overwritten. *)
Theorem generate_graph_json_not_found (movie_title : list N) (w : World) (st : Store) :
  w_conn w = Up st ->
  single (cypher_export st movie_title) = None ->
  generate_graph_json movie_title w = (Returned false, sent ExportQuery movie_title w) /\
  w_fs (generate_graph_json movie_title w).2 = w_fs w.
Proof.
  intros Hc Hr.
  assert (E : generate_graph_json movie_title w
              = (Returned false, sent ExportQuery movie_title w)).
  { destruct w as [c f q o]; simpl in Hc; subst c.
    unfold generate_graph_json, try_except, mbind, M_bind, session_run. simpl.
    rewrite Hr. reflexivity. }
  rewrite E. split; reflexivity.
Qed.

Lemma generate_graph_json_not_found_witness :
  generate_graph_json (lit "Zorro") (world_of (Up sample_store))
  = (Returned false, sent ExportQuery (lit "Zorro") (world_of (Up sample_store))) /\
  w_fs (generate_graph_json (lit "Zorro") (world_of (Up sample_store))).2 = empty_fs.
Proof.
  apply (generate_graph_json_not_found (lit "Zorro") (world_of (Up sample_store))
           sample_store eq_refl).
  vm_compute. reflexivity.
Defined.

(** ** Details of a movie without directors or actors *)

Section Details.



Lemma optional_not_nil {A} (l : list A) : optional l <> [].
Proof. destruct l; discriminate. Qed.

Lemma person_rows_not_nil st m : person_rows st m <> [].
Proof.
  unfold person_rows.
  destruct (optional (incoming st "DIRECTED" m)) as [|d ds] eqn:D;
    [elim (optional_not_nil _ D)|].
  destruct (optional (incoming st "ACTED_IN" m)) as [|a bs] eqn:A;
    [elim (optional_not_nil _ A)|].
  discriminate.
Qed.







End Details.




(** ** [DISTINCT] *)

Section Distinct.

Context `{EqDecision A}.
Implicit Types l r : list A.

Lemma filter_ext_in (P Q : A -> Prop) `{!forall x, Decision (P x)}
    `{!forall x, Decision (Q x)} l :
  (forall x, x ∈ l -> (P x <-> Q x)) -> filter P l = filter Q l.
Proof.
  induction l as [|y l IH]; intros Hl; [reflexivity|].
  rewrite !filter_cons.
  rewrite IH by (intros x Hx; apply Hl; right; exact Hx).
  destruct (decide (P y)) as [p|p], (decide (Q y)) as [q|q]; try reflexivity.
  - elim q. apply Hl; [left | exact p].
  - elim p. apply Hl; [left | exact q].
Qed.

Lemma filter_none (P : A -> Prop) `{!forall x, Decision (P x)} l :
  (forall x, x ∈ l -> ~ P x) -> filter P l = [].
Proof.
  induction l as [|y l IH]; intros Hl; [reflexivity|].
  rewrite filter_cons_False by (apply Hl; left).
  apply IH. intros x Hx. apply Hl. right. exact Hx.
Qed.

Lemma filter_all (P : A -> Prop) `{!forall x, Decision (P x)} l :
  (forall x, x ∈ l -> P x) -> filter P l = l.
Proof.
  induction l as [|y l IH]; intros Hl; [reflexivity|].
  rewrite filter_cons_True by (apply Hl; left).
  f_equal. apply IH. intros x Hx. apply Hl. right. exact Hx.
Qed.

Lemma elem_of_distinct l x : x ∈ distinct l <-> x ∈ l.
Proof.
  induction l as [|y l IH]; simpl; [reflexivity|].
  rewrite !elem_of_cons, list_elem_of_filter, IH.
  destruct (decide (x = y)) as [->|Hn]; [tauto|].
  split; [intros [?|[_ ?]]; auto | intros [?|?]; auto].
Qed.

Lemma NoDup_distinct l : NoDup (distinct l).
Proof.
  induction l as [|y l IH]; simpl; [constructor|].
  apply NoDup_cons. split.
  - intros [H _]%list_elem_of_filter. congruence.
  - apply NoDup_filter, IH.
Qed.

Lemma distinct_app l r :
  distinct (l ++ r) = distinct l ++ filter (fun y => y ∉ l) (distinct r).
Proof.
  induction l as [|x l IH]; simpl.
  - symmetry. apply filter_all. intros y _. apply not_elem_of_nil.
  - f_equal. rewrite IH, filter_app. f_equal.
    rewrite list_filter_filter. apply filter_ext_in.
    intros y _. rewrite elem_of_cons. tauto.
Qed.

Lemma distinct_absorb l r :
  (forall x, x ∈ r -> x ∈ l) -> distinct (l ++ r) = distinct l.
Proof.
  intros Hr. rewrite distinct_app, filter_none; [apply app_nil_r|].
  intros x Hx Hn. apply Hn, Hr. apply (proj1 (elem_of_distinct r x) Hx).
Qed.

Lemma distinct_NoDup l : NoDup l -> distinct l = l.
Proof.
  induction 1 as [|x l Hx Hl IH]; simpl; [reflexivity|].
  rewrite IH. f_equal. apply filter_all. intros y Hy ->. exact (Hx Hy).
Qed.

End Distinct.



(** ** The export record in closed form *)

Section ExportRecord.

Lemma distinct_constant `{EqDecision A} (l : list A) (d : A) :
  l <> [] -> (forall y, y ∈ l -> y = d) -> distinct l = [d].
Proof.
  destruct l as [|x l]; [congruence|]. intros _ Hl. simpl.
  rewrite (Hl x) by left. f_equal.
  apply filter_none. intros y Hy Hn. apply Hn, Hl. right.
  apply elem_of_distinct, Hy.
Qed.

Lemma rows_fst `{EqDecision A} {B} (ds : list A) (bs : list B) :
  bs <> [] ->
  distinct (fst <$> (d ← ds; b ← bs; [(d, b)])) = distinct ds.
Proof.
  intros Hb. induction ds as [|d ds IH]; [reflexivity|].
  rewrite bind_cons, fmap_app, distinct_app, IH. clear IH.
  set (X := fst <$> (b ← bs; [(d, b)])).
  assert (HX : forall y, y ∈ X <-> y = d).
  { intros y. unfold X. rewrite list_elem_of_fmap. split.
    - intros (p & -> & (b & Hp & _)%list_elem_of_bind).
      apply list_elem_of_singleton in Hp as ->. reflexivity.
    - intros ->. destruct bs as [|b bs]; [congruence|].
      exists (d, b). split; [reflexivity|].
      apply list_elem_of_bind. exists b. split; left. }
  rewrite (distinct_constant X d).
  - simpl. f_equal. apply filter_ext_in. intros y _. rewrite HX. tauto.
  - intros E. apply (not_elem_of_nil d). rewrite <- E. apply HX. reflexivity.
  - intros y. apply HX.
Qed.

Lemma rows_snd {A} `{EqDecision B} (ds : list A) (bs : list B) :
  ds <> [] ->
  distinct (snd <$> (d ← ds; b ← bs; [(d, b)])) = distinct bs.
Proof.
  assert (Hone : forall d : A, snd <$> (b ← bs; [(d, b)]) = bs).
  { intros d. induction bs as [|b bs IH]; [reflexivity|].
    rewrite bind_cons. csimpl. f_equal. exact IH. }
  assert (Hin : forall y, y ∈ snd <$> (d ← ds; b ← bs; [(d, b)]) -> y ∈ bs).
  { intros y (p & -> & (d & Hp & _)%list_elem_of_bind)%list_elem_of_fmap.
    apply list_elem_of_bind in Hp as (b & Hp & Hb).
    apply list_elem_of_singleton in Hp as ->. exact Hb. }
  destruct ds as [|d ds]; [congruence|]. intros _.
  rewrite bind_cons, fmap_app, Hone.
  apply distinct_absorb. intros y Hy. apply Hin.
  rewrite bind_cons, fmap_app. apply elem_of_app. right. exact Hy.
Qed.





Lemma match_movie_title st title m :
  m ∈ match_movie st title -> prop m "title" = Some (VStr title).
Proof. unfold match_movie. intros [[_ H] _]%list_elem_of_filter. exact H. Qed.

End ExportRecord.

(** ** The loops of the export *)

Section Loops.

#[local] Opaque lit.


Lemma has_name_replace p :
  has_name p ->
  value_replace (prop p "name") = Returned (replace space underscore (person_name p)).
Proof. intros [s Hs]. unfold person_name. rewrite Hs. reflexivity. Qed.

Lemma loop_result_nil role mid g : loop_result role mid [] g = g.
Proof.
  destruct g as [ns ids ls]. unfold loop_result. simpl.
  rewrite !app_nil_r. f_equal. apply (right_id_L ∅ (∪)).
Qed.







Lemma person_loop_inv role mid rels g g' :
  loop_inv mid g ->
  person_loop role mid rels g = Returned g' ->
  loop_inv mid g'.
Proof.
  revert g. induction rels as [|r rels IH]; intros g Hinv; simpl.
  - intros [= <-]. exact Hinv.
  - destruct (person r) as [p|]; [|apply IH, Hinv].
    destruct (node_truthy p); [|apply IH, Hinv].
    destruct (value_replace (prop p "name")) as [replaced|e]; [|discriminate].
    apply IH. destruct Hinv as (Hnd & Hids & Hmid & Hl).
    case_bool_decide as Hin; unfold loop_inv; cbn [nodes node_ids links].
    + rewrite fmap_app. csimpl. split; [|split; [|split]].
      * apply NoDup_app. split; [exact Hnd|]. split; [|apply NoDup_singleton].
        intros i Hi Hi'%list_elem_of_singleton. subst i. apply Hin, Hids, Hi.
      * intros i. rewrite elem_of_app, list_elem_of_singleton, <- Hids. set_solver.
      * set_solver.
      * intros l [Hl'|Hl'%list_elem_of_singleton]%elem_of_app.
        -- destruct (Hl l Hl'). set_solver.
        -- subst l. simpl. set_solver.
    + split; [exact Hnd|]. split; [exact Hids|].
      split; [exact Hmid|].
      intros l [Hl'|Hl'%list_elem_of_singleton]%elem_of_app; [apply Hl, Hl'|].
      subst l. simpl. auto.
Qed.

Lemma build_graph_well_formed record g :
  build_graph record = Returned g -> well_formed g.
Proof.
  unfold build_graph.
  destruct (value_replace (prop (er_m record) "title")) as [replaced|e];
    [|discriminate].
  set (mid := lit "movie_" ++ replaced).
  set (g0 := {| nodes := _; node_ids := _; links := [] |}).
  assert (H0 : loop_inv mid g0).
  { unfold loop_inv, g0; cbn [nodes node_ids links]. csimpl.
    split; [apply NoDup_singleton|]. split; [|split].
    - intros i. rewrite list_elem_of_singleton. set_solver.
    - set_solver.
    - intros l Hl. elim (not_elem_of_nil _ Hl). }
  destruct (person_loop Director mid (er_director_rels record) g0) as [g1|e] eqn:E1;
    [|discriminate].
  intros E2.
  pose proof (person_loop_inv _ _ _ _ _ H0 E1) as H1.
  destruct (person_loop_inv _ _ _ _ _ H1 E2) as (Hnd & Hids & _ & Hl).
  split; [exact Hnd|].
  intros l Hin. destruct (Hl l Hin) as [Hs Ht].
  split; apply Hids; assumption.
Qed.

#[local] Transparent lit.

End Loops.

(** ** The exported graph *)

Section ExportedGraph.







End ExportedGraph.

(** C5: the graph an export builds is well formed: no two nodes share an
    id, and the source and the target of every link are ids of nodes of
    the graph. *)
Theorem export_graph_well_formed (st : Store) (movie_title : list N) (g : GraphState) :
  export_graph st movie_title = Some (Returned g) -> well_formed g.
Proof.
  unfold export_graph.
  destruct (single (cypher_export st movie_title)) as [record|]; [|discriminate].
  intros [= H]. exact (build_graph_well_formed record g H).
Qed.

Lemma export_graph_well_formed_witness :
  exists g, export_graph sample_store (lit "The Matrix") = Some (Returned g) /\
            well_formed g.
Proof.
  destruct (export_graph sample_store (lit "The Matrix")) as [[g|e]|] eqn:E;
    [|vm_compute in E; discriminate..].
  exists g. split; [reflexivity|].
  exact (export_graph_well_formed sample_store (lit "The Matrix") g E).
Defined.










(** ** Strings through [encode_basestring] and [scanstring] *)

Section Strings.

Lemma scanstring_control c s :
  c < 32 ->
  scanstring (escape_char c ++ s)
  = match scanstring s with
    | Some (chars, rest) => Some (c :: chars, rest)
    | None => None
    end.
Proof.
  intros Hc.
  destruct c as [|p]; [reflexivity|].
  do 5 (destruct p as [p|p|]; try reflexivity; try lia).
Qed.

Lemma escape_char_plain c :
  32 <= c -> c <> 34 -> c <> 92 -> escape_char c = [c].
Proof.
  intros H1 H2 H3. unfold escape_char.
  repeat match goal with
         | |- context [?a =? ?b] =>
             destruct (N.eqb_spec a b); [lia|]
         end.
  destruct (N.ltb_spec c 32); [lia | reflexivity].
Qed.

Lemma scanstring_step c s :
  scanstring (escape_char c ++ s)
  = match scanstring s with
    | Some (chars, rest) => Some (c :: chars, rest)
    | None => None
    end.
Proof.
  destruct (N.lt_ge_cases c 32) as [H|H]; [apply scanstring_control, H|].
  destruct (N.eq_dec c 34) as [->|H34]; [reflexivity|].
  destruct (N.eq_dec c 92) as [->|H92]; [reflexivity|].
  rewrite (escape_char_plain c H H34 H92). simpl.
  destruct (N.eqb_spec c 34); [lia|].
  destruct (N.eqb_spec c 92); [lia|].
  destruct (N.ltb_spec c 32); [lia | reflexivity].
Qed.

Lemma scanstring_escaped s rest :
  scanstring (mbind escape_char s ++ 34 :: rest) = Some (s, rest).
Proof.
  induction s as [|c s IH]; [reflexivity|].
  rewrite bind_cons, <- app_assoc, scanstring_step, IH. reflexivity.
Qed.

Lemma scan_encode_basestring s rest :
  exists body, encode_basestring s ++ rest = 34 :: body /\
               scanstring body = Some (s, rest).
Proof.
  exists (mbind escape_char s ++ 34 :: rest). split.
  - unfold encode_basestring. simpl. rewrite <- app_assoc. reflexivity.
  - apply scanstring_escaped.
Qed.

End Strings.

(** ** Integers through [int.__repr__] and [NUMBER_RE] *)

Section Numbers.

Lemma follows_not_digit rest :
  follows rest ->
  match rest with [] => True | c :: _ => is_digit c = false end.
Proof. destruct rest as [|c r]; [auto|]. intros [->| ->]; reflexivity. Qed.

Lemma follows_float_tail rest : follows rest -> float_tail rest = false.
Proof. destruct rest as [|c r]; [auto|]. intros [->| ->]; reflexivity. Qed.

Lemma scan_digits_uint_chars u rest :
  match rest with [] => True | c :: _ => is_digit c = false end ->
  scan_digits (uint_chars u ++ rest) = (u, rest).
Proof.
  intros Hr. induction u; simpl;
    try (rewrite IHu; reflexivity).
  destruct rest as [|c r]; [reflexivity|]. simpl. rewrite Hr. reflexivity.
Qed.

Lemma nzhead_not_D0 u u' : Decimal.nzhead u <> Decimal.D0 u'.
Proof. induction u; simpl; try discriminate. exact IHu. Qed.

Lemma to_uint_head p :
  exists c cs, uint_chars (Pos.to_uint p) = c :: cs /\ in_range 49 57 c = true.
Proof.
  pose proof (DecimalPos.Unsigned.to_of (Pos.to_uint p)) as H.
  rewrite DecimalPos.Unsigned.of_to in H. simpl in H.
  pose proof (DecimalPos.Unsigned.to_uint_nonzero p) as Hz.
  pose proof (DecimalPos.Unsigned.to_uint_nonnil p) as Hn.
  destruct (Pos.to_uint p) as [|u|u|u|u|u|u|u|u|u|u] eqn:E;
    try (eexists; eexists; split; [reflexivity|reflexivity]).
  - congruence.
  - exfalso. unfold Decimal.unorm in H. simpl in H.
    destruct (Decimal.nzhead u) eqn:Eu; try discriminate H.
    + injection H as ->. apply Hz. reflexivity.
    + exact (nzhead_not_D0 u _ Eu).
Qed.

Lemma match_number_no_sign c s :
  c <> 45 ->
  match_number (c :: s)
  = match match_integer (c :: s) with
    | Some (u, r) =>
        if float_tail r then None else Some (Z.of_int (Decimal.Pos u), r)
    | None => None
    end.
Proof.
  intros Hc. destruct c as [|q]; [reflexivity|].
  do 6 (destruct q as [q|q|]; try reflexivity). congruence.
Qed.

Lemma match_integer_digits c cs rest :
  in_range 49 57 c = true ->
  match_integer ((c :: cs) ++ rest) = Some (scan_digits ((c :: cs) ++ rest)).
Proof.
  intros Hr. unfold match_integer. cbn [app].
  assert (c <> 48).
  { unfold in_range in Hr. apply andb_prop in Hr as [H1 H2].
    apply N.leb_le in H1, H2. lia. }
  destruct (N.eqb_spec c 48); [lia|]. rewrite Hr. reflexivity.
Qed.

Lemma match_number_intstr z rest :
  follows rest -> match_number (intstr z ++ rest) = Some (z, rest).
Proof.
  intros Hf.
  pose proof (follows_not_digit _ Hf) as Hd.
  pose proof (follows_float_tail _ Hf) as Ht.
  pose proof (DecimalZ.of_to z) as Hz.
  unfold intstr. destruct z as [|p|p]; simpl.
  - rewrite Ht. reflexivity.
  - change (Z.to_int (Z.pos p)) with (Decimal.Pos (Pos.to_uint p)) in Hz.
    destruct (to_uint_head p) as (c & cs & Hc & Hr).
    rewrite Hc. cbn [app]. rewrite match_number_no_sign.
    + change (c :: cs ++ rest) with ((c :: cs) ++ rest).
      rewrite (match_integer_digits _ _ _ Hr), <- Hc.
      rewrite (scan_digits_uint_chars _ _ Hd), Ht, Hz. reflexivity.
    + unfold in_range in Hr. apply andb_prop in Hr as [H1 H2].
      apply N.leb_le in H1, H2. lia.
  - change (Z.to_int (Z.neg p)) with (Decimal.Neg (Pos.to_uint p)) in Hz.
    destruct (to_uint_head p) as (c & cs & Hc & Hr).
    rewrite Hc.
    change (match_number (45 :: (c :: cs) ++ rest))
      with (match match_integer ((c :: cs) ++ rest) with
            | Some (u, r) =>
                if float_tail r then None else Some (Z.of_int (Decimal.Neg u), r)
            | None => None
            end).
    rewrite (match_integer_digits _ _ _ Hr), <- Hc.
    rewrite (scan_digits_uint_chars _ _ Hd), Ht.
    f_equal. f_equal. exact Hz.
Qed.

End Numbers.

(** ** The text of lists and dictionaries *)

Section EncodeText.

Lemma concat_list_chunks enc sep buf v l :
  concat (list_chunks enc sep buf (v :: l))
  = buf ++ concat (enc v) ++ concat (list_chunks enc sep sep l).
Proof.
  cbn [list_chunks]. rewrite concat_app.
  destruct v; cbn [concat]; rewrite ?app_nil_r, <- ?app_assoc; reflexivity.
Qed.

Lemma concat_list_items level buf v l :
  concat (list_chunks (iterencode level) (44 :: newline_indent level) buf (v :: l))
  = buf ++ items_text level (v :: l).
Proof.
  revert buf v. induction l as [|v' l IH]; intros buf v.
  - rewrite concat_list_chunks. cbn [list_chunks concat items_text].
    rewrite !app_nil_r. reflexivity.
  - rewrite concat_list_chunks, IH. cbn [items_text]. reflexivity.
Qed.

Lemma encode_list level v l :
  encode level (JList (v :: l))
  = 91 :: newline_indent (S level) ++ items_text (S level) (v :: l)
    ++ newline_indent level ++ [93].
Proof.
  unfold encode at 1. cbn [iterencode].
  rewrite concat_app, concat_list_items. cbn [concat].
  rewrite app_nil_r, <- !app_assoc. reflexivity.
Qed.

Lemma dict_chunks_cons enc sep first k v d :
  dict_chunks enc sep first ((k, v) :: d)
  = (if first then [] else [sep]) ++ [encode_basestring k; lit ": "]
    ++ enc v ++ dict_chunks enc sep false d.
Proof. reflexivity. Qed.

Lemma concat_dict_items level first k v d :
  concat (dict_chunks (iterencode level) (44 :: newline_indent level) first
            ((k, v) :: d))
  = (if first then [] else 44 :: newline_indent level)
    ++ members_text level ((k, v) :: d).
Proof.
  revert first k v. induction d as [|[k' v'] d IH]; intros first k v.
  - cbn [dict_chunks members_text]. rewrite !concat_app.
    destruct first; cbn [concat]; rewrite ?app_nil_r, <- ?app_assoc; reflexivity.
  - rewrite dict_chunks_cons, !concat_app, IH. cbn [members_text].
    destruct first; cbn [concat]; rewrite ?app_nil_r, <- ?app_assoc; reflexivity.
Qed.

Lemma encode_dict level k v d :
  encode level (JDict ((k, v) :: d))
  = 123 :: newline_indent (S level) ++ members_text (S level) ((k, v) :: d)
    ++ newline_indent level ++ [125].
Proof.
  unfold encode at 1. cbn [iterencode].
  rewrite !concat_app, concat_dict_items. cbn [concat].
  rewrite app_nil_r, <- !app_assoc. reflexivity.
Qed.

Lemma skip_ws_spaces n s : skip_ws (List.repeat space n ++ s) = skip_ws s.
Proof. induction n as [|n IH]; [reflexivity | exact IH]. Qed.

Lemma skip_ws_newline_indent k s : skip_ws (newline_indent k ++ s) = skip_ws s.
Proof. unfold newline_indent. cbn [app skip_ws is_ws]. apply skip_ws_spaces. Qed.

End EncodeText.

(** ** [scan_once] on the text of a value *)

Section Decode.

Lemma intstr_head z :
  exists c r, intstr z = c :: r /\ (c = 45 \/ in_range 48 57 c = true).
Proof.
  unfold intstr. destruct z as [|p|p]; simpl.
  - exists 48, []. auto.
  - destruct (to_uint_head p) as (c & cs & -> & Hr). exists c, cs.
    split; [reflexivity|]. right.
    unfold in_range in *. apply andb_prop in Hr as [H1 H2].
    apply N.leb_le in H1, H2. apply andb_true_intro.
    split; apply N.leb_le; lia.
  - eexists. eexists. split; [reflexivity|]. left. reflexivity.
Qed.

Lemma digit_cases c :
  in_range 48 57 c = true ->
  c = 48 \/ c = 49 \/ c = 50 \/ c = 51 \/ c = 52 \/ c = 53 \/ c = 54 \/
  c = 55 \/ c = 56 \/ c = 57.
Proof.
  unfold in_range. intros [H1 H2]%andb_prop. apply N.leb_le in H1, H2. lia.
Qed.

Lemma scan_once_number fuel c r :
  c = 45 \/ in_range 48 57 c = true ->
  scan_once (S fuel) (c :: r)
  = match match_number (c :: r) with
    | Some (z, r') => Some (JInt z, r')
    | None => None
    end.
Proof.
  intros [->|H]; [reflexivity|].
  destruct (digit_cases c H) as [->|[->|[->|[->|[->|[->|[->|[->|[->| ->]]]]]]]]];
    reflexivity.
Qed.

Lemma encode_head level v :
  exists c r, encode level v = c :: r /\ is_ws c = false /\ c <> 93 /\ c < 128.
Proof.
  destruct v as [|[|]|z|s|[|v l]|[|[k v] d]];
    try (eexists; eexists;
         split; [reflexivity|split; [reflexivity|split; [discriminate|reflexivity]]]).
  - destruct (intstr_head z) as (c & r & Hc & H).
    exists c, r. unfold encode. cbn [iterencode concat]. rewrite app_nil_r.
    split; [exact Hc|].
    destruct H as [->|H]; [split; [reflexivity|split; [discriminate|reflexivity]]|].
    destruct (digit_cases c H) as [->|[->|[->|[->|[->|[->|[->|[->|[->| ->]]]]]]]]];
      (split; [reflexivity|split; [discriminate|reflexivity]]).
  - rewrite encode_list. eexists; eexists.
    split; [reflexivity|split; [reflexivity|split; [discriminate|reflexivity]]].
Qed.

Lemma skip_ws_head c r : is_ws c = false -> skip_ws (c :: r) = c :: r.
Proof. intros H. simpl. rewrite H. reflexivity. Qed.

Lemma skip_ws_encode level v s : skip_ws (encode level v ++ s) = encode level v ++ s.
Proof.
  destruct (encode_head level v) as (c & r & -> & Hc & _ & _).
  apply (skip_ws_head c (r ++ s) Hc).
Qed.

Lemma scan_once_array fuel s c r :
  skip_ws s = c :: r -> c <> 93 ->
  scan_once (S fuel) (91 :: s)
  = match array_items fuel (c :: r) with
    | Some (values, r') => Some (JList values, r')
    | None => None
    end.
Proof.
  intros Hs Hc. cbn [scan_once]. simpl N.eqb. cbv iota. rewrite Hs.
  destruct c as [|p]; [reflexivity|].
  do 7 (destruct p as [p|p|]; try reflexivity). congruence.
Qed.

Lemma scan_once_object fuel s body :
  skip_ws s = 34 :: body ->
  scan_once (S fuel) (123 :: s)
  = match object_items fuel body with
    | Some (pairs, r) => Some (JDict (dict_of_pairs pairs), r)
    | None => None
    end.
Proof. intros Hs. cbn [scan_once]. simpl N.eqb. cbv iota. rewrite Hs. reflexivity. Qed.

Lemma dict_set_fresh d k v : k ∉ d.*1 -> dict_set d k v = d ++ [(k, v)].
Proof.
  induction d as [|[k' v'] d IH]; intros Hk; [reflexivity|].
  csimpl in Hk. apply not_elem_of_cons in Hk as [Hne Hk]. simpl.
  rewrite bool_decide_eq_false_2 by congruence. rewrite IH by exact Hk. reflexivity.
Qed.

Lemma dict_of_pairs_from acc d :
  NoDup (acc ++ d).*1 ->
  foldl (fun d p => dict_set d p.1 p.2) acc d = acc ++ d.
Proof.
  revert acc. induction d as [|[k v] d IH]; intros acc Hnd.
  - rewrite app_nil_r. reflexivity.
  - cbn [foldl]. simpl. rewrite dict_set_fresh.
    + rewrite IH; rewrite <- app_assoc; [reflexivity | exact Hnd].
    + rewrite fmap_app in Hnd. apply NoDup_app in Hnd as (_ & Hd & _).
      intros Hk. apply (Hd k Hk). csimpl. left.
Qed.

Lemma dict_of_pairs_NoDup d : NoDup d.*1 -> dict_of_pairs d = d.
Proof. intros H. apply (dict_of_pairs_from [] d H). Qed.

End Decode.

Section RoundTrip.

Lemma size_pos v : (1 <= size v)%nat.
Proof. destruct v; simpl; lia. Qed.

Lemma follows_comma s : follows (44 :: s).
Proof. left. reflexivity. Qed.

Lemma follows_newline k s : follows (newline_indent k ++ s).
Proof. right. reflexivity. Qed.

Lemma decodes_value fuel : decodes fuel -> 
  forall v level rest,
     (size v <= S fuel)%nat -> keys_ok v -> follows rest ->
     scan_once (S fuel) (encode level v ++ rest) = Some (v, rest).
Proof.
  intros (IHv & IHl & IHd) v level rest Hsize Hkeys Hf.
  destruct v as [|[|]|z|s|[|v l]|[|[k v] d]]; try reflexivity.
  - unfold encode. cbn [iterencode concat]. rewrite app_nil_r.
    destruct (intstr_head z) as (c & r & Hc & H).
    rewrite Hc. cbn [app]. rewrite (scan_once_number _ _ _ H).
    change (c :: r ++ rest) with ((c :: r) ++ rest).
    rewrite <- Hc, (match_number_intstr _ _ Hf). reflexivity.
  - unfold encode. cbn [iterencode concat]. rewrite app_nil_r.
    destruct (scan_encode_basestring s rest) as (body & -> & Hs).
    cbn [scan_once]. simpl N.eqb. cbv iota. rewrite Hs. reflexivity.
  - rewrite encode_list. cbn [app]. rewrite <- !app_assoc. cbn [app].
    destruct (encode_head (S level) v) as (c & r & Hc & Hws & H93 & _).
    assert (Hskip : skip_ws (newline_indent (S level) ++
                             items_text (S level) (v :: l) ++
                             newline_indent level ++ 93 :: rest)
                    = c :: (r ++ match l with
                                 | [] => []
                                 | _ :: _ => 44 :: newline_indent (S level)
                                             ++ items_text (S level) l
                                 end ++ newline_indent level ++ 93 :: rest)).
    { rewrite skip_ws_newline_indent. cbn [items_text].
      rewrite Hc. cbn [app]. rewrite <- app_assoc.
      apply skip_ws_head, Hws. }
    rewrite (scan_once_array _ _ _ _ Hskip H93).
    rewrite <- Hskip, skip_ws_newline_indent.
    cbn [items_text]. rewrite <- app_assoc, skip_ws_encode, app_assoc.
    change (encode (S level) v ++ match l with
                                  | [] => []
                                  | _ :: _ => 44 :: newline_indent (S level)
                                              ++ items_text (S level) l
                                  end) with (items_text (S level) (v :: l)).
    rewrite IHl; [reflexivity | discriminate | | exact Hkeys].
    simpl in Hsize. unfold items_size. simpl. lia.
  - rewrite encode_dict. cbn [app]. rewrite <- !app_assoc. cbn [app].
    destruct Hkeys as [Hnd Hkeys].
    destruct (IHd ((k, v) :: d) (S level) level rest) as (body & Hb & Ho);
      [discriminate | simpl in Hsize; unfold members_size; simpl; lia
       | exact Hkeys |].
    rewrite (scan_once_object _ _ body).
    + rewrite Ho, (dict_of_pairs_NoDup _ Hnd). reflexivity.
    + rewrite skip_ws_newline_indent, Hb. reflexivity.
Qed.

Lemma array_items_last fuel s v r r' :
  scan_once fuel s = Some (v, r) -> skip_ws r = 93 :: r' ->
  array_items (S fuel) s = Some ([v], r').
Proof. intros H1 H2. cbn [array_items]. rewrite H1, H2. reflexivity. Qed.

Lemma array_items_more fuel s v r r' :
  scan_once fuel s = Some (v, r) -> skip_ws r = 44 :: r' ->
  array_items (S fuel) s
  = match array_items fuel (skip_ws r') with
    | Some (vs, r'') => Some (v :: vs, r'')
    | None => None
    end.
Proof. intros H1 H2. cbn [array_items]. rewrite H1, H2. reflexivity. Qed.

Lemma object_items_last fuel s key r r1 v r2 r3 :
  scanstring s = Some (key, r) -> skip_ws r = 58 :: r1 ->
  scan_once fuel (skip_ws r1) = Some (v, r2) -> skip_ws r2 = 125 :: r3 ->
  object_items (S fuel) s = Some ([(key, v)], r3).
Proof.
  intros H1 H2 H3 H4. cbn [object_items]. rewrite H1, H2, H3, H4. reflexivity.
Qed.

Lemma object_items_more fuel s key r r1 v r2 r3 r4 :
  scanstring s = Some (key, r) -> skip_ws r = 58 :: r1 ->
  scan_once fuel (skip_ws r1) = Some (v, r2) -> skip_ws r2 = 44 :: r3 ->
  skip_ws r3 = 34 :: r4 ->
  object_items (S fuel) s
  = match object_items fuel r4 with
    | Some (ps, r5) => Some ((key, v) :: ps, r5)
    | None => None
    end.
Proof.
  intros H1 H2 H3 H4 H5. cbn [object_items].
  rewrite H1, H2, H3, H4, H5. reflexivity.
Qed.

Lemma items_text_cons level v v' l :
  items_text level (v :: v' :: l)
  = encode level v ++ 44 :: newline_indent level ++ items_text level (v' :: l).
Proof. reflexivity. Qed.

Lemma members_text_cons level k v kv d :
  members_text level ((k, v) :: kv :: d)
  = encode_basestring k ++ lit ": " ++ encode level v
    ++ 44 :: newline_indent level ++ members_text level (kv :: d).
Proof. reflexivity. Qed.

Lemma lit_colon s : lit ": " ++ s = 58 :: 32 :: s.
Proof. reflexivity. Qed.

Lemma skip_ws_items level v l s :
  skip_ws (items_text level (v :: l) ++ s) = items_text level (v :: l) ++ s.
Proof. cbn [items_text]. rewrite <- app_assoc. apply skip_ws_encode. Qed.

Lemma decodes_items fuel : decodes fuel ->
  forall l level k rest,
     l <> [] -> (items_size l <= S fuel)%nat -> all_keys_ok l ->
     array_items (S fuel) (items_text level l ++ newline_indent k ++ 93 :: rest)
     = Some (l, rest).
Proof.
  intros (IHv & IHl & IHd) l level k rest Hne Hsize Hkeys.
  destruct l as [|v l]; [congruence|]. clear Hne.
  destruct Hkeys as [Hv Hl]. unfold items_size in Hsize. simpl in Hsize.
  pose proof (size_pos v) as Hpos.
  destruct l as [|v' l].
  - cbn [items_text]. rewrite app_nil_r.
    apply (array_items_last _ _ v (newline_indent k ++ 93 :: rest)).
    + apply IHv; [lia | exact Hv | apply follows_newline].
    + apply skip_ws_newline_indent.
  - rewrite items_text_cons, <- app_assoc. cbn [app]. rewrite <- app_assoc.
    rewrite (array_items_more _ _ v
               (44 :: newline_indent level ++ items_text level (v' :: l)
                   ++ newline_indent k ++ 93 :: rest)
               (newline_indent level ++ items_text level (v' :: l)
                   ++ newline_indent k ++ 93 :: rest)).
    + rewrite skip_ws_newline_indent, skip_ws_items.
      rewrite IHl; [reflexivity | discriminate | | exact Hl].
      unfold items_size. simpl. simpl in Hsize. lia.
    + apply IHv; [lia | exact Hv | apply follows_comma].
    + reflexivity.
Qed.

Lemma decodes_members fuel : decodes fuel ->
  forall d level k rest,
     d <> [] -> (members_size d <= S fuel)%nat -> members_keys_ok d ->
     exists body,
       members_text level d ++ newline_indent k ++ 125 :: rest = 34 :: body /\
       object_items (S fuel) body = Some (d, rest).
Proof.
  intros (IHv & IHl & IHd) d level k rest Hne Hsize Hkeys.
  destruct d as [|[key v] d]; [congruence|]. clear Hne.
  destruct Hkeys as [Hv Hd]. unfold members_size in Hsize. simpl in Hsize.
  pose proof (size_pos v) as Hpos.
  destruct d as [|[key' v'] d].
  - cbn [members_text]. unfold encode_basestring.
    rewrite <- !app_assoc, lit_colon. cbn [app].
    eexists. split; [reflexivity|].
    eapply object_items_last.
    + apply scanstring_escaped.
    + reflexivity.
    + change (skip_ws (32 :: ?x)) with (skip_ws x).
      rewrite skip_ws_encode.
      apply IHv; [lia | exact Hv | apply follows_newline].
    + apply skip_ws_newline_indent.
  - destruct (IHd ((key', v') :: d) level k rest) as (body & Hb & Ho);
      [discriminate | unfold members_size; simpl; simpl in Hsize; lia
       | exact Hd |].
    rewrite members_text_cons. unfold encode_basestring at 1.
    rewrite <- !app_assoc, lit_colon. cbn [app]. rewrite <- !app_assoc.
    eexists. split; [reflexivity|].
    erewrite object_items_more.
    + rewrite Ho. reflexivity.
    + apply scanstring_escaped.
    + reflexivity.
    + change (skip_ws (32 :: ?x)) with (skip_ws x).
      rewrite skip_ws_encode.
      apply IHv; [lia | exact Hv | apply follows_comma].
    + reflexivity.
    + rewrite skip_ws_newline_indent, Hb. reflexivity.
Qed.

Lemma decodes_all fuel : decodes fuel.
Proof.
  induction fuel as [|fuel IH].
  - split; [|split].
    + intros v level rest Hs. pose proof (size_pos v). lia.
    + intros [|v l] level k rest Hne Hs; [congruence|].
      unfold items_size in Hs. simpl in Hs. lia.
    + intros [|kv d] level k rest Hne Hs; [congruence|].
      unfold members_size in Hs. simpl in Hs. lia.
  - split; [|split].
    + apply decodes_value, IH.
    + apply decodes_items, IH.
    + apply decodes_members, IH.
Qed.

End RoundTrip.

(** ** Structural facts about the text *)

Section TextFacts.

Lemma text_ok_app a b : text_ok (a ++ b) <-> text_ok a /\ text_ok b.
Proof.
  unfold text_ok. rewrite forallb_app, andb_true_iff. reflexivity.
Qed.

Lemma text_ok_cons c s : text_ok (c :: s) <-> is_scalar c = true /\ text_ok s.
Proof. unfold text_ok. simpl. rewrite andb_true_iff. reflexivity. Qed.

Lemma text_ok_ascii s : forallb (fun c => c <? 128) s = true -> text_ok s.
Proof.
  unfold text_ok. induction s as [|c s IH]; [reflexivity|]. simpl.
  intros [Hc Hs]%andb_prop. rewrite (IH Hs), andb_true_r.
  unfold is_scalar. apply N.ltb_lt in Hc.
  destruct (N.ltb_spec c 55296); [reflexivity | lia].
Qed.

Lemma text_ok_newline_indent k : text_ok (newline_indent k).
Proof.
  apply text_ok_ascii. unfold newline_indent. simpl.
  induction (k + (k + 0))%nat as [|n IH]; [reflexivity | exact IH].
Qed.

Lemma text_ok_escape_char c : is_scalar c = true -> text_ok (escape_char c).
Proof.
  intros Hc. destruct (N.lt_ge_cases c 32) as [H|H].
  - apply text_ok_ascii. destruct c as [|p]; [reflexivity|].
    do 5 (destruct p as [p|p|]; try reflexivity; try lia).
  - destruct (N.eq_dec c 34) as [->|H34]; [reflexivity|].
    destruct (N.eq_dec c 92) as [->|H92]; [reflexivity|].
    rewrite (escape_char_plain c H H34 H92).
    apply text_ok_cons. split; [exact Hc | reflexivity].
Qed.

Lemma text_ok_encode_basestring s : text_ok s -> text_ok (encode_basestring s).
Proof.
  intros Hs. unfold encode_basestring.
  apply text_ok_app. split; [reflexivity|].
  apply text_ok_app. split; [|reflexivity].
  induction s as [|c s IH]; [reflexivity|].
  apply text_ok_cons in Hs as [Hc Hs].
  rewrite bind_cons. apply text_ok_app. split; [|apply IH, Hs].
  apply text_ok_escape_char, Hc.
Qed.

Lemma text_ok_uint_chars u : forallb (fun c => c <? 128) (uint_chars u) = true.
Proof. induction u; simpl; auto. Qed.

Lemma text_ok_intstr z : text_ok (intstr z).
Proof.
  apply text_ok_ascii. unfold intstr.
  destruct (Z.to_int z); simpl; apply text_ok_uint_chars.
Qed.

Lemma text_ok_encode v : forall level, json_text_ok v -> text_ok (encode level v).
Proof.
  induction v as [|b|z|s|l IH|d IH] using json_nested_ind; intros level Hv.
  - reflexivity.
  - destruct b; reflexivity.
  - unfold encode. cbn [iterencode concat]. rewrite app_nil_r. apply text_ok_intstr.
  - unfold encode. cbn [iterencode concat]. rewrite app_nil_r.
    apply text_ok_encode_basestring, Hv.
  - destruct l as [|v l]; [reflexivity|].
    rewrite encode_list.
    apply text_ok_cons. split; [reflexivity|].
    apply text_ok_app. split; [apply text_ok_newline_indent|].
    apply text_ok_app. split;
      [|apply text_ok_app; split; [apply text_ok_newline_indent|reflexivity]].
    revert Hv. generalize (S level) as lv.
    induction IH as [|x xs Hx _ IHxs]; intros lv Hv; [reflexivity|].
    destruct Hv as [Hvx Hvxs]. cbn [items_text].
    apply text_ok_app. split; [apply Hx, Hvx|].
    destruct xs as [|y ys]; [reflexivity|].
    apply text_ok_cons. split; [reflexivity|].
    apply text_ok_app. split; [apply text_ok_newline_indent|].
    apply IHxs, Hvxs.
  - destruct d as [|[k v] d]; [reflexivity|].
    rewrite encode_dict.
    apply text_ok_cons. split; [reflexivity|].
    apply text_ok_app. split; [apply text_ok_newline_indent|].
    apply text_ok_app. split;
      [|apply text_ok_app; split; [apply text_ok_newline_indent|reflexivity]].
    revert Hv. generalize (S level) as lv.
    induction IH as [|[k' x] xs Hx _ IHxs]; intros lv Hv; [reflexivity|].
    destruct Hv as [[Hk Hvx] Hvxs]. cbn [members_text].
    apply text_ok_app. split; [apply text_ok_encode_basestring, Hk|].
    apply text_ok_app. split; [reflexivity|].
    apply text_ok_app. split; [apply Hx, Hvx|].
    destruct xs as [|y ys]; [reflexivity|].
    apply text_ok_cons. split; [reflexivity|].
    apply text_ok_app. split; [apply text_ok_newline_indent|].
    apply IHxs, Hvxs.
Qed.

Lemma size_le_encode v : forall level, (size v <= length (encode level v))%nat.
Proof.
  induction v as [|b|z|s|l IH|d IH] using json_nested_ind; intros level.
  - simpl. lia.
  - destruct b; simpl; lia.
  - destruct (encode_head level (JInt z)) as (c & r & -> & _). simpl. lia.
  - destruct (encode_head level (JStr s)) as (c & r & -> & _). simpl. lia.
  - destruct l as [|v l]; [simpl; lia|].
    rewrite encode_list. cbn [length size]. rewrite !length_app.
    cbn [length].
    assert (H : (items_size (v :: l) <= S (length (items_text (S level) (v :: l))))%nat).
    { generalize (S level) as lv. clear level.
      induction IH as [|x xs Hx _ IHxs]; intros lv; [simpl; lia|].
      unfold items_size in *. cbn [foldr items_text].
      rewrite length_app. specialize (Hx lv).
      destruct xs as [|y ys]; [simpl; lia|].
      specialize (IHxs lv). cbn [length]. rewrite length_app. lia. }
    unfold items_size in H. lia.
  - destruct d as [|[k v] d]; [simpl; lia|].
    rewrite encode_dict. cbn [length size]. rewrite !length_app.
    cbn [length].
    assert (H : (members_size ((k, v) :: d)
                 <= S (length (members_text (S level) ((k, v) :: d))))%nat).
    { generalize (S level) as lv. clear level.
      induction IH as [|[k' x] xs Hx _ IHxs]; intros lv; [simpl; lia|].
      unfold members_size in *. cbn [foldr members_text].
      rewrite !length_app. specialize (Hx lv). cbn [snd] in *.
      destruct xs as [|y ys]; [simpl; lia|].
      specialize (IHxs lv). cbn [length]. rewrite length_app. lia. }
    unfold members_size in H. lia.
Qed.

Lemma loads_dumps v : keys_ok v -> loads (dumps v) = Some v.
Proof.
  intros Hk. unfold loads, dumps. fold (encode 0 v).
  destruct (encode_head 0 v) as (c & r & Hc & Hws & _ & H128).
  assert (Hbom : starts_with [65279] (encode 0 v) = false).
  { rewrite Hc. change (starts_with [65279] (c :: r)) with ((65279 =? c) && true).
    destruct (N.eqb_spec 65279 c); [lia | reflexivity]. }
  rewrite Hbom.
  pose proof (skip_ws_encode 0 v []) as Hskip. rewrite app_nil_r in Hskip.
  rewrite Hskip.
  destruct (decodes_all (S (length (encode 0 v)))) as (Hv & _ & _).
  specialize (Hv v 0%nat []). rewrite app_nil_r in Hv.
  rewrite Hv; [reflexivity | | exact Hk | exact I].
  pose proof (size_le_encode v 0). lia.
Qed.

End TextFacts.

(** ** UTF-8 *)

Section Utf8.

Ltac Zify.zify_post_hook ::= Z.to_euclidean_division_equations.

Ltac leb_true a b := destruct (N.leb_spec a b); [|lia].
Ltac ltb_false a b := destruct (N.ltb_spec a b); [lia|].

Lemma utf8_decode_two b0 b1 rest :
  194 <= b0 <= 223 -> 128 <= b1 <= 191 ->
  utf8_decode (b0 :: b1 :: rest)
  = cons (b0 mod 32 * 64 + b1 mod 64) <$> utf8_decode rest.
Proof.
  intros H0 H1. cbn [utf8_decode]. unfold in_range.
  ltb_false b0 128. leb_true 194 b0. leb_true b0 223.
  leb_true 128 b1. leb_true b1 191. reflexivity.
Qed.

Lemma utf8_decode_three b0 b1 b2 rest :
  224 <= b0 <= 239 -> 128 <= b1 <= 191 -> 128 <= b2 <= 191 ->
  (b0 = 224 -> 160 <= b1) -> (b0 = 237 -> b1 <= 159) ->
  utf8_decode (b0 :: b1 :: b2 :: rest)
  = cons (b0 mod 16 * 4096 + b1 mod 64 * 64 + b2 mod 64) <$> utf8_decode rest.
Proof.
  intros H0 H1 H2 Hlo Hhi. cbn [utf8_decode]. unfold in_range.
  ltb_false b0 128.
  destruct (N.leb_spec 194 b0); [|lia]. destruct (N.leb_spec b0 223); [lia|].
  cbn [andb]. leb_true 224 b0. leb_true b0 239. cbn [andb].
  leb_true 128 b2. leb_true b2 191.
  destruct (N.eqb_spec b0 224) as [E|E], (N.eqb_spec b0 237) as [E'|E'];
    try lia.
  - specialize (Hlo E). leb_true 160 b1. leb_true b1 191. reflexivity.
  - specialize (Hhi E'). leb_true 128 b1. leb_true b1 159. reflexivity.
  - leb_true 128 b1. leb_true b1 191. reflexivity.
Qed.

Lemma utf8_decode_four b0 b1 b2 b3 rest :
  240 <= b0 <= 244 -> 128 <= b1 <= 191 -> 128 <= b2 <= 191 ->
  128 <= b3 <= 191 ->
  (b0 = 240 -> 144 <= b1) -> (b0 = 244 -> b1 <= 143) ->
  utf8_decode (b0 :: b1 :: b2 :: b3 :: rest)
  = cons (b0 mod 8 * 262144 + b1 mod 64 * 4096 + b2 mod 64 * 64 + b3 mod 64)
      <$> utf8_decode rest.
Proof.
  intros H0 H1 H2 H3 Hlo Hhi. cbn [utf8_decode]. unfold in_range.
  ltb_false b0 128.
  destruct (N.leb_spec 194 b0); [|lia]. destruct (N.leb_spec b0 223); [lia|].
  cbn [andb].
  destruct (N.leb_spec 224 b0); [|lia]. destruct (N.leb_spec b0 239); [lia|].
  cbn [andb]. leb_true 240 b0. leb_true b0 244. cbn [andb].
  leb_true 128 b2. leb_true b2 191. leb_true 128 b3. leb_true b3 191.
  destruct (N.eqb_spec b0 240) as [E|E], (N.eqb_spec b0 244) as [E'|E'];
    try lia.
  - specialize (Hlo E). leb_true 144 b1. leb_true b1 191. reflexivity.
  - specialize (Hhi E'). leb_true 128 b1. leb_true b1 143. reflexivity.
  - leb_true 128 b1. leb_true b1 191. reflexivity.
Qed.

Lemma utf8_decode_char c bs rest :
  utf8_encode_char c = Some bs ->
  utf8_decode (bs ++ rest) = cons c <$> utf8_decode rest.
Proof.
  unfold utf8_encode_char.
  destruct (N.ltb_spec c 128) as [H1|H1].
  { intros [= <-]. cbn [app utf8_decode].
    destruct (N.ltb_spec c 128); [reflexivity | lia]. }
  destruct (N.ltb_spec c 2048) as [H2|H2].
  { intros [= <-]. cbn [app].
    rewrite utf8_decode_two by lia. f_equal. f_equal. lia. }
  destruct (N.ltb_spec c 65536) as [H3|H3].
  { destruct (N.leb_spec 55296 c) as [H4|H4];
      [destruct (N.leb_spec c 57343) as [H5|H5]; [discriminate|]|];
      cbn [andb]; intros [= <-]; cbn [app];
      (rewrite utf8_decode_three by lia); f_equal; f_equal; lia. }
  destruct (N.ltb_spec c 1114112) as [H4|H4]; [|discriminate].
  intros [= <-]. cbn [app].
  rewrite utf8_decode_four by lia. f_equal. f_equal. lia.
Qed.

Lemma utf8_decode_encode s bs :
  utf8_encode s = Some bs -> utf8_decode bs = Some s.
Proof.
  revert bs. induction s as [|c s IH]; intros bs; simpl.
  - intros [= <-]. reflexivity.
  - destruct (utf8_encode_char c) as [b|] eqn:Hc; [|discriminate].
    destruct (utf8_encode s) as [bs'|]; [|discriminate].
    intros [= <-]. rewrite (utf8_decode_char c b bs' Hc), (IH bs' eq_refl).
    reflexivity.
Qed.

Lemma utf8_encode_app a b :
  utf8_encode (a ++ b)
  = match utf8_encode a, utf8_encode b with
    | Some x, Some y => Some (x ++ y)
    | _, _ => None
    end.
Proof.
  induction a as [|c a IH]; simpl.
  - destruct (utf8_encode b); reflexivity.
  - rewrite IH. destruct (utf8_encode_char c), (utf8_encode a), (utf8_encode b);
      try reflexivity. rewrite app_assoc. reflexivity.
Qed.

Lemma utf8_encode_char_scalar c :
  is_scalar c = true -> exists bs, utf8_encode_char c = Some bs.
Proof.
  unfold is_scalar, utf8_encode_char. intros Hc.
  destruct (N.ltb_spec c 128); [eauto|].
  destruct (N.ltb_spec c 2048); [eauto|].
  destruct (N.ltb_spec c 55296) as [Hlow|Hlow].
  - destruct (N.ltb_spec c 65536); [|lia].
    destruct (N.leb_spec 55296 c); [lia|]. eauto.
  - simpl in Hc. apply andb_prop in Hc as [Ha Hb].
    apply N.ltb_lt in Ha, Hb.
    destruct (N.ltb_spec c 65536).
    + destruct (N.leb_spec 55296 c); [|lia].
      destruct (N.leb_spec c 57343); [lia|]. eauto.
    + destruct (N.ltb_spec c 1114112); [eauto | lia].
Qed.

Lemma utf8_encode_text s : text_ok s -> exists bs, utf8_encode s = Some bs.
Proof.
  induction s as [|c s IH]; [exists []; reflexivity|].
  intros [Hc Hs]%text_ok_cons.
  destruct (utf8_encode_char_scalar c Hc) as [b Hb].
  destruct (IH Hs) as [bs Hbs].
  exists (b ++ bs). simpl. rewrite Hb, Hbs. reflexivity.
Qed.

End Utf8.

(** ** The graph behind its JSON object *)

Section Injective.

Lemma value_json_inj v v' : value_json v = value_json v' -> v = v'.
Proof.
  destruct v as [[]|], v' as [[]|]; simpl; intros H;
    try discriminate; try reflexivity; injection H as ->; reflexivity.
Qed.

Lemma role_str_inj r r' : role_str r = role_str r' -> r = r'.
Proof. destruct r, r'; intros H; try reflexivity; vm_compute in H; discriminate. Qed.

Lemma link_type_str_inj t t' : link_type_str t = link_type_str t' -> t = t'.
Proof. destruct t, t'; intros H; try reflexivity; vm_compute in H; discriminate. Qed.

Lemma node_json_inj n n' : node_json n = node_json n' -> n = n'.
Proof.
  destruct n as [i l r t|i l r], n' as [i' l' r' t'|i' l' r']; simpl; intros H.
  - injection H as -> -> Hr Ht.
    rewrite (value_json_inj _ _ Hr), (value_json_inj _ _ Ht). reflexivity.
  - injection H as _ _ H _. vm_compute in H. discriminate.
  - injection H as _ _ H _. vm_compute in H. discriminate.
  - injection H as -> -> Hr. rewrite (role_str_inj _ _ Hr). reflexivity.
Qed.

Lemma link_json_inj l l' : link_json l = link_json l' -> l = l'.
Proof.
  destruct l as [s t ty], l' as [s' t' ty']. unfold link_json. simpl.
  intros H. injection H as -> -> Ht. rewrite (link_type_str_inj _ _ Ht). reflexivity.
Qed.

Lemma fmap_injective {A B} (f : A -> B) (l l' : list A) :
  (forall x y, f x = f y -> x = y) -> f <$> l = f <$> l' -> l = l'.
Proof.
  intros Hf. revert l'. induction l as [|x l IH]; intros [|y l'] H;
    try discriminate; [reflexivity|].
  csimpl in H. injection H as Hx Hl. rewrite (Hf _ _ Hx), (IH _ Hl). reflexivity.
Qed.

Lemma graph_data_inj ns ls ns' ls' :
  graph_data ns ls = graph_data ns' ls' -> ns = ns' /\ ls = ls'.
Proof.
  unfold graph_data. intros H. injection H as Hn Hl. split.
  - exact (fmap_injective _ _ _ node_json_inj Hn).
  - exact (fmap_injective _ _ _ link_json_inj Hl).
Qed.

End Injective.

(** ** Writing the artifact and reading it back *)

Section Artifact.

Lemma write_chunk_ok chunk w old bs :
  fs_exports (w_fs w) = Directory (Some old) ->
  utf8_encode chunk = Some bs ->
  write_chunk chunk w = (Returned tt, with_artifact w (old ++ bs)).
Proof.
  intros Hf Hc. destruct w as [c [x ro msg] q o]. simpl in Hf. subst x.
  unfold write_chunk, mbind, M_bind, get_fs. simpl. rewrite Hc. reflexivity.
Qed.

Lemma write_chunks_ok chunks : forall w old bs,
  fs_exports (w_fs w) = Directory (Some old) ->
  utf8_encode (concat chunks) = Some bs ->
  write_chunks chunks w = (Returned tt, with_artifact w (old ++ bs)).
Proof.
  induction chunks as [|c cs IH]; intros w old bs Hf Hc.
  - simpl in Hc. injection Hc as <-. rewrite app_nil_r.
    destruct w as [c [x ro msg] q o]. simpl in Hf. subst x. reflexivity.
  - cbn [concat] in Hc. rewrite utf8_encode_app in Hc.
    destruct (utf8_encode c) as [bc|] eqn:Ec; [|discriminate].
    destruct (utf8_encode (concat cs)) as [bcs|] eqn:Ecs; [|discriminate].
    injection Hc as <-.
    cbn [write_chunks]. unfold mbind, M_bind.
    rewrite (write_chunk_ok c w old bc Hf Ec).
    rewrite (IH (with_artifact w (old ++ bc)) (old ++ bc) bcs eq_refl eq_refl).
    rewrite <- app_assoc. reflexivity.
Qed.

Lemma write_artifact_ok o w bs :
  fs_read_only (w_fs w) = false ->
  fs_exports (w_fs w) <> NotADirectory ->
  utf8_encode (dumps o) = Some bs ->
  write_artifact o w = (Returned tt, with_artifact w bs).
Proof.
  intros Hro Hdir Hbs. destruct w as [c [x ro msg] q co]. simpl in Hro, Hdir. subst ro.
  unfold write_artifact, json_dump.
  pose proof (fun w => write_chunks_ok (iterencode 0 o) w [] bs) as Hw.
  destruct x as [| |a]; [|congruence|].
  - unfold mbind, M_bind, makedirs_exports, open_graph_json, get_fs, set_fs.
    simpl. unfold mbind, M_bind. simpl. rewrite Hw; [reflexivity..|exact Hbs].
  - unfold mbind, M_bind, makedirs_exports, open_graph_json, get_fs, set_fs.
    simpl. unfold mbind, M_bind. simpl. rewrite Hw; [reflexivity..|exact Hbs].
Qed.

Lemma graph_data_keys_ok ns ls : keys_ok (graph_data ns ls).
Proof.
  unfold graph_data. cbn [keys_ok foldr fmap list_fmap fst snd].
  split; [apply (bool_decide_unpack _); vm_compute; exact I|].
  split; [|split; [|exact I]].
  - induction ns as [|n ns IH]; [exact I|]. csimpl. split; [|exact IH].
    destruct n; cbn [node_json keys_ok foldr snd].
    + split; [apply (bool_decide_unpack _); vm_compute; exact I|].
      destruct released as [[]|], tagline as [[]|]; simpl; tauto.
    + split; [apply (bool_decide_unpack _); vm_compute; exact I|].
      simpl; tauto.
  - induction ls as [|l ls IH]; [exact I|]. csimpl. split; [|exact IH].
    cbn [link_json keys_ok foldr snd].
    split; [apply (bool_decide_unpack _); vm_compute; exact I|].
    simpl; tauto.
Qed.

Lemma value_json_text_ok v : value_text_ok v -> json_text_ok (value_json v).
Proof. destruct v as [[]|]; simpl; auto. Qed.

Lemma graph_data_text_ok ns ls :
  graph_text_ok ns ls -> json_text_ok (graph_data ns ls).
Proof.
  intros [Hn Hl]. unfold graph_data. cbn [json_text_ok foldr fst snd].
  split; [split; [reflexivity|]|split; [split; [reflexivity|]|exact I]].
  - induction Hn as [|n ns Hn _ IH]; [exact I|]. csimpl. split; [|exact IH].
    destruct n as [i l r t|i l r]; cbn [node_json json_text_ok foldr fst snd].
    + destruct Hn as (Hi & Hlab & Hr & Ht).
      repeat split; auto using value_json_text_ok.
    + destruct Hn as (Hi & Hlab).
      repeat split; auto. destruct r; reflexivity.
  - induction Hl as [|l ls Hl _ IH]; [exact I|]. csimpl. split; [|exact IH].
    destruct Hl as [Hs Ht]. cbn [link_json json_text_ok foldr fst snd].
    repeat split; auto. destruct (type l); reflexivity.
Qed.

End Artifact.

Lemma write_then_load ns ls w :
  graph_text_ok ns ls ->
  fs_read_only (w_fs w) = false ->
  fs_exports (w_fs w) <> NotADirectory ->
  exists bs,
    write_artifact (graph_data ns ls) w = (Returned tt, with_artifact w bs) /\
    load_graph_json (w_fs (with_artifact w bs)) = Some (graph_data ns ls).
Proof.
  intros Htext Hro Hdir.
  pose proof (text_ok_encode _ 0 (graph_data_text_ok ns ls Htext)) as Hok.
  destruct (utf8_encode_text _ Hok) as [bs Hbs].
  exists bs. split.
  - apply write_artifact_ok; assumption.
  - unfold load_graph_json, with_artifact. cbn [w_fs fs_exports].
    rewrite (utf8_decode_encode _ _ Hbs).
    apply loads_dumps, graph_data_keys_ok.
Qed.

(** C9: a graph whose texts hold no surrogate code point (non-ASCII
    characters are welcome) is written to [exports/graph.json], and
    reading the file back as UTF-8 JSON gives the structure that was
    dumped; that structure determines the graph: the same nodes and
    links, in the same order, with the same fields. *)
Theorem artifact_round_trip (ns : list GraphNode) (ls : list GraphLink) (w : World) :
  graph_text_ok ns ls ->
  fs_read_only (w_fs w) = false ->
  fs_exports (w_fs w) <> NotADirectory ->
  exists w',
    write_artifact (graph_data ns ls) w = (Returned tt, w') /\
    load_graph_json (w_fs w') = Some (graph_data ns ls) /\
    (forall ns' ls',
       load_graph_json (w_fs w') = Some (graph_data ns' ls') ->
       ns' = ns /\ ls' = ls).
Proof.
  intros Htext Hro Hdir.
  destruct (write_then_load ns ls w Htext Hro Hdir) as (bs & Hw & Hl).
  exists (with_artifact w bs). split; [exact Hw|]. split; [exact Hl|].
  intros ns' ls' Hl'.
  assert (E : graph_data ns ls = graph_data ns' ls') by congruence.
  apply graph_data_inj in E as [-> ->]. split; reflexivity.
Qed.

Lemma artifact_round_trip_witness :
  let ns := [MovieNode (lit "movie_" ++ amelie) amelie (Some (VInt 2001))
               (Some (VStr spirited_away));
             PersonNode (lit "person_" ++ spirited_away) spirited_away Director] in
  let ls := [ {| source := lit "person_" ++ spirited_away;
                 target := lit "movie_" ++ amelie; type := DIRECTED |} ] in
  exists w',
    write_artifact (graph_data ns ls) (world_of (Up sample_store))
    = (Returned tt, w') /\
    load_graph_json (w_fs w') = Some (graph_data ns ls).
Proof.
  intros ns ls.
  destruct (artifact_round_trip ns ls (world_of (Up sample_store)))
    as (w' & Hw & Hl & _).
  - split; repeat constructor.
  - reflexivity.
  - discriminate.
  - exists w'. split; assumption.
Defined.

(** A successful export leaves an artifact that reads back as the graph
    the export built. *)
Lemma generate_graph_json_writes title w st g :
  w_conn w = Up st ->
  export_graph st title = Some (Returned g) ->
  graph_text_ok (nodes g) (links g) ->
  fs_read_only (w_fs w) = false ->
  fs_exports (w_fs w) <> NotADirectory ->
  exists w',
    generate_graph_json title w = (Returned true, w') /\
    load_graph_json (w_fs w') = Some (graph_data (nodes g) (links g)).
Proof.
  intros Hc Hg Htext Hro Hdir. unfold export_graph in Hg.
  destruct (single (cypher_export st title)) as [record|] eqn:Hr; [|discriminate].
  injection Hg as Hg.
  destruct (write_then_load (nodes g) (links g) (sent ExportQuery title w)
              Htext Hro Hdir) as (bs & Hw & Hload).
  eexists. split; [|exact Hload].
  destruct w as [c f q o]. simpl in Hc. subst c.
  unfold generate_graph_json, try_except, mbind, M_bind, session_run. simpl.
  rewrite Hr. unfold lift. rewrite Hg.
  unfold sent in Hw. simpl in Hw. rewrite Hw. reflexivity.
Qed.

(** * Further properties *)

(** ** The result of a search *)

Section SearchResult.

Lemma str_leb_total s t : str_leb s t = false -> str_leb t s = true.
Proof.
  revert t. induction s as [|a s IH]; intros [|b t]; simpl; try discriminate; auto.
  destruct (N.ltb_spec a b), (N.ltb_spec b a), (N.eqb_spec a b), (N.eqb_spec b a);
    simpl; try lia; try discriminate; auto.
Qed.

Lemma cypher_leb_total x y : cypher_leb x y = false -> cypher_leb y x = true.
Proof.
  destruct x as [[a|a|a]|], y as [[b|b|b]|]; simpl; try discriminate; auto.
  - destruct a, b; simpl; auto.
  - intros H. apply Z.leb_gt in H. apply Z.leb_le. lia.
  - apply str_leb_total.
Qed.

Lemma insert_desc_perm x l : insert_desc x l ≡ₚ x :: l.
Proof.
  induction l as [|y l IH]; simpl; [reflexivity|].
  destruct (cypher_leb (sr_released y) (sr_released x)); [reflexivity|].
  rewrite IH. apply Permutation_swap.
Qed.

Lemma order_by_released_desc_perm l : order_by_released_desc l ≡ₚ l.
Proof.
  induction l as [|x l IH]; [reflexivity|].
  unfold order_by_released_desc in *. simpl.
  rewrite insert_desc_perm, IH. reflexivity.
Qed.

Lemma insert_desc_hd x y l :
  record_desc y x -> HdRel record_desc y l -> HdRel record_desc y (insert_desc x l).
Proof.
  intros Hyx Hl. destruct l as [|z l]; simpl; [constructor; exact Hyx|].
  destruct (cypher_leb (sr_released z) (sr_released x)).
  - constructor. exact Hyx.
  - constructor. inversion Hl. assumption.
Qed.

Lemma insert_desc_sorted x l :
  Sorted record_desc l -> Sorted record_desc (insert_desc x l).
Proof.
  induction 1 as [|y l Hl IH Hy]; simpl; [repeat constructor|].
  destruct (cypher_leb (sr_released y) (sr_released x)) eqn:E.
  - constructor; [constructor; assumption|]. constructor. exact E.
  - constructor; [exact IH|].
    apply insert_desc_hd; [|exact Hy]. apply cypher_leb_total, E.
Qed.

Lemma order_by_released_desc_sorted l : Sorted record_desc (order_by_released_desc l).
Proof.
  induction l as [|x l IH]; [constructor|].
  apply insert_desc_sorted, IH.
Qed.

Lemma Sorted_fmap {A B} (R : A -> A -> Prop) (S : B -> B -> Prop) (f : A -> B) l :
  (forall a b, R a b -> S (f a) (f b)) -> Sorted R l -> Sorted S (f <$> l).
Proof.
  intros Hf. induction 1 as [|x l Hl IH Hx]; csimpl; constructor; [exact IH|].
  destruct Hx; csimpl; constructor. auto.
Qed.

Lemma search_movies_up term w st :
  w_conn w = Up st ->
  strip term <> [] ->
  search_movies term w
  = (Returned ((fun record => {| ms_title := sr_title record;
                                 ms_released := sr_released record;
                                 ms_tagline := sr_tagline record |})
               <$> cypher_search st (strip term)),
     sent SearchQuery (strip term) w).
Proof.
  intros Hc Ht. unfold search_movies. rewrite (search_movies_guard _ Ht).
  destruct w as [c f q o]; simpl in Hc; subst c. reflexivity.
Qed.

End SearchResult.

(** X1: with the connection up and a term that is not blank, a search
    returns exactly the movies of the store whose title is a string that
    contains the trimmed term, each of them once: the result is a
    permutation of the summaries of the matching nodes, and every
    returned title is a string with the trimmed term inside. *)
Theorem search_movies_exactly_the_matches (term : list N) (w : World) (st : Store) :
  w_conn w = Up st ->
  strip term <> [] ->
  exists movies,
    (search_movies term w).1 = Returned movies /\
    movies ≡ₚ summary_of_node <$> filter (matches_term (strip term)) (all_nodes st) /\
    (forall m, m ∈ movies ->
       exists t, ms_title m = Some (VStr t) /\ has_substring t (strip term)).
Proof.
  intros Hc Ht. rewrite (search_movies_up term w st Hc Ht). cbn [fst].
  eexists. split; [reflexivity|].
  assert (HP : (fun record => {| ms_title := sr_title record;
                                 ms_released := sr_released record;
                                 ms_tagline := sr_tagline record |})
               <$> cypher_search st (strip term)
               ≡ₚ summary_of_node <$> filter (matches_term (strip term)) (all_nodes st)).
  { unfold cypher_search. rewrite order_by_released_desc_perm.
    rewrite <- list_fmap_compose. reflexivity. }
  split; [exact HP|].
  intros m Hm. rewrite HP in Hm.
  apply list_elem_of_fmap in Hm as (n & -> & Hn).
  apply list_elem_of_filter in Hn as [Hn _].
  unfold matches_term in Hn. apply andb_prop in Hn as [_ Hn].
  unfold title_contains in Hn. unfold summary_of_node. cbn [ms_title].
  destruct (prop n "title") as [[b|z|t]|]; try discriminate.
  exists t. split; [reflexivity | exact Hn].
Qed.

Lemma search_movies_exactly_the_matches_witness :
  exists movies,
    (search_movies (lit " Matrix ") (world_of (Up sample_store))).1 = Returned movies /\
    movies ≡ₚ summary_of_node
              <$> filter (matches_term (lit "Matrix")) (all_nodes sample_store).
Proof.
  destruct (search_movies_exactly_the_matches (lit " Matrix ")
              (world_of (Up sample_store)) sample_store eq_refl)
    as (movies & Hm & Hp & _).
  - vm_compute. discriminate.
  - exists movies. split; [exact Hm|].
    replace (lit "Matrix") with (strip (lit " Matrix ")) by (vm_compute; reflexivity).
    exact Hp.
Defined.

(** X2: the movies a search returns are ordered by [released],
    descending, in Cypher's order of values ([null] first when
    descending): each one may stand before the next. *)
Theorem search_movies_sorted (term : list N) (w : World) (st : Store) :
  w_conn w = Up st ->
  strip term <> [] ->
  exists movies,
    (search_movies term w).1 = Returned movies /\
    Sorted released_desc movies.
Proof.
  intros Hc Ht. rewrite (search_movies_up term w st Hc Ht). cbn [fst].
  eexists. split; [reflexivity|].
  apply (Sorted_fmap record_desc).
  - intros a b H. exact H.
  - apply order_by_released_desc_sorted.
Qed.

Lemma search_movies_sorted_witness :
  exists movies,
    (search_movies (lit "Matrix") (world_of (Up trilogy_store))).1 = Returned movies /\
    ms_title <$> movies = [Some (VStr (lit "The Matrix Revisited"));
                           Some (VStr (lit "The Matrix Reloaded"));
                           Some (VStr (lit "The Matrix"))] /\
    ms_released <$> movies = [None; Some (VInt 2003); Some (VInt 1999)] /\
    Sorted released_desc movies.
Proof.
  destruct (search_movies_sorted (lit "Matrix") (world_of (Up trilogy_store))
              trilogy_store eq_refl) as (movies & E & Hs).
  { vm_compute. discriminate. }
  exists movies. split; [exact E|]. split; [|split; [|exact Hs]].
  - vm_compute in E. injection E as <-. reflexivity.
  - vm_compute in E. injection E as <-. reflexivity.
Defined.

(** ** Details of a movie *)

Section DetailResult.

Lemma cypher_detail_no_movie st title :
  match_movie st title = [] -> cypher_detail st title = [].
Proof. intros H. unfold cypher_detail, detail_rows. rewrite H. reflexivity. Qed.

Lemma filter_distinct `{EqDecision A} (P : A -> Prop) `{!forall x, Decision (P x)}
    (l : list A) :
  filter P (distinct l) = distinct (filter P l).
Proof.
  induction l as [|x l IH]; [reflexivity|].
  cbn [distinct]. rewrite !filter_cons. destruct (decide (P x)) as [Hx|Hx].
  - cbn [distinct]. f_equal. rewrite <- IH, !list_filter_filter.
    apply filter_ext_in. intros y _. tauto.
  - rewrite <- IH, list_filter_filter. apply filter_ext_in.
    intros y _. split; [tauto|]. intros Hy. split; [exact Hy|].
    intros ->. exact (Hx Hy).
Qed.

Lemma omap_filter_unmapped {A B} `{EqDecision A} (f : A -> option B) x (k : list A) :
  f x = None -> omap f (filter (fun y => y <> x) k) = omap f k.
Proof.
  intros Hx. induction k as [|z k IH]; [reflexivity|].
  rewrite filter_cons. destruct (decide (z <> x)) as [Hz|Hz].
  - csimpl. rewrite IH. reflexivity.
  - apply dec_stable in Hz. subst z. csimpl. rewrite Hx. exact IH.
Qed.

Lemma omap_filter_mapped {A B} `{EqDecision A} `{EqDecision B}
    (f : A -> option B) x y (k : list A) :
  f x = Some y ->
  filter (fun b => b <> y) (omap f (filter (fun a => a <> x) k))
  = filter (fun b => b <> y) (omap f k).
Proof.
  intros Hx. induction k as [|z k IH]; [reflexivity|].
  rewrite filter_cons. destruct (decide (z <> x)) as [Hz|Hz].
  - csimpl. destruct (f z); [|exact IH].
    rewrite !filter_cons. rewrite IH. reflexivity.
  - apply dec_stable in Hz. subst z. csimpl. rewrite Hx.
    rewrite filter_cons_False by (intros H; apply H; reflexivity). exact IH.
Qed.

Lemma distinct_omap_distinct {A B} `{EqDecision A} `{EqDecision B}
    (f : A -> option B) (l : list A) :
  distinct (omap f l) = distinct (omap f (distinct l)).
Proof.
  induction l as [|x l IH]; [reflexivity|].
  cbn [distinct]. csimpl. destruct (f x) as [y|] eqn:Hx.
  - cbn [distinct]. f_equal.
    rewrite !(filter_distinct (fun b => b <> y)).
    rewrite (omap_filter_mapped f x y _ Hx).
    rewrite <- !(filter_distinct (fun b => b <> y)), IH. reflexivity.
  - rewrite (omap_filter_unmapped f x _ Hx). exact IH.
Qed.

Lemma omap_bind_optional (ps : list Node) :
  omap (fun p : option Node => n ← p; prop n "name") (optional ps)
  = omap name_of ps.
Proof.
  destruct ps as [|p ps]; [reflexivity|].
  change (optional (p :: ps)) with (Some <$> (p :: ps)).
  induction (p :: ps) as [|q qs IH]; [reflexivity|].
  csimpl. rewrite IH. reflexivity.
Qed.

Lemma collect_directors st m :
  collect_distinct_names (fst <$> person_rows st m)
  = distinct_names (incoming st "DIRECTED" m).
Proof.
  unfold collect_distinct_names, distinct_names, person_rows. f_equal.
  rewrite distinct_omap_distinct, rows_fst by apply optional_not_nil.
  rewrite <- distinct_omap_distinct, omap_bind_optional. reflexivity.
Qed.

Lemma collect_actors st m :
  collect_distinct_names (snd <$> person_rows st m)
  = distinct_names (incoming st "ACTED_IN" m).
Proof.
  unfold collect_distinct_names, distinct_names, person_rows. f_equal.
  rewrite distinct_omap_distinct, rows_snd by apply optional_not_nil.
  rewrite <- distinct_omap_distinct, omap_bind_optional. reflexivity.
Qed.

Lemma filter_not_None {A} (l : list A) :
  filter (fun d : option A => d <> None) (Some <$> l) = Some <$> l.
Proof.
  induction l as [|x l IH]; [reflexivity|].
  csimpl. rewrite filter_cons_True by discriminate. rewrite IH. reflexivity.
Qed.

Lemma cypher_detail_one_movie st title m :
  match_movie st title = [m] ->
  cypher_detail st title
  = [ {| dr_title := prop m "title";
         dr_released := prop m "released";
         dr_tagline := prop m "tagline";
         dr_directors := distinct_names (incoming st "DIRECTED" m);
         dr_actors := distinct_names (incoming st "ACTED_IN" m) |} ].
Proof.
  intros Hm. unfold cypher_detail, detail_rows. rewrite Hm.
  rewrite bind_cons. change ([] ≫= _) with (@nil (Node * (option Node * option Node))).
  rewrite app_nil_r.
  set (rows := r ← person_rows st m; [(m, r)]).
  assert (Hrows : rows = pair m <$> person_rows st m).
  { unfold rows. induction (person_rows st m) as [|r rs IH]; [reflexivity|].
    rewrite bind_cons, IH. reflexivity. }
  assert (Hkeys : distinct ((fun r => detail_key r.1) <$> rows) = [detail_key m]).
  { apply distinct_constant.
    - rewrite Hrows. destruct (person_rows st m) eqn:E;
        [elim (person_rows_not_nil _ _ E) | discriminate].
    - intros k (r & -> & Hr)%list_elem_of_fmap. rewrite Hrows in Hr.
      apply list_elem_of_fmap in Hr as (r' & -> & _). reflexivity. }
  rewrite Hkeys. csimpl. unfold detail_group.
  rewrite filter_all.
  - rewrite Hrows, <- !list_fmap_compose.
    change ((fun r : Node * (option Node * option Node) => r.2.1) ∘ pair m)
      with (@fst (option Node) (option Node)).
    change ((fun r : Node * (option Node * option Node) => r.2.2) ∘ pair m)
      with (@snd (option Node) (option Node)).
    rewrite collect_directors, collect_actors. reflexivity.
  - intros r Hr. rewrite Hrows in Hr.
    apply list_elem_of_fmap in Hr as (r' & -> & _). reflexivity.
Qed.

End DetailResult.

(** X4: a title that names no movie of the store gives [None]; the query
    was sent and nothing is printed (a failed lookup prints an error line
    instead). *)
Theorem get_movie_details_not_found (movie_title : list N) (w : World) (st : Store) :
  w_conn w = Up st ->
  match_movie st movie_title = [] ->
  get_movie_details movie_title w = (Returned None, sent DetailQuery movie_title w).
Proof.
  intros Hc Hm. destruct w as [c f q o]; simpl in Hc; subst c.
  unfold get_movie_details, try_except, mbind, M_bind, session_run. simpl.
  rewrite (cypher_detail_no_movie _ _ Hm). reflexivity.
Qed.

Lemma get_movie_details_not_found_witness :
  get_movie_details (lit "Zorro") (world_of (Up sample_store))
  = (Returned None, sent DetailQuery (lit "Zorro") (world_of (Up sample_store))).
Proof.
  apply (get_movie_details_not_found (lit "Zorro") (world_of (Up sample_store))
           sample_store eq_refl).
  vm_compute. reflexivity.
Defined.

(** X5: for a title that names one movie, the details are the movie's
    [title], [released] and [tagline] and the names of its directors and
    of its actors: every name once, in the order of first occurrence,
    persons without a name left out, never a [None]. *)
Theorem get_movie_details_found (movie_title : list N) (w : World) (st : Store) (m : Node) :
  w_conn w = Up st ->
  match_movie st movie_title = [m] ->
  (get_movie_details movie_title w).1
  = Returned (Some {| md_title := Some (VStr movie_title);
                      md_released := prop m "released";
                      md_tagline := prop m "tagline";
                      md_directors := distinct_names (incoming st "DIRECTED" m);
                      md_actors := distinct_names (incoming st "ACTED_IN" m) |}) /\
  NoDup (distinct_names (incoming st "DIRECTED" m)) /\
  NoDup (distinct_names (incoming st "ACTED_IN" m)).
Proof.
  intros Hc Hm. split.
  - destruct w as [c f q o]; simpl in Hc; subst c.
    unfold get_movie_details, try_except, mbind, M_bind, session_run. simpl.
    rewrite (cypher_detail_one_movie _ _ _ Hm). simpl.
    unfold detail_of_record. simpl. unfold distinct_names.
    rewrite !filter_not_None.
    rewrite (match_movie_title st movie_title m) by (rewrite Hm; left).
    reflexivity.
  - split; apply NoDup_fmap_2, NoDup_distinct; intros x y [= ->]; reflexivity.
Qed.

Lemma get_movie_details_found_witness :
  (get_movie_details (lit "The Matrix") (world_of (Up sample_store))).1
  = Returned (Some {| md_title := Some (VStr (lit "The Matrix"));
                      md_released := Some (VInt 1999);
                      md_tagline := None;
                      md_directors := [Some (VStr (lit "Lana Wachowski"))];
                      md_actors := [Some (VStr (lit "Keanu Reeves"));
                                    Some (VStr (lit "Carrie-Anne Moss"))] |}).
Proof.
  destruct (get_movie_details_found (lit "The Matrix") (world_of (Up sample_store))
              sample_store (mk_node 0 (movie_node "The Matrix" 1999)) eq_refl)
    as [H _].
  - vm_compute. reflexivity.
  - rewrite H. vm_compute. reflexivity.
Defined.

(** ** The loops on any record *)

Section AnyRecord.

#[local] Opaque lit.

Lemma omap_present_cons r rels :
  omap present (r :: rels)
  = match present r with
    | Some p => p :: omap present rels
    | None => omap present rels
    end.
Proof. reflexivity. Qed.

Lemma person_loop_present role mid rels : forall g,
  Forall has_name (omap present rels) ->
  person_loop role mid rels g
  = Returned (loop_result role mid (omap present rels) g).
Proof.
  induction rels as [|r rels IH]; intros g Hn.
  - rewrite loop_result_nil. reflexivity.
  - cbn [person_loop]. rewrite omap_present_cons in Hn |- *.
    unfold present in Hn |- *.
    destruct (person r) as [p|]; [|apply IH, Hn]. cbn [mbind option_bind] in Hn |- *.
    destruct (node_truthy p) eqn:Ht; [|apply IH, Hn].
    apply Forall_cons in Hn as [Hp Hn].
    rewrite (has_name_replace p Hp).
    fold (person_id p). fold (person_name p).
    rewrite IH by exact Hn. f_equal. unfold loop_result. cbn [new_nodes].
    case_bool_decide as Hin; cbn [nodes node_ids links].
    + rewrite <- !app_assoc. f_equal. csimpl. set_solver.
    + rewrite <- !app_assoc. f_equal. csimpl. set_solver.
Qed.

Lemma build_graph_present record t :
  prop (er_m record) "title" = Some (VStr t) ->
  Forall has_name (omap present (er_director_rels record ++ er_actor_rels record)) ->
  build_graph record
  = Returned (loop_result Actor (movie_id (er_m record))
                (omap present (er_actor_rels record))
                (loop_result Director (movie_id (er_m record))
                   (omap present (er_director_rels record))
                   (initial_graph (er_m record)))).
Proof.
  intros Ht Hn. rewrite omap_app in Hn. apply Forall_app in Hn as [Hd Ha].
  unfold build_graph, initial_graph, movie_id. rewrite Ht.
  cbn [value_replace value_str].
  rewrite (person_loop_present Director _ _ _ Hd).
  apply (person_loop_present Actor _ _ _ Ha).
Qed.


Lemma person_loop_error role mid rels g e :
  person_loop role mid rels g = Raised e ->
  exists r' q,
    r' ∈ rels /\ person r' = Some q /\ node_truthy q = true /\ ~ has_name q /\
    e = attribute_error (prop q "name").
Proof.
  revert g. induction rels as [|r rels IH]; intros g; cbn [person_loop];
    [discriminate|].
  assert (Hrest : forall g', person_loop role mid rels g' = Raised e ->
            exists r' q,
              r' ∈ r :: rels /\ person r' = Some q /\ node_truthy q = true /\
              ~ has_name q /\ e = attribute_error (prop q "name")).
  { intros g' H. destruct (IH g' H) as (r' & q & H1 & H2).
    exists r', q. split; [right; exact H1 | exact H2]. }
  destruct (person r) as [p|] eqn:Hp; [|apply Hrest].
  destruct (node_truthy p) eqn:Ht; [|apply Hrest].
  destruct (prop p "name") as [[b|z|s]|] eqn:Hname; cbn [value_replace];
    try apply Hrest;
    intros [= <-]; exists r, p; rewrite Hname;
    (split; [left|]); (split; [exact Hp|]); (split; [exact Ht|]);
    (split; [intros [s' Hs]; congruence | reflexivity]).
Qed.


Lemma replace_space_free s : space_free (replace space underscore s).
Proof.
  unfold space_free, replace. intros (c & Hc & _)%list_elem_of_fmap.
  destruct (N.eqb_spec c space); [discriminate Hc|]. congruence.
Qed.

Lemma prefixed_space_free (pre : string) s :
  space_free (lit pre) -> space_free (lit pre ++ replace space underscore s).
Proof.
  intros Hp [H|H]%elem_of_app; [exact (Hp H) | exact (replace_space_free s H)].
Qed.

#[local] Transparent lit.

Lemma person_prefix_space_free : space_free (lit "person_").
Proof. unfold space_free. vm_compute. set_solver. Qed.

Lemma movie_prefix_space_free : space_free (lit "movie_").
Proof. unfold space_free. vm_compute. set_solver. Qed.

End AnyRecord.

Section AnyGraph.

#[local] Opaque lit.

Lemma person_loop_appends role mid rels : forall g g',
  person_loop role mid rels g = Returned g' ->
  exists new, nodes g' = nodes g ++ new /\ Forall (person_of_role role) new.
Proof.
  induction rels as [|r rels IH]; intros g g'; cbn [person_loop].
  - intros [= <-]. exists []. rewrite app_nil_r. split; [reflexivity | constructor].
  - destruct (person r) as [p|]; [|apply IH].
    destruct (node_truthy p); [|apply IH].
    destruct (prop p "name") as [[b|z|s]|]; cbn [value_replace value_str];
      try discriminate.
    intros H. apply IH in H as (new & Hnodes & Hnew). cbn [nodes] in Hnodes.
    case_bool_decide; cbn [nodes] in Hnodes.
    + eexists. rewrite Hnodes, <- app_assoc. split; [reflexivity|].
      constructor; [|exact Hnew]. exists s. reflexivity.
    + exists new. split; assumption.
Qed.

End AnyGraph.

(** X6: the loops append one link for every entry of the record whose
    person is present and has properties, directors first, each link from
    the person's id to the movie's id; they do not deduplicate (an entry
    that occurs twice gives two links) and skip the entries without a
    person. *)
Theorem build_graph_links_per_entry (record : ExportRecord) (t : list N) :
  prop (er_m record) "title" = Some (VStr t) ->
  Forall has_name (omap present (er_director_rels record ++ er_actor_rels record)) ->
  exists g,
    build_graph record = Returned g /\
    links g
    = (person_link Director (er_m record) <$> omap present (er_director_rels record))
      ++ (person_link Actor (er_m record) <$> omap present (er_actor_rels record)).
Proof.
  intros Ht Hn. eexists. split; [apply (build_graph_present record t Ht Hn)|].
  reflexivity.
Qed.

Lemma build_graph_links_per_entry_witness :
  exists g,
    build_graph repeated_record = Returned g /\
    links g
    = [ {| source := lit "person_Lana_Wachowski"; target := lit "movie_The_Matrix";
           type := DIRECTED |};
        {| source := lit "person_Lana_Wachowski"; target := lit "movie_The_Matrix";
           type := DIRECTED |} ].
Proof.
  destruct (build_graph_links_per_entry repeated_record (lit "The Matrix"))
    as (g & Hg & Hl).
  - vm_compute. reflexivity.
  - repeat constructor; eexists; vm_compute; reflexivity.
  - exists g. split; [exact Hg|]. rewrite Hl. vm_compute. reflexivity.
Defined.

Lemma build_graph_nodes (record : ExportRecord) (g : GraphState) :
  build_graph record = Returned g ->
  exists t ds acs,
    prop (er_m record) "title" = Some (VStr t) /\
    nodes g = MovieNode (lit "movie_" ++ replace space underscore t) t
                (prop (er_m record) "released") (prop (er_m record) "tagline")
              :: ds ++ acs /\
    Forall (person_of_role Director) ds /\
    Forall (person_of_role Actor) acs.
Proof.
  unfold build_graph.
  destruct (prop (er_m record) "title") as [[b|z|t]|]; try discriminate.
  cbn [value_replace value_str].
  destruct (person_loop Director _ (er_director_rels record) _) as [g1|e] eqn:E1;
    [|discriminate].
  intros E2.
  apply person_loop_appends in E1 as (ds & Hd & Hds).
  apply person_loop_appends in E2 as (acs & Ha & Has).
  exists t, ds, acs. split; [reflexivity|].
  rewrite Ha, Hd. cbn [nodes app]. auto.
Qed.

(** X7: in every graph the export builds, the movie node comes first and
    carries the title as its label and [released] and [tagline] as the
    node has them ([None] when absent); after it come the nodes of the
    directors, then those of the actors, all of them person nodes whose
    id is derived from the label. *)
Theorem build_graph_node_order (record : ExportRecord) (g : GraphState) :
  build_graph record = Returned g ->
  exists t ds acs,
    prop (er_m record) "title" = Some (VStr t) /\
    nodes g = MovieNode (lit "movie_" ++ replace space underscore t) t
                (prop (er_m record) "released") (prop (er_m record) "tagline")
              :: ds ++ acs /\
    Forall (person_of_role Director) ds /\
    Forall (person_of_role Actor) acs.
Proof.
  unfold build_graph.
  destruct (prop (er_m record) "title") as [[b|z|t]|]; try discriminate.
  cbn [value_replace value_str].
  destruct (person_loop Director _ (er_director_rels record) _) as [g1|e] eqn:E1;
    [|discriminate].
  intros E2.
  apply person_loop_appends in E1 as (ds & Hd & Hds).
  apply person_loop_appends in E2 as (acs & Ha & Has).
  exists t, ds, acs. split; [reflexivity|].
  rewrite Ha, Hd. cbn [nodes app]. auto.
Qed.

Lemma build_graph_node_order_witness :
  exists g ds acs,
    export_graph sample_store (lit "The Matrix") = Some (Returned g) /\
    nodes g = MovieNode (lit "movie_The_Matrix") (lit "The Matrix")
                (Some (VInt 1999)) None
              :: ds ++ acs /\
    Forall (person_of_role Director) ds /\
    Forall (person_of_role Actor) acs.
Proof.
  destruct (single (cypher_export sample_store (lit "The Matrix"))) as [record|] eqn:R;
    [|vm_compute in R; discriminate].
  destruct (build_graph record) as [g|e] eqn:G;
    [|vm_compute in R; injection R as <-; vm_compute in G; discriminate].
  destruct (build_graph_node_order record g G) as (t & ds & acs & Ht & Hn & Hds & Has).
  exists g, ds, acs.
  split; [unfold export_graph; rewrite R; simpl; rewrite G; reflexivity|].
  split; [|split; assumption].
  rewrite Hn. vm_compute in R. injection R as <-.
  vm_compute in Ht. injection Ht as <-. reflexivity.
Defined.

(** X8: in every graph the export builds, the id of a node is derived
    from its label (["movie_"] or ["person_"], then the label with its
    spaces turned into underscores), and no id of a node and no end of a
    link holds a space. *)
Theorem build_graph_ids_from_labels (record : ExportRecord) (g : GraphState) :
  build_graph record = Returned g ->
  (forall n, n ∈ nodes g -> gn_id n = derived_id n /\ space_free (gn_id n)) /\
  (forall l, l ∈ links g -> space_free (source l) /\ space_free (target l)).
Proof.
  intros Hg.
  assert (Hnodes : forall n, n ∈ nodes g ->
                     gn_id n = derived_id n /\ space_free (gn_id n)).
  { destruct (build_graph_nodes record g Hg)
      as (t & ds & acs & _ & Hn & Hds & Has).
    assert (Hrole : forall role n, person_of_role role n ->
                      gn_id n = derived_id n /\ space_free (gn_id n)).
    { intros role n [l ->]. split; [reflexivity|].
      apply prefixed_space_free, person_prefix_space_free. }
    intros n Hin. rewrite Hn in Hin.
    apply elem_of_cons in Hin as [->|Hin].
    - split; [reflexivity|]. apply prefixed_space_free, movie_prefix_space_free.
    - apply elem_of_app in Hin as [Hin|Hin].
      + rewrite Forall_forall in Hds. exact (Hrole _ _ (Hds n Hin)).
      + rewrite Forall_forall in Has. exact (Hrole _ _ (Has n Hin)). }
  split; [exact Hnodes|].
  intros l Hl. destruct (build_graph_well_formed record g Hg) as [_ Hwf].
  destruct (Hwf l Hl) as [Hs Ht].
  apply list_elem_of_fmap in Hs as (n & -> & Hn).
  apply list_elem_of_fmap in Ht as (n' & -> & Hn').
  split; [apply (Hnodes n Hn) | apply (Hnodes n' Hn')].
Qed.

Lemma build_graph_ids_from_labels_witness :
  exists g,
    build_graph repeated_record = Returned g /\
    (forall n, n ∈ nodes g -> gn_id n = derived_id n /\ space_free (gn_id n)) /\
    (forall l, l ∈ links g -> space_free (source l) /\ space_free (target l)).
Proof.
  destruct (build_graph repeated_record) as [g|e] eqn:G;
    [|vm_compute in G; discriminate].
  exists g. split; [reflexivity|].
  exact (build_graph_ids_from_labels repeated_record g G).
Defined.




(** ** What a [True] from the export means *)

Section ArtifactInversion.

Lemma write_chunk_inv chunk w w' :
  write_chunk chunk w = (Returned tt, w') ->
  exists old bs,
    fs_exports (w_fs w) = Directory (Some old) /\
    utf8_encode chunk = Some bs /\
    w' = with_artifact w (old ++ bs).
Proof.
  destruct w as [c [x ro msg] q o].
  unfold write_chunk, mbind, M_bind, get_fs, set_fs, raise. simpl.
  destruct (utf8_encode chunk) as [bs|]; [|discriminate].
  destruct x as [| |[old|]]; try discriminate.
  intros [= <-]. exists old, bs. repeat split.
Qed.

Lemma write_chunks_inv chunks : forall w w' old,
  fs_exports (w_fs w) = Directory (Some old) ->
  write_chunks chunks w = (Returned tt, w') ->
  exists bs,
    utf8_encode (concat chunks) = Some bs /\
    w' = with_artifact w (old ++ bs).
Proof.
  induction chunks as [|c cs IH]; intros w w' old Hf Hw.
  - injection Hw as <-. exists []. split; [reflexivity|].
    rewrite app_nil_r. destruct w as [c [x ro msg] q o]. simpl in Hf. subst x.
    reflexivity.
  - cbn [write_chunks] in Hw. unfold mbind, M_bind in Hw.
    destruct (write_chunk c w) as [[[]|e] w1] eqn:E1; [|discriminate].
    apply write_chunk_inv in E1 as (old' & bc & Hf' & Ec & ->).
    rewrite Hf in Hf'. injection Hf' as <-.
    destruct (IH (with_artifact w (old ++ bc)) w' (old ++ bc) eq_refl Hw)
      as (bcs & Ecs & ->).
    exists (bc ++ bcs). split.
    + cbn [concat]. rewrite utf8_encode_app, Ec, Ecs. reflexivity.
    + rewrite <- app_assoc. reflexivity.
Qed.

Lemma write_artifact_inv o w w' :
  write_artifact o w = (Returned tt, w') ->
  exists bs,
    fs_read_only (w_fs w) = false /\
    fs_exports (w_fs w) <> NotADirectory /\
    utf8_encode (dumps o) = Some bs /\
    w' = with_artifact w bs.
Proof.
  destruct w as [c [x ro msg] q co].
  unfold write_artifact, json_dump.
  unfold mbind at 1 2, M_bind at 1 2, makedirs_exports, open_graph_json.
  unfold mbind at 1 2, M_bind at 1 2, get_fs, set_fs, raise. simpl.
  destruct x as [| |a]; [|discriminate|]; destruct ro; try discriminate; simpl.
  - intros Hw. apply (write_chunks_inv _ _ _ []) in Hw as (bs & Hbs & ->);
      [|reflexivity].
    exists bs. repeat split; [discriminate|exact Hbs].
  - intros Hw. apply (write_chunks_inv _ _ _ []) in Hw as (bs & Hbs & ->);
      [|reflexivity].
    exists bs. repeat split; [discriminate|exact Hbs].
Qed.

Lemma generate_graph_json_bytes title w st g bs :
  w_conn w = Up st ->
  export_graph st title = Some (Returned g) ->
  fs_read_only (w_fs w) = false ->
  fs_exports (w_fs w) <> NotADirectory ->
  utf8_encode (dumps (graph_data (nodes g) (links g))) = Some bs ->
  generate_graph_json title w
  = (Returned true, with_artifact (sent ExportQuery title w) bs).
Proof.
  intros Hc Hg Hro Hdir Hbs. unfold export_graph in Hg.
  destruct (single (cypher_export st title)) as [record|] eqn:Hr; [|discriminate].
  injection Hg as Hg.
  pose proof (write_artifact_ok (graph_data (nodes g) (links g))
                (sent ExportQuery title w) bs Hro Hdir Hbs) as Hw.
  destruct w as [c f q o]. simpl in Hc. subst c.
  unfold generate_graph_json, try_except, mbind, M_bind, session_run. simpl.
  rewrite Hr. unfold lift. rewrite Hg.
  unfold sent in Hw. simpl in Hw. rewrite Hw. reflexivity.
Qed.

Lemma generate_graph_json_true_inv title w w' :
  generate_graph_json title w = (Returned true, w') ->
  exists st g bs,
    w_conn w = Up st /\
    export_graph st title = Some (Returned g) /\
    fs_read_only (w_fs w) = false /\
    fs_exports (w_fs w) <> NotADirectory /\
    utf8_encode (dumps (graph_data (nodes g) (links g))) = Some bs /\
    w' = with_artifact (sent ExportQuery title w) bs.
Proof.
  intros H. destruct w as [c f q o].
  unfold generate_graph_json, try_except, mbind, M_bind, session_run in H.
  cbn [w_conn w_fs w_queries w_console] in H.
  destruct c as [st|e]; [|destruct (is_exception e); discriminate H].
  destruct (single (cypher_export st title)) as [record|] eqn:Hr;
    [|discriminate H].
  unfold lift in H.
  destruct (build_graph record) as [g|e] eqn:Hg;
    [|destruct (is_exception e); discriminate H].
  match type of H with
  | context [write_artifact ?o ?w0] =>
      destruct (write_artifact o w0) as [[[]|e] w1] eqn:Hw;
        [|destruct (is_exception e); discriminate H]
  end.
  injection H as <-.
  apply write_artifact_inv in Hw as (bs & Hro & Hdir & Hbs & ->).
  exists st, g, bs.
  split; [reflexivity|].
  split; [unfold export_graph; rewrite Hr, <- Hg; reflexivity|].
  split; [exact Hro|]. split; [exact Hdir|]. split; [exact Hbs|reflexivity].
Qed.

End ArtifactInversion.

(** X10: [generate_graph_json] returns [True] only when the movie was
    found and its graph was built; then nothing was printed, one query
    was sent, and [exports/graph.json] reads back, as UTF-8 JSON, as the
    nodes and links of that graph. *)
Theorem generate_graph_json_true_artifact
    (movie_title : list N) (w w' : World) :
  generate_graph_json movie_title w = (Returned true, w') ->
  exists st g,
    w_conn w = Up st /\
    export_graph st movie_title = Some (Returned g) /\
    load_graph_json (w_fs w') = Some (graph_data (nodes g) (links g)) /\
    w_console w' = w_console w /\
    w_queries w' = w_queries w ++ [(ExportQuery, movie_title)].
Proof.
  intros H.
  apply generate_graph_json_true_inv in H
    as (st & g & bs & Hc & Hg & _ & _ & Hbs & ->).
  exists st, g. split; [exact Hc|]. split; [exact Hg|]. split; [|split; reflexivity].
  unfold load_graph_json, with_artifact. cbn [w_fs fs_exports].
  rewrite (utf8_decode_encode _ _ Hbs).
  apply loads_dumps, graph_data_keys_ok.
Qed.

Lemma generate_graph_json_true_artifact_witness :
  exists w' st g,
    generate_graph_json (lit "The Matrix") (world_of (Up sample_store))
    = (Returned true, w') /\
    export_graph st (lit "The Matrix") = Some (Returned g) /\
    load_graph_json (w_fs w') = Some (graph_data (nodes g) (links g)).
Proof.
  destruct (generate_graph_json (lit "The Matrix") (world_of (Up sample_store)))
    as [r w'] eqn:E.
  assert (Hr : r = Returned true).
  { apply (f_equal fst) in E. simpl in E. rewrite <- E. vm_compute. reflexivity. }
  subst r.
  destruct (generate_graph_json_true_artifact _ _ _ E)
    as (st & g & _ & Hg & Hl & _).
  exists w', st, g. split; [reflexivity|]. split; assumption.
Defined.

(** X11: exporting again after a successful export, with the store
    unchanged, succeeds again and leaves the same bytes in
    [exports/graph.json]. *)
Theorem generate_graph_json_again (movie_title : list N) (w w' : World) :
  generate_graph_json movie_title w = (Returned true, w') ->
  exists w'',
    generate_graph_json movie_title w' = (Returned true, w'') /\
    w_fs w'' = w_fs w'.
Proof.
  intros H.
  apply generate_graph_json_true_inv in H
    as (st & g & bs & Hc & Hg & Hro & _ & Hbs & ->).
  eexists. split.
  - apply (generate_graph_json_bytes movie_title _ st g bs);
      [exact Hc|exact Hg|exact Hro|discriminate|exact Hbs].
  - reflexivity.
Qed.

Lemma generate_graph_json_again_witness :
  exists w' w'',
    generate_graph_json (lit "The Matrix") (world_of (Up sample_store))
    = (Returned true, w') /\
    generate_graph_json (lit "The Matrix") w' = (Returned true, w'') /\
    w_fs w'' = w_fs w'.
Proof.
  destruct (generate_graph_json (lit "The Matrix") (world_of (Up sample_store)))
    as [r w'] eqn:E.
  assert (Hr : r = Returned true).
  { apply (f_equal fst) in E. simpl in E. rewrite <- E. vm_compute. reflexivity. }
  subst r.
  destruct (generate_graph_json_again _ _ _ E) as (w'' & H2 & Hfs).
  exists w', w''. split; [reflexivity|]. split; assumption.
Defined.

(** ** The console functions and the methods as [main] sees them *)

Section Silent.

Lemma silent_ret {A} (a : A) : silent (mret a).
Proof. intros w. exists a, w. repeat split. Qed.

Lemma silent_print line : silent (print line).
Proof. intros w. eexists _, _. repeat split. Qed.

Lemma silent_bind {A B} (m : M A) (f : A -> M B) :
  silent m -> (forall a, silent (f a)) -> silent (m ≫= f).
Proof.
  intros Hm Hf w. destruct (Hm w) as (a & w1 & E & Hc & Hfs & Hq).
  destruct (Hf a w1) as (b & w2 & E2 & Hc2 & Hfs2 & Hq2).
  exists b, w2. unfold mbind, M_bind. rewrite E, E2.
  repeat split; congruence.
Qed.

Lemma silent_print_menu : silent print_menu.
Proof. unfold print_menu. repeat (apply silent_bind; [apply silent_print|intros _]).
  apply silent_print. Qed.

Lemma silent_print_movies_from movies : forall idx, silent (print_movies_from idx movies).
Proof.
  induction movies as [|m ms IH]; intros idx; [apply silent_ret|].
  cbn [print_movies_from]. apply silent_bind; [apply silent_print|intros _; apply IH].
Qed.

Lemma silent_print_movie_list movies : silent (print_movie_list movies).
Proof.
  destruct movies as [|m ms]; [apply silent_print|].
  unfold print_movie_list. apply silent_bind; [apply silent_print|intros _].
  apply silent_print_movies_from.
Qed.

Lemma silent_print_bullets xs : silent (print_bullets xs).
Proof.
  induction xs as [|x xs IH]; [apply silent_ret|].
  cbn [print_bullets]. apply silent_bind; [apply silent_print|intros _; apply IH].
Qed.

Lemma silent_print_movie_details details : silent (print_movie_details details).
Proof.
  unfold print_movie_details.
  repeat first
    [ apply silent_print
    | apply silent_ret
    | apply silent_print_bullets
    | apply silent_bind; [|intros _]
    | match goal with
      | |- silent (if ?b then _ else _) => destruct b
      | |- silent (match ?l with [] => _ | _ :: _ => _ end) => destruct l
      end ].
Qed.

Lemma contains_refl s : contains s s = true.
Proof.
  assert (H : starts_with s s = true) by (induction s as [|c s IH]; simpl;
    [reflexivity | rewrite N.eqb_refl; exact IH]).
  destruct s; simpl in *; [reflexivity|]. rewrite H. reflexivity.
Qed.

Lemma cypher_search_titles st term record :
  record ∈ cypher_search st term ->
  exists t, sr_title record = Some (VStr t) /\ has_substring t term.
Proof.
  unfold cypher_search. rewrite order_by_released_desc_perm.
  intros Hr. apply list_elem_of_fmap in Hr as (n & -> & Hn).
  apply list_elem_of_filter in Hn as [Hn _].
  apply andb_prop in Hn as [_ Hn].
  unfold title_contains in Hn. cbn [sr_title].
  destruct (prop n "title") as [[b|z|t]|]; try discriminate.
  exists t. split; [reflexivity | exact Hn].
Qed.

Lemma search_movies_seen term w :
  strip term <> [] ->
  conn_caught (w_conn w) ->
  exists movies w',
    search_movies term w = (Returned movies, w') /\
    w_conn w' = w_conn w /\ w_fs w' = w_fs w /\
    w_queries w' = w_queries w ++ [(SearchQuery, strip term)] /\
    (forall movie, movie ∈ movies ->
       exists t, ms_title movie = Some (VStr t) /\ has_substring t (strip term)).
Proof.
  intros Ht Hcaught. destruct (w_conn w) as [st|e] eqn:Hc.
  - eexists _, _. split; [apply (search_movies_up term w st Hc Ht)|].
    repeat split; [exact Hc|].
    intros movie Hm. apply list_elem_of_fmap in Hm as (record & -> & Hr).
    exact (cypher_search_titles _ _ _ Hr).
  - eexists _, _. split; [apply (search_movies_down w e Hc Hcaught term Ht)|].
    repeat split; [exact Hc|]. intros movie Hm. elim (not_elem_of_nil _ Hm).
Qed.

Lemma get_movie_details_seen title w :
  conn_caught (w_conn w) ->
  exists details w',
    get_movie_details title w = (Returned details, w') /\
    w_conn w' = w_conn w /\ w_fs w' = w_fs w /\
    w_queries w' = w_queries w ++ [(DetailQuery, title)].
Proof.
  destruct w as [[st|e] f q o]; intros Hcaught.
  - unfold get_movie_details, try_except, mbind, M_bind, session_run. simpl.
    destruct (single (cypher_detail st title)); eexists _, _; repeat split.
  - rewrite (get_movie_details_down
               {| w_conn := Down e; w_fs := f; w_queries := q; w_console := o |}
               e eq_refl Hcaught).
    eexists _, _; repeat split.
Qed.

Lemma write_chunk_frame chunk w :
  exists f,
    (write_chunk chunk w).2 = (set_fs f w).2 /\
    match (write_chunk chunk w).1 with
    | Returned _ => True
    | Raised e => is_exception e = true
    end.
Proof.
  unfold write_chunk, mbind, M_bind, get_fs, set_fs, raise.
  destruct w as [c [x ro msg] q co]. simpl.
  destruct (utf8_encode chunk), x as [| |[old|]]; eexists; split; reflexivity.
Qed.

Lemma write_chunks_frame chunks : forall w,
  exists f,
    (write_chunks chunks w).2 = (set_fs f w).2 /\
    match (write_chunks chunks w).1 with
    | Returned _ => True
    | Raised e => is_exception e = true
    end.
Proof.
  induction chunks as [|c cs IH]; intros w.
  - exists (w_fs w). destruct w; split; reflexivity.
  - cbn [write_chunks]. unfold mbind, M_bind.
    destruct (write_chunk_frame c w) as (f1 & E1 & C1).
    destruct (write_chunk c w) as [[[]|e] w1]; cbn [fst snd] in E1, C1; subst w1.
    + destruct (IH (set_fs f1 w).2) as (f2 & E2 & C2). exists f2.
      rewrite E2. split; [reflexivity | exact C2].
    + exists f1. split; [reflexivity | exact C1].
Qed.

Lemma write_artifact_frame o w :
  exists f,
    (write_artifact o w).2 = (set_fs f w).2 /\
    match (write_artifact o w).1 with
    | Returned _ => True
    | Raised e => is_exception e = true
    end.
Proof.
  unfold write_artifact, json_dump.
  unfold mbind at 1 2 3 4, M_bind at 1 2 3 4, makedirs_exports, open_graph_json.
  unfold mbind, M_bind, get_fs, set_fs, raise.
  destruct w as [c [x ro msg] q co]. simpl.
  destruct x as [| |a], ro; simpl;
    try (eexists; split; reflexivity);
    match goal with
    | |- context [write_chunks ?cs ?w0] =>
        destruct (write_chunks_frame cs w0) as (f & Hf & Cf);
        destruct (write_chunks cs w0) as [[[]|e] w1]; simpl in Hf, Cf |- *;
        subst w1; eexists; (split; [reflexivity | first [exact I | exact Cf]])
    end.
Qed.

Lemma build_graph_raised record e :
  build_graph record = Raised e -> is_exception e = true.
Proof.
  unfold build_graph.
  destruct (prop (er_m record) "title") as [[b|z|t]|]; cbn [value_replace];
    try (intros [= <-]; reflexivity).
  destruct (person_loop Director _ (er_director_rels record) _) as [g1|e1] eqn:E.
  - intros E2. destruct (person_loop_error _ _ _ _ _ E2) as (r & q & _ & _ & _ & _ & ->).
    reflexivity.
  - intros [= <-]. destruct (person_loop_error _ _ _ _ _ E) as (r & q & _ & _ & _ & _ & ->).
    reflexivity.
Qed.

Lemma generate_graph_json_seen title w :
  conn_caught (w_conn w) ->
  exists ok w',
    generate_graph_json title w = (Returned ok, w') /\
    w_conn w' = w_conn w /\
    w_queries w' = w_queries w ++ [(ExportQuery, title)].
Proof.
  destruct w as [[st|e] f q o]; intros Hcaught.
  - unfold generate_graph_json, try_except, mbind, M_bind, session_run.
    cbn [w_conn w_fs w_queries w_console].
    destruct (single (cypher_export st title)) as [record|];
      [|eexists _, _; repeat split].
    unfold lift. destruct (build_graph record) as [g|e] eqn:Hg.
    2: { rewrite (build_graph_raised _ _ Hg). eexists _, _; repeat split. }
    match goal with
    | |- context [write_artifact ?o ?w0] =>
        destruct (write_artifact_frame o w0) as (f' & Hf & Cf);
        destruct (write_artifact o w0) as [[[]|e] w1]
    end; cbn [fst snd] in Hf, Cf; subst w1.
    + eexists _, _; repeat split.
    + rewrite Cf. eexists _, _; repeat split.
  - rewrite (generate_graph_json_down
               {| w_conn := Down e; w_fs := f; w_queries := q; w_console := o |}
               e eq_refl Hcaught).
    eexists _, _; repeat split.
Qed.

End Silent.

(** ** Reasoning about the process *)

Section Hoare.

Context {A B : Type}.

Lemma hoare_weaken (Pre Pre' : Process -> Prop) (m : P A)
    (Post Post' : A -> Process -> Prop) (Exc Exc' : exn -> Process -> Prop) :
  hoare Pre' m Post' Exc' ->
  (forall p, Pre p -> Pre' p) ->
  (forall a p, Post' a p -> Post a p) ->
  (forall e p, Exc' e p -> Exc e p) ->
  hoare Pre m Post Exc.
Proof.
  intros H HP HQ HE p Hp. specialize (H p (HP p Hp)).
  destruct (m p) as [[a|e] p']; auto.
Qed.

Lemma hoare_pre (Pre Pre' : Process -> Prop) (m : P A)
    (Post : A -> Process -> Prop) (Exc : exn -> Process -> Prop) :
  (forall p, Pre p -> Pre' p) ->
  hoare Pre' m Post Exc ->
  hoare Pre m Post Exc.
Proof. intros HP H p Hp. apply H, HP, Hp. Qed.

Lemma hoare_ret (Pre : Process -> Prop) (a : A) Post Exc :
  (forall p, Pre p -> Post a p) -> hoare Pre (mret a) Post Exc.
Proof. intros H p Hp. apply H, Hp. Qed.

Lemma hoare_throw (Pre : Process -> Prop) (e : exn) (Post : A -> Process -> Prop) Exc :
  (forall p, Pre p -> Exc e p) -> hoare Pre (throw e) Post Exc.
Proof. intros H p Hp. apply H, Hp. Qed.

Lemma hoare_bind (Pre : Process -> Prop) (m : P A) (f : A -> P B)
    (Mid : A -> Process -> Prop) (Post : B -> Process -> Prop) Exc :
  hoare Pre m Mid Exc ->
  (forall a, hoare (Mid a) (f a) Post Exc) ->
  hoare Pre (m ≫= f) Post Exc.
Proof.
  intros Hm Hf p Hp. specialize (Hm p Hp). unfold mbind, P_bind.
  destruct (m p) as [[a|e] p1]; [apply (Hf a p1 Hm) | exact Hm].
Qed.

Lemma hoare_catching (Pre : Process -> Prop) caught (body : P A) handler
    (Post : A -> Process -> Prop) (Mid Exc : exn -> Process -> Prop) :
  hoare Pre body Post Mid ->
  (forall e, caught e = true -> hoare (Mid e) (handler e) Post Exc) ->
  (forall e p, caught e = false -> Mid e p -> Exc e p) ->
  hoare Pre (catching caught body handler) Post Exc.
Proof.
  intros Hb Hh Hn p Hp. specialize (Hb p Hp). unfold catching.
  destruct (body p) as [[a|e] p1]; [exact Hb|].
  destruct (caught e) eqn:Hc; [apply (Hh e Hc p1 Hb) | apply (Hn e p1 Hc Hb)].
Qed.

Lemma hoare_run (Pre : Process -> Prop) (m : M A) Post Exc :
  (forall p, Pre p ->
     match m (p_world p) with
     | (Returned a, w) => Post a (set_world w p)
     | (Raised e, w) => Exc e (set_world w p)
     end) ->
  hoare Pre (run m) Post Exc.
Proof.
  intros H p Hp. specialize (H p Hp). unfold run.
  destruct (m (p_world p)) as [[a|e] w]; exact H.
Qed.

End Hoare.

Lemma hoare_input (Pre : Process -> Prop) prompt Post Exc :
  (forall p s rest, Pre p -> p_stdin p = Line s :: rest ->
     Post s (set_stdin rest (prompted prompt p))) ->
  (forall p, Pre p -> p_stdin p = [] -> Exc eof_error (prompted prompt p)) ->
  (forall p rest, Pre p -> p_stdin p = CtrlC :: rest ->
     Exc keyboard_interrupt (set_stdin rest (prompted prompt p))) ->
  hoare Pre (input prompt) Post Exc.
Proof.
  intros HL HE HC p Hp. unfold input.
  destruct (p_stdin p) as [|[s|] rest] eqn:E; eauto.
Qed.

(** ** What the turns keep *)

Section Keeping.

Variable keys0 : list key.
Variable d0 : driver_state.
Variable c0 : Conn.
Variable f0 : FS.
Variable q0 : list (Query * list N).

Lemma justified_more new more t : justified new t -> justified (new ++ more) t.
Proof.
  intros (term & Hin & H1). exists term.
  split; [apply elem_of_app; left; exact Hin | exact H1].
Qed.

Lemma well_logged_nil : well_logged [].
Proof. intros pre q t post E. destruct pre; discriminate. Qed.

Lemma well_logged_snoc new q t :
  well_logged new ->
  match q with
  | SearchQuery => t <> [] /\ strip t = t
  | DetailQuery | ExportQuery => justified new t
  end ->
  well_logged (new ++ [(q, t)]).
Proof.
  intros Hw Hq pre q' t' post E.
  destruct post as [|x post] using rev_ind.
  - apply app_inj_tail in E as [<- [= <- <-]]. exact Hq.
  - rewrite app_comm_cons, app_assoc in E. apply app_inj_tail in E as [-> _].
    exact (Hw pre q' t' post eq_refl).
Qed.

Lemma known_more new more movie : known new movie -> known (new ++ more) movie.
Proof. intros (t & Ht & Hj). exists t. split; [exact Ht | apply justified_more, Hj]. Qed.

Lemma handled_eof : handled eof_error.
Proof. reflexivity. Qed.

Lemma handled_interrupt : handled keyboard_interrupt.
Proof. reflexivity. Qed.

Lemma handled_value_error : handled value_error.
Proof. reflexivity. Qed.

Lemma handled_index_error : handled index_error.
Proof. reflexivity. Qed.

Lemma handled_type_error : handled type_error.
Proof. reflexivity. Qed.

Lemma running_le n n' p :
  (n <= n')%nat -> running keys0 d0 c0 f0 q0 n p -> running keys0 d0 c0 f0 q0 n' p.
Proof. intros Hle (H1 & H). split; [lia | exact H]. Qed.

Lemma running_prompted n prompt p :
  running keys0 d0 c0 f0 q0 n p -> running keys0 d0 c0 f0 q0 n (prompted prompt p).
Proof. intros H. exact H. Qed.

Lemma running_read n p k rest :
  running keys0 d0 c0 f0 q0 n p -> p_stdin p = k :: rest ->
  exists n', n = S n' /\ running keys0 d0 c0 f0 q0 n' (set_stdin rest p) /\ k ∈ keys0.
Proof.
  intros (Hn & Hs & H) E. rewrite E in Hn, Hs. simpl in Hn.
  destruct n as [|n']; [lia|]. exists n'. split; [reflexivity|]. split.
  - split; [simpl; lia|]. split; [|exact H].
    simpl. destruct Hs as [pre ->]. exists (pre ++ [k]). rewrite <- app_assoc.
    reflexivity.
  - destruct Hs as [pre ->]. apply elem_of_app. right. left.
Qed.

Lemma running_world n p w' more :
  running keys0 d0 c0 f0 q0 n p ->
  w_conn w' = w_conn (p_world p) ->
  (w_fs w' = w_fs (p_world p) \/ ~ no_export_choice keys0) ->
  w_queries w' = w_queries (p_world p) ++ more ->
  (forall new, w_queries (p_world p) = q0 ++ new ->
     well_logged new ->
     (forall movie, p_selected p = Some movie -> known new movie) ->
     well_logged (new ++ more)) ->
  running keys0 d0 c0 f0 q0 n (set_world w' p).
Proof.
  intros (Hn & Hs & Hd & Hc & Hf & new & Hq & Hj & Hsel) Hc' Hf' Hq' Hmore.
  split; [exact Hn|]. split; [exact Hs|]. split; [exact Hd|].
  split; [simpl; congruence|]. split.
  - intros Hno. simpl. destruct Hf' as [->|Hex]; [auto | contradiction].
  - exists (new ++ more). simpl. split; [rewrite Hq', Hq, app_assoc; reflexivity|].
    split; [apply (Hmore new Hq Hj Hsel)|].
    intros movie Hm. apply known_more, Hsel, Hm.
Qed.

Lemma known_in_world p w' more movie :
  known_in q0 p movie ->
  w_queries w' = w_queries (p_world p) ++ more ->
  known_in q0 (set_world w' p) movie.
Proof.
  intros (new & Hq & Hk) Hq'. exists (new ++ more). simpl.
  split; [rewrite Hq', Hq, app_assoc; reflexivity | apply known_more, Hk].
Qed.

Lemma running_select n p movie :
  running keys0 d0 c0 f0 q0 n p -> known_in q0 p movie ->
  running keys0 d0 c0 f0 q0 n (set_selected (Some movie) p).
Proof.
  intros (Hn & Hs & Hd & Hc & Hf & new & Hq & Hj & Hsel) (new' & Hq' & Hk).
  repeat (split; [assumption|]). exists new. split; [exact Hq|]. split; [exact Hj|].
  simpl. intros m [= <-]. rewrite Hq in Hq'. apply app_inv_head in Hq'. subst new'.
  exact Hk.
Qed.

Lemma between_turns_quiet n last p w' :
  between_turns keys0 d0 c0 f0 q0 n last p ->
  w_conn w' = w_conn (p_world p) ->
  w_fs w' = w_fs (p_world p) ->
  w_queries w' = w_queries (p_world p) ->
  between_turns keys0 d0 c0 f0 q0 n last (set_world w' p).
Proof.
  intros [Hr Hl] Hc Hf Hq. split.
  - apply (running_world n p w' []); auto.
    + rewrite app_nil_r. exact Hq.
    + intros new _ Hw _. rewrite app_nil_r. exact Hw.
  - eapply Forall_impl; [exact Hl|]. intros movie Hm.
    apply (known_in_world p w' []); [exact Hm | rewrite app_nil_r; exact Hq].
Qed.

Lemma keeps_ret {A} n last (a : A) : keeps keys0 d0 c0 f0 q0 n last (mret a).
Proof. apply hoare_ret. auto. Qed.

Lemma keeps_bind {A B} n last (m : P A) (f : A -> P B) :
  keeps keys0 d0 c0 f0 q0 n last m ->
  (forall a, keeps keys0 d0 c0 f0 q0 n last (f a)) ->
  keeps keys0 d0 c0 f0 q0 n last (m ≫= f).
Proof. intros Hm Hf. eapply hoare_bind; [exact Hm | exact Hf]. Qed.

Lemma hoare_silent {A} n last (m : M A) Exc :
  silent m ->
  hoare (between_turns keys0 d0 c0 f0 q0 n last) (run m)
    (fun _ => between_turns keys0 d0 c0 f0 q0 n last) Exc.
Proof.
  intros Hm. apply hoare_run. intros p Hp.
  destruct (Hm (p_world p)) as (a & w' & E & Hc & Hf & Hq). rewrite E.
  apply between_turns_quiet; assumption.
Qed.

Lemma keeps_silent {A} n last (m : M A) :
  silent m -> keeps keys0 d0 c0 f0 q0 n last (run m).
Proof. apply hoare_silent. Qed.

Lemma keeps_say n last line : keeps keys0 d0 c0 f0 q0 n last (say line).
Proof. apply keeps_silent, silent_print. Qed.

Lemma between_turns_le n n' last p :
  (n <= n')%nat -> between_turns keys0 d0 c0 f0 q0 n last p ->
  between_turns keys0 d0 c0 f0 q0 n' last p.
Proof. intros Hle [Hr Hl]. split; [apply (running_le n); assumption | exact Hl]. Qed.

Lemma between_turns_read n last p k rest prompt :
  between_turns keys0 d0 c0 f0 q0 n last p -> p_stdin p = k :: rest ->
  exists n', n = S n' /\
    between_turns keys0 d0 c0 f0 q0 n' last (set_stdin rest (prompted prompt p)) /\
    k ∈ keys0.
Proof.
  intros [Hr Hl] E. destruct (running_read n p _ _ Hr E) as (n' & -> & Hr' & Hk).
  exists n'. split; [reflexivity|]. split; [|exact Hk]. split; [exact Hr' | exact Hl].
Qed.

Lemma keeps_input n last prompt : keeps keys0 d0 c0 f0 q0 n last (input prompt).
Proof.
  apply hoare_input.
  - intros p s rest Hb E.
    destruct (between_turns_read n last p _ _ prompt Hb E) as (n' & -> & Hb' & _).
    apply (between_turns_le n'); [lia | exact Hb'].
  - intros p Hb _. split; [exact Hb | apply handled_eof].
  - intros p rest Hb E.
    destruct (between_turns_read n last p _ _ prompt Hb E) as (n' & -> & Hb' & _).
    split; [apply (between_turns_le n'); [lia | exact Hb'] | apply handled_interrupt].
Qed.

End Keeping.

(** ** The turns of the menu *)

Section TurnSpecs.

Context `{Library}.

Variable keys0 : list key.
Variable d0 : driver_state.
Variable c0 : Conn.
Variable f0 : FS.
Variable q0 : list (Query * list N).
Hypothesis c0_caught : conn_caught c0.

Lemma running_caught n p :
  running keys0 d0 c0 f0 q0 n p -> conn_caught (w_conn (p_world p)).
Proof. intros (_ & _ & _ & -> & _). exact c0_caught. Qed.

Lemma str_truthy_not_nil s : str_truthy s = true -> s <> [].
Proof. destruct s; [discriminate | discriminate]. Qed.

Lemma keeps_ask_number n last prompt :
  keeps keys0 d0 c0 f0 q0 n last (ask_number prompt).
Proof.
  unfold ask_number. apply keeps_bind; [apply keeps_input|]. intros s.
  destruct (py_int (strip s)); [apply keeps_ret|].
  apply hoare_throw. intros p Hb. split; [exact Hb | apply handled_value_error].
Qed.

Lemma index_elem_of {A} (l : list A) i x : index l i = Returned x -> x ∈ l.
Proof.
  unfold index.
  destruct (_ <? 0)%Z; [discriminate|].
  destruct (l !! _) as [y|] eqn:E; [|discriminate].
  intros [= <-]. eapply list_elem_of_lookup_2, E.
Qed.

Lemma index_handled {A} (l : list A) i e : index l i = Raised e -> handled e.
Proof.
  unfold index.
  destruct (_ <? 0)%Z; [intros [= <-]; apply handled_index_error|].
  destruct (l !! _); [discriminate|]. intros [= <-]. apply handled_index_error.
Qed.

Lemma pick_known n last i :
  hoare (between_turns keys0 d0 c0 f0 q0 n last) (pick last i)
    (fun movie p => between_turns keys0 d0 c0 f0 q0 n last p /\ known_in q0 p movie)
    (stopped keys0 d0 c0 f0 q0 n last).
Proof.
  intros p Hb. unfold pick. destruct (index last i) as [movie|e] eqn:E.
  - split; [exact Hb|]. destruct Hb as [_ Hl].
    rewrite Forall_forall in Hl. apply Hl, (index_elem_of _ _ _ E).
  - split; [exact Hb | apply (index_handled _ _ _ E)].
Qed.

Lemma select_known n last movie :
  hoare (fun p => between_turns keys0 d0 c0 f0 q0 n last p /\ known_in q0 p movie)
    (select movie)
    (fun _ p => between_turns keys0 d0 c0 f0 q0 n last p /\ known_in q0 p movie)
    (stopped keys0 d0 c0 f0 q0 n last).
Proof.
  intros p [[Hr Hl] Hk]. unfold select.
  split; [|exact Hk]. split; [apply running_select; assumption | exact Hl].
Qed.

Lemma known_title new movie :
  known new movie -> justified new (title_param movie).
Proof. intros (t & Ht & Hj). unfold title_param. rewrite Ht. exact Hj. Qed.

Lemma choice_search_spec n last :
  hoare (between_turns keys0 d0 c0 f0 q0 n last) (choice_search last)
    (fun r p => exists l, r = Some l /\ between_turns keys0 d0 c0 f0 q0 n l p)
    (stopped keys0 d0 c0 f0 q0 n last).
Proof.
  unfold choice_search. eapply hoare_bind; [apply keeps_input|]. intros line.
  cbv zeta. destruct (str_truthy (strip line)) eqn:E; cbn [negb].
  - eapply (hoare_bind _ _ _ (fun movies p => between_turns keys0 d0 c0 f0 q0 n movies p)).
    + apply hoare_run. intros p [Hr Hl].
      assert (Hne : strip (strip line) <> [])
        by (rewrite strip_idemp; apply str_truthy_not_nil, E).
      destruct (search_movies_seen (strip line) (p_world p) Hne (running_caught n p Hr))
        as (movies & w' & Es & Hc & Hf & Hq & Hm).
      rewrite Es. rewrite strip_idemp in Hq, Hm.
      split.
      * apply (running_world _ _ _ _ _ n p w' [(SearchQuery, strip line)]); auto.
        intros new _ Hw _. apply well_logged_snoc; [exact Hw|].
        split; [apply str_truthy_not_nil, E | apply strip_idemp].
      * destruct Hr as (_ & _ & _ & _ & _ & new & Hnew & _).
        apply Forall_forall. intros movie Hin.
        destruct (Hm movie Hin) as (t & Ht & Hsub).
        exists (new ++ [(SearchQuery, strip line)]). simpl.
        split; [rewrite Hq, Hnew, app_assoc; reflexivity|].
        exists t. split; [exact Ht|]. exists (strip line).
        split; [apply elem_of_app; right; left | exact Hsub].
    + intros movies. eapply hoare_bind;
        [apply hoare_silent, silent_print_movie_list|].
      intros []. apply hoare_ret. eauto.
  - eapply hoare_bind; [apply keeps_say|]. intros []. apply hoare_ret. eauto.
Qed.

Lemma details_query n last movie :
  hoare (fun p => between_turns keys0 d0 c0 f0 q0 n last p /\ known_in q0 p movie)
    (run (get_movie_details (title_param movie)))
    (fun _ => between_turns keys0 d0 c0 f0 q0 n last)
    (stopped keys0 d0 c0 f0 q0 n last).
Proof.
  apply hoare_run. intros p [[Hr Hl] (new & Hnew & Hk)].
  destruct (get_movie_details_seen (title_param movie) (p_world p)
              (running_caught n p Hr))
    as (details & w' & E & Hc & Hf & Hq).
  rewrite E. split.
  - apply (running_world _ _ _ _ _ n p w' [(DetailQuery, title_param movie)]); auto.
    intros new' Hnew' Hw _. rewrite Hnew in Hnew'. apply app_inv_head in Hnew'.
    subst new'. apply well_logged_snoc; [exact Hw|].
    apply known_title, Hk.
  - eapply Forall_impl; [exact Hl|]. intros m Hm.
    apply (known_in_world _ p w' [(DetailQuery, title_param movie)]); assumption.
Qed.

Lemma choice_details_spec n last :
  hoare (between_turns keys0 d0 c0 f0 q0 n last) (choice_details last)
    (fun r p => exists l, r = Some l /\ between_turns keys0 d0 c0 f0 q0 n l p)
    (stopped keys0 d0 c0 f0 q0 n last).
Proof.
  unfold choice_details. destruct last as [|m0 l0].
  { eapply hoare_bind; [apply keeps_say|]. intros []. apply hoare_ret. eauto. }
  set (last := m0 :: l0).
  apply (hoare_catching _ _ _ _ _ (stopped keys0 d0 c0 f0 q0 n last)).
  - eapply hoare_bind; [apply keeps_ask_number|]. intros movie_num.
    destruct (out_of_list movie_num last).
    + eapply hoare_bind; [apply keeps_say|]. intros []. apply hoare_ret. eauto.
    + eapply hoare_bind; [apply pick_known|]. intros movie.
      eapply hoare_bind; [apply select_known|]. intros [].
      eapply hoare_bind; [apply details_query|]. intros details.
      eapply hoare_bind.
      * destruct details as [details|];
          [apply keeps_silent, silent_print_movie_details | apply keeps_say].
      * intros []. apply hoare_ret. eauto.
  - intros e _.
    apply hoare_pre with (Pre' := between_turns keys0 d0 c0 f0 q0 n last);
      [intros p [Hb _]; exact Hb|].
    eapply hoare_bind; [apply keeps_say|]. intros []. apply hoare_ret. eauto.
  - auto.
Qed.

Lemma keeps_selected_movie n last :
  hoare (between_turns keys0 d0 c0 f0 q0 n last) selected_movie
    (fun selected p => between_turns keys0 d0 c0 f0 q0 n last p /\ p_selected p = selected)
    (stopped keys0 d0 c0 f0 q0 n last).
Proof. intros p Hb. split; [exact Hb | reflexivity]. Qed.

Lemma keeps_ensure_selected n last :
  keeps keys0 d0 c0 f0 q0 n last (ensure_selected last).
Proof.
  unfold ensure_selected. eapply hoare_bind; [apply keeps_selected_movie|].
  intros [movie|].
  { apply hoare_ret. intros p [Hb _]. exact Hb. }
  apply hoare_pre with (Pre' := between_turns keys0 d0 c0 f0 q0 n last);
    [intros p [Hb _]; exact Hb|].
  destruct last as [|m0 l0].
  { eapply hoare_bind; [apply keeps_say|]. intros []. apply keeps_ret. }
  set (last := m0 :: l0).
  eapply hoare_bind; [apply keeps_say|]. intros [].
  apply (hoare_catching _ _ _ _ _ (stopped keys0 d0 c0 f0 q0 n last)).
  - eapply hoare_bind; [apply keeps_ask_number|]. intros movie_num.
    destruct (out_of_list movie_num last).
    + eapply hoare_bind; [apply keeps_say|]. intros []. apply keeps_ret.
    + eapply hoare_bind; [apply pick_known|]. intros movie.
      eapply hoare_bind; [apply select_known|]. intros [].
      apply hoare_ret. intros p [Hb _]. exact Hb.
  - intros e _.
    apply hoare_pre with (Pre' := between_turns keys0 d0 c0 f0 q0 n last);
      [intros p [Hb _]; exact Hb|].
    eapply hoare_bind; [apply keeps_say|]. intros []. apply keeps_ret.
  - auto.
Qed.

Lemma keeps_export_selected n last :
  ~ no_export_choice keys0 ->
  keeps keys0 d0 c0 f0 q0 n last export_selected.
Proof.
  intros Hex. unfold export_selected.
  eapply hoare_bind; [apply keeps_selected_movie|].
  intros [movie|].
  2: { apply hoare_throw. intros p [Hb _]. split; [exact Hb | apply handled_type_error]. }
  eapply (hoare_bind _ _ _
            (fun _ p => between_turns keys0 d0 c0 f0 q0 n last p /\
                        p_selected p = Some movie)).
  { apply hoare_run. intros p [Hb Hs]. cbn [print]. split; [|exact Hs].
    apply between_turns_quiet; [exact Hb|reflexivity..]. }
  intros [].
  eapply (hoare_bind _ _ _ (fun _ p => between_turns keys0 d0 c0 f0 q0 n last p)).
  - apply hoare_run. intros p [[Hr Hl] Hs].
    destruct (generate_graph_json_seen (title_param movie) (p_world p)
                (running_caught n p Hr))
      as (ok & w' & E & Hc & Hq).
    rewrite E. split.
    + apply (running_world _ _ _ _ _ n p w' [(ExportQuery, title_param movie)]); auto.
      intros new Hnew Hw Hsel. apply well_logged_snoc; [exact Hw|].
      apply known_title, Hsel, Hs.
    + eapply Forall_impl; [exact Hl|]. intros m Hm.
      apply (known_in_world _ p w' [(ExportQuery, title_param movie)]); assumption.
  - intros ok. destruct ok; apply keeps_say.
Qed.

Lemma choice_export_spec n last :
  ~ no_export_choice keys0 ->
  hoare (between_turns keys0 d0 c0 f0 q0 n last) (choice_export last)
    (fun r p => exists l, r = Some l /\ between_turns keys0 d0 c0 f0 q0 n l p)
    (stopped keys0 d0 c0 f0 q0 n last).
Proof.
  intros Hex. unfold choice_export.
  eapply hoare_bind; [apply keeps_ensure_selected|]. intros selected.
  destruct selected.
  - eapply hoare_bind; [apply keeps_export_selected, Hex|]. intros [].
    apply hoare_ret. eauto.
  - apply hoare_ret. eauto.
Qed.

Lemma turn_spec n last :
  hoare (between_turns keys0 d0 c0 f0 q0 n last) (turn last)
    (fun r p => exists n', n = S n' /\
       match r with
       | Some l => between_turns keys0 d0 c0 f0 q0 n' l p
       | None => between_turns keys0 d0 c0 f0 q0 n' last p
       end)
    (stopped keys0 d0 c0 f0 q0 n last).
Proof.
  unfold turn. eapply hoare_bind; [apply keeps_silent, silent_print_menu|].
  intros [].
  eapply (hoare_bind _ _ _
            (fun line p => exists n', n = S n' /\
               between_turns keys0 d0 c0 f0 q0 n' last p /\ Line line ∈ keys0)).
  { apply hoare_input.
    - intros p s rest Hb E. apply (between_turns_read _ _ _ _ _ n last p _ _ _ Hb E).
    - intros p Hb _. split; [exact Hb | apply handled_eof].
    - intros p rest Hb E.
      destruct (between_turns_read _ _ _ _ _ n last p _ _ choice_prompt Hb E)
        as (n' & -> & Hb' & _).
      split; [apply (between_turns_le _ _ _ _ _ n'); [lia | exact Hb']
             | apply handled_interrupt]. }
  intros line. cbv zeta.
  assert (Hbranch : forall (m : P (option (list MovieSummary))) n',
    hoare (between_turns keys0 d0 c0 f0 q0 n' last) m
      (fun r p => exists l, r = Some l /\ between_turns keys0 d0 c0 f0 q0 n' l p)
      (stopped keys0 d0 c0 f0 q0 n' last) ->
    forall p, between_turns keys0 d0 c0 f0 q0 n' last p ->
      match m p with
      | (Returned r, p') =>
          exists n'', S n' = S n'' /\
            match r with
            | Some l => between_turns keys0 d0 c0 f0 q0 n'' l p'
            | None => between_turns keys0 d0 c0 f0 q0 n'' last p'
            end
      | (Raised e, p') => stopped keys0 d0 c0 f0 q0 (S n') last e p'
      end).
  { intros m n' Hm p Hp. specialize (Hm p Hp).
    destruct (m p) as [[r|e] p'].
    - destruct Hm as (l & -> & Hl). exists n'. split; [reflexivity | exact Hl].
    - destruct Hm as [Hb He]. split; [|exact He].
      apply (between_turns_le _ _ _ _ _ n'); [lia | exact Hb]. }
  intros p (n' & -> & Hb & Hin).
  repeat case_bool_decide.
  - apply Hbranch; [apply choice_search_spec | exact Hb].
  - apply Hbranch; [apply choice_details_spec | exact Hb].
  - apply Hbranch; [apply choice_export_spec | exact Hb].
    intros Hno. apply (Hno line Hin). assumption.
  - pose proof (keeps_say _ _ _ _ _ n' last leaving p Hb) as Hs.
    unfold mbind, P_bind. destruct (say leaving p) as [[[]|e] p'].
    + exists n'. split; [reflexivity | exact Hs].
    + destruct Hs as [Hs He]. split; [|exact He].
      apply (between_turns_le _ _ _ _ _ n'); [lia | exact Hs].
  - apply Hbranch; [|exact Hb].
    eapply hoare_bind; [apply keeps_say|]. intros []. apply hoare_ret. eauto.
Qed.

Lemma while_true_spec fuel : forall n last p,
  (n < fuel)%nat ->
  between_turns keys0 d0 c0 f0 q0 n last p ->
  exists o p' last',
    while_true fuel last p = Some (o, p') /\
    between_turns keys0 d0 c0 f0 q0 n last' p' /\
    match o with
    | Returned _ => True
    | Raised e => handled e
    end.
Proof.
  induction fuel as [|fuel IH]; intros n last p Hn Hb; [lia|].
  cbn [while_true]. pose proof (turn_spec n last p Hb) as Ht.
  destruct (turn last p) as [[[l|]|e] p'].
  - destruct Ht as (n' & -> & Hl).
    destruct (IH n' l p' ltac:(lia) Hl) as (o & p'' & last' & E & Hb' & Ho).
    exists o, p'', last'. split; [exact E|]. split; [|exact Ho].
    apply (between_turns_le _ _ _ _ _ n'); [lia | exact Hb'].
  - destruct Ht as (n' & -> & Hl). exists (Returned tt), p', last.
    split; [reflexivity|]. split; [|exact I].
    apply (between_turns_le _ _ _ _ _ n'); [lia | exact Hl].
  - destruct Ht as [Hs He]. exists (Raised e), p', last. auto.
Qed.

End TurnSpecs.

(** ** [main] from its start *)

Section MainRun.

Context `{Library}.

Lemma startup_spec p :
  match startup p with
  | (Returned true, p1) =>
      p_driver p1 = DriverOpen /\ p_selected p1 = None /\
      conn_caught (w_conn (p_world p1)) /\
      suffix (p_stdin p1) (p_stdin p) /\
      w_fs (p_world p1) = w_fs (p_world p) /\
      w_queries (p_world p1) = w_queries (p_world p)
  | (Returned false, p1) =>
      (p_driver p1 = p_driver p \/ p_driver p1 = DriverClosed) /\
      w_fs (p_world p1) = w_fs (p_world p) /\
      w_queries (p_world p1) = w_queries (p_world p)
  | (Raised e, p1) =>
      (p_driver p1 = p_driver p \/
       (p_driver p1 = DriverOpen /\ is_exception e = false /\
        w_conn (p_world p1) = Down e)) /\
      w_fs (p_world p1) = w_fs (p_world p) /\
      w_queries (p_world p1) = w_queries (p_world p)
  end.
Proof.
  unfold startup, mbind, P_bind, say, run, input, print. cbn.
  destruct (p_stdin p) as [|[l1|] [|[l2|] [|[l3|] rest]]] eqn:E; cbn; auto.
  destruct (str_truthy (strip l3)); cbn; [|auto].
  unfold app_init. destruct (driver _ _ _) as [c|e]; cbn; [|auto].
  unfold test_connection, catching, probe, mbind, P_bind, mret, P_ret. cbn.
  destruct c as [st|e]; cbn.
  - split; [reflexivity|]. split; [reflexivity|]. split; [exact I|]. split; [|auto].
    exists [Line l1; Line l2; Line l3]. reflexivity.
  - destruct (is_exception e) eqn:He.
    + unfold mbind, P_bind, mret, P_ret, say, run, print, close. cbn. auto.
    + cbn. split; [right; auto | auto].
Qed.

Lemma boot_between_turns p1 :
  p_selected p1 = None ->
  between_turns (p_stdin p1) (p_driver p1) (w_conn (p_world p1)) (w_fs (p_world p1))
    (w_queries (p_world p1)) (length (p_stdin p1)) [] p1.
Proof.
  intros Hs. split; [|constructor].
  split; [lia|]. split; [reflexivity|]. split; [reflexivity|]. split; [reflexivity|].
  split; [reflexivity|]. exists []. split; [rewrite app_nil_r; reflexivity|].
  split; [apply well_logged_nil|]. intros movie Hm. congruence.
Qed.

Lemma no_export_choice_suffix keys keys' :
  suffix keys' keys -> no_export_choice keys -> no_export_choice keys'.
Proof.
  intros [pre ->] Hno s Hs. apply Hno, elem_of_app. right. exact Hs.
Qed.

Lemma main_run w keys :
  exists o p',
    main (boot w keys) = Some (o, p') /\
    ((o = Returned tt /\ p_driver p' <> DriverOpen) \/
     (exists e, o = Raised e /\ p_driver p' = NoDriver) \/
     (exists e, o = Raised e /\ is_exception e = false /\
                w_conn (p_world p') = Down e /\ p_driver p' = DriverOpen)) /\
    (no_export_choice keys -> w_fs (p_world p') = w_fs w) /\
    exists new,
      w_queries (p_world p') = w_queries w ++ new /\
      well_logged new.
Proof.
  unfold main. pose proof (startup_spec (boot w keys)) as Hs.
  destruct (startup (boot w keys)) as [[[|]|e] p1].
  - destruct Hs as (Hd & Hsel & Hcaught & Hsuf & Hf & Hq).
    destruct (while_true_spec _ _ _ _ _ Hcaught (S (length (p_stdin p1)))
                (length (p_stdin p1)) [] p1 ltac:(lia) (boot_between_turns p1 Hsel))
      as (o & p2 & last & E & [Hr _] & Ho).
    rewrite E.
    destruct Hr as (_ & _ & Hd2 & _ & Hf2 & new & Hq2 & Hj & _).
    assert (Hh : exists p3, handlers (o, p2) = (Returned tt, p3) /\
              p_driver p3 = p_driver p2 /\
              w_fs (p_world p3) = w_fs (p_world p2) /\
              w_queries (p_world p3) = w_queries (p_world p2)).
    { unfold handlers. destruct o as [[]|e]; [eexists; repeat split|].
      unfold handled in Ho.
      destruct (is_keyboard_interrupt e); [eexists; repeat split|].
      simpl in Ho. rewrite Ho. eexists; repeat split. }
    destruct Hh as (p3 & -> & Hd3 & Hf3 & Hq3).
    unfold finally, close. cbn [fst snd]. rewrite Hd3, Hd2, Hd.
    eexists _, _. split; [reflexivity|]. cbn.
    split; [left; split; [reflexivity | discriminate]|]. split.
    + intros Hno. rewrite Hf3, Hf2, Hf; [reflexivity|].
      apply (no_export_choice_suffix keys); assumption.
    + exists new. split; [rewrite Hq3, Hq2, Hq; reflexivity | exact Hj].
  - destruct Hs as (Hd & Hf & Hq). eexists _, _. split; [reflexivity|].
    split; [left; split; [reflexivity | destruct Hd as [->| ->]; discriminate]|].
    split; [intros _; exact Hf|].
    exists []. split; [rewrite app_nil_r; exact Hq | apply well_logged_nil].
  - destruct Hs as (Hd & Hf & Hq). eexists _, _. split; [reflexivity|].
    split.
    { destruct Hd as [Hd|(Hd & He & Hc)].
      - right. left. exists e. split; [reflexivity | exact Hd].
      - right. right. exists e. auto. }
    split; [intros _; exact Hf|].
    exists []. split; [rewrite app_nil_r; exact Hq | apply well_logged_nil].
Qed.

End MainRun.

(** ** The numbers [print_movie_list] shows *)

Section MovieList.

Lemma print_movies_from_console movies : forall idx w,
  print_movies_from idx movies w
  = (Returned tt,
     printed_all (imap (fun k movie => movie_line (idx + k) movie) movies) w).
Proof.
  induction movies as [|m ms IH]; intros idx w.
  - unfold printed_all. simpl. rewrite app_nil_r. destruct w; reflexivity.
  - cbn [print_movies_from]. unfold mbind, M_bind, print. rewrite IH.
    unfold printed_all. cbn. rewrite <- app_assoc. cbn.
    rewrite Nat.add_0_r. do 4 f_equal.
    apply imap_ext. intros k x _. cbn. f_equal. lia.
Qed.

Lemma index_in_range {A} (l : list A) k x :
  l !! k = Some x -> index l (Z.of_nat (S k) - 1) = Returned x.
Proof.
  intros Hk. unfold index.
  replace (Z.of_nat (S k) - 1)%Z with (Z.of_nat k) by lia.
  destruct (Z.ltb_spec (Z.of_nat k) 0); [lia|].
  destruct (Z.ltb_spec (Z.of_nat k) 0); [lia|].
  rewrite Nat2Z.id, Hk. reflexivity.
Qed.

End MovieList.

(** X12: for a list that is not empty, [print_movie_list] prints one
    line that counts the movies and then one line for each movie; the
    line of the movie at position [k] of the list carries the number
    [k + 1], and that number passes the range check of the menu and picks
    the same movie from the list. *)
Theorem print_movie_list_numbers
    (movies : list MovieSummary) (w : World) (k : nat) (movie : MovieSummary) :
  movies !! k = Some movie ->
  exists w',
    print_movie_list movies w = (Returned tt, w') /\
    length (w_console w') = (length (w_console w) + 1 + length movies)%nat /\
    w_console w' !! (length (w_console w) + 1 + k)%nat = Some (movie_line (S k) movie) /\
    out_of_list (Z.of_nat (S k)) movies = false /\
    index movies (Z.of_nat (S k) - 1) = Returned movie.
Proof.
  intros Hk. pose proof (lookup_lt_Some _ _ _ Hk) as Hlt.
  destruct movies as [|m0 ms]; [discriminate|].
  eexists. split.
  { unfold print_movie_list. unfold mbind, M_bind, print.
    rewrite print_movies_from_console. reflexivity. }
  unfold printed_all. cbn [w_console].
  split; [rewrite !length_app, length_imap; cbn [length]; lia|].
  split.
  { rewrite <- app_assoc, <- Nat.add_assoc, lookup_app_r by lia.
    replace (length (w_console w) + (1 + k) - length (w_console w))%nat
      with (S k) by lia.
    rewrite lookup_app_r by (cbn [length]; lia). cbn [length].
    replace (S k - 1)%nat with k by lia.
    rewrite list_lookup_imap, Hk. reflexivity. }
  split; [|apply index_in_range, Hk].
  unfold out_of_list.
  destruct (Z.ltb_spec (Z.of_nat (S k)) 1); [lia|].
  destruct (Z.ltb_spec (Z.of_nat (length (m0 :: ms))) (Z.of_nat (S k))); [lia|].
  reflexivity.
Qed.

Lemma print_movie_list_numbers_witness :
  let lonely := {| ms_title := Some (VStr (lit "Lonely"));
                   ms_released := Some (VInt 2001); ms_tagline := None |} in
  let matrix := {| ms_title := Some (VStr (lit "The Matrix"));
                   ms_released := None; ms_tagline := None |} in
  exists w',
    print_movie_list [lonely; matrix] (world_of (Up sample_store)) = (Returned tt, w') /\
    w_console w' !! 2%nat = Some (lit "2) The Matrix (Bilinmiyor)") /\
    index [lonely; matrix] 1 = Returned matrix.
Proof.
  intros lonely matrix.
  destruct (print_movie_list_numbers [lonely; matrix] (world_of (Up sample_store))
              1 matrix eq_refl)
    as (w' & Hp & _ & Hl & _ & Hi).
  exists w'. split; [exact Hp|]. split; [exact Hl | exact Hi].
Defined.

(** ** [main] *)

Lemma P_bind_returned {A B} (m : P A) (f : A -> P B) p a p1 :
  m p = (Returned a, p1) -> (m ≫= f) p = f a p1.
Proof. unfold mbind, P_bind. intros ->. reflexivity. Qed.


Ltac process_literal :=
  unfold set_world, set_stdin, prompted, set_driver, set_selected, probed,
    set_conn, printed;
  cbn [p_world p_stdin p_prompts p_driver p_selected p_probes
       w_conn w_fs w_queries w_console].


(** X14: when no line of the input is the choice [3], [main] leaves the
    file system as it was: searching, looking at details and every
    failure on the way write nothing. *)
Theorem main_writes_only_on_export `{Library}
    (w : World) (keys : list key) (o : outcome unit) (p' : Process) :
  no_export_choice keys ->
  main (boot w keys) = Some (o, p') ->
  w_fs (p_world p') = w_fs w.
Proof.
  intros Hno E. destruct (main_run w keys) as (o1 & p1 & E1 & _ & Hf & _).
  rewrite E in E1. injection E1 as <- <-. apply Hf, Hno.
Qed.

(** X15: every query [main] sends goes back to a search of the same
    run.  In the order they are sent: the term of every search is not
    empty and has no white space around it, and the title of every
    detail query and of every export query is a string that holds a term
    searched before that query. *)
Theorem main_queries_follow_searches `{Library}
    (w : World) (keys : list key) (o : outcome unit) (p' : Process) :
  main (boot w keys) = Some (o, p') ->
  exists new,
    w_queries (p_world p') = w_queries w ++ new /\
    forall pre q t post,
      new = pre ++ (q, t) :: post ->
      match q with
      | SearchQuery => t <> [] /\ strip t = t
      | DetailQuery | ExportQuery =>
          exists term, (SearchQuery, term) ∈ pre /\ has_substring t term
      end.
Proof.
  intros E. destruct (main_run w keys) as (o1 & p1 & E1 & _ & _ & new & Hq & Hw).
  rewrite E in E1. injection E1 as <- <-. exists new. split; [exact Hq | exact Hw].
Qed.

(** X16: a password that is blank ends [main] at once: after the three
    prompts it prints the complaint and returns, without a driver, a
    connection test or a query, and reads nothing more. *)
Theorem main_blank_password `{Library}
    (w : World) (l1 l2 l3 : list N) (rest : list key) :
  strip l3 = [] ->
  main (boot w (Line l1 :: Line l2 :: Line l3 :: rest))
  = Some (Returned tt,
          {| p_world := printed empty_password (printed ask_credentials w);
             p_stdin := rest;
             p_prompts := [(S (length (w_console w)), uri_prompt);
                           (S (length (w_console w)), user_prompt);
                           (S (length (w_console w)), password_prompt)];
             p_driver := NoDriver;
             p_selected := None;
             p_probes := 0 |}).
Proof.
  intros Hb. destruct w as [c f q co].
  unfold main, startup.
  unfold mbind, P_bind, say, run, input, print, boot, prompted, set_stdin, set_world.
  cbn [p_world p_stdin p_prompts p_driver p_selected p_probes
       w_conn w_fs w_queries w_console].
  rewrite Hb.
  cbn [str_truthy negb mret P_ret printed p_world p_stdin p_prompts p_driver
       p_selected p_probes w_conn w_fs w_queries w_console].
  rewrite !length_app. cbn [length]. rewrite !Nat.add_1_r. reflexivity.
Qed.

(** X17: a connection whose test fails with an exception of the class
    [Exception] ends [main] before the menu: the error of the test and
    the advice are printed, the driver is closed, no movie query is sent,
    no file is touched and the rest of the input is left unread. *)
Theorem main_failed_probe `{Library}
    (w : World) (l1 l2 l3 : list N) (rest : list key) (e : exn) :
  strip l3 <> [] ->
  driver (or_default (strip l1) default_uri) (or_default (strip l2) default_user)
    (strip l3) = Returned (Down e) ->
  is_exception e = true ->
  main (boot w (Line l1 :: Line l2 :: Line l3 :: rest))
  = Some (Returned tt,
          {| p_world :=
               printed cannot_connect
                 (printed (conn_error ++ exn_text e)
                    (printed testing (set_conn (Down e) (printed ask_credentials w))));
             p_stdin := rest;
             p_prompts := [(S (length (w_console w)), uri_prompt);
                           (S (length (w_console w)), user_prompt);
                           (S (length (w_console w)), password_prompt)];
             p_driver := DriverClosed;
             p_selected := None;
             p_probes := 1 |}).
Proof.
  intros Hb Hd He. destruct w as [c f q co].
  assert (Ht : str_truthy (strip l3) = true)
    by (destruct (strip l3); [congruence | reflexivity]).
  unfold main, startup, boot.
  erewrite P_bind_returned; [|reflexivity]. process_literal.
  erewrite P_bind_returned; [|reflexivity]. process_literal.
  erewrite P_bind_returned; [|reflexivity]. process_literal.
  erewrite P_bind_returned; [|reflexivity]. process_literal.
  cbv zeta. rewrite Ht. cbn [negb].
  erewrite P_bind_returned; [|unfold app_init; rewrite Hd; reflexivity].
  process_literal.
  erewrite P_bind_returned; [|reflexivity]. process_literal.
  erewrite P_bind_returned;
    [|unfold test_connection, catching, probe, mbind, P_bind;
      cbn [p_world w_conn]; rewrite He; reflexivity].
  process_literal.
  cbn [negb].
  erewrite P_bind_returned; [|reflexivity]. process_literal.
  erewrite P_bind_returned; [|reflexivity]. process_literal.
  unfold mret, P_ret.
  rewrite !length_app. cbn [length]. rewrite !Nat.add_1_r. reflexivity.
Qed.


Lemma browsing_keys_no_export : no_export_choice browsing_keys.
Proof.
  intros s Hs. unfold browsing_keys in Hs.
  repeat (apply elem_of_cons in Hs as [Hs|Hs];
          [first [discriminate Hs | injection Hs as ->; vm_compute; discriminate]|]).
  elim (not_elem_of_nil _ Hs).
Qed.

Lemma main_writes_only_on_export_witness :
  exists o p',
    @main (library_of (Up sample_store)) (boot (world_of (Up empty_store)) browsing_keys)
    = Some (o, p') /\
    w_fs (p_world p') = empty_fs.
Proof.
  destruct (@main (library_of (Up sample_store))
              (boot (world_of (Up empty_store)) browsing_keys)) as [[o p']|] eqn:E;
    [|vm_compute in E; discriminate].
  exists o, p'. split; [reflexivity|].
  apply (@main_writes_only_on_export (library_of (Up sample_store))
           (world_of (Up empty_store)) browsing_keys o p' browsing_keys_no_export E).
Defined.

Lemma main_queries_follow_searches_witness :
  exists o p',
    @main (library_of (Up sample_store)) (boot (world_of (Up empty_store)) session_keys)
    = Some (o, p') /\
    w_queries (p_world p')
    = [(SearchQuery, lit "Matrix"); (DetailQuery, lit "The Matrix");
       (ExportQuery, lit "The Matrix")] /\
    exists term, (SearchQuery, term) ∈ [(SearchQuery, lit "Matrix")] /\
                 has_substring (lit "The Matrix") term.
Proof.
  destruct (@main (library_of (Up sample_store))
              (boot (world_of (Up empty_store)) session_keys)) as [[o p']|] eqn:E;
    [|vm_compute in E; discriminate].
  destruct (@main_queries_follow_searches (library_of (Up sample_store))
              (world_of (Up empty_store)) session_keys o p' E) as (new & Hq & Hw).
  assert (Hnew : new = [(SearchQuery, lit "Matrix"); (DetailQuery, lit "The Matrix");
                        (ExportQuery, lit "The Matrix")]).
  { rewrite <- (app_nil_l new).
    change (@nil (Query * list N)) with (w_queries (world_of (Up empty_store))).
    rewrite <- Hq. vm_compute in E. injection E as _ <-. reflexivity. }
  exists o, p'. split; [reflexivity|]. split; [rewrite Hq, Hnew; reflexivity|].
  exact (Hw [(SearchQuery, lit "Matrix")] DetailQuery (lit "The Matrix")
           [(ExportQuery, lit "The Matrix")] Hnew).
Defined.

Lemma main_blank_password_witness :
  exists p',
    @main (library_of (Up sample_store))
      (boot (world_of (Up empty_store)) [Line []; Line []; Line (lit "  "); Line (lit "1")])
    = Some (Returned tt, p') /\
    p_stdin p' = [Line (lit "1")] /\ p_driver p' = NoDriver.
Proof.
  eexists. split.
  - apply (@main_blank_password (library_of (Up sample_store))). vm_compute. reflexivity.
  - split; reflexivity.
Defined.

Lemma main_failed_probe_witness :
  exists p',
    @main (library_of (Down connection_refused))
      (boot (world_of (Up empty_store)) [Line []; Line []; Line (lit "secret"); Line (lit "1")])
    = Some (Returned tt, p') /\
    p_stdin p' = [Line (lit "1")] /\ p_driver p' = DriverClosed /\
    w_queries (p_world p') = [].
Proof.
  eexists. split.
  - apply (@main_failed_probe (library_of (Down connection_refused))).
    + vm_compute. discriminate.
    + reflexivity.
    + reflexivity.
  - repeat split.
Defined.
